(** * Identity reconciliation service: the [identify] operation

    Shallow embedding of [src/services/identify.ts]: the normalizer, the
    cluster resolver (fixpoint expansion over the contact table), the primary
    arbiter, the secondary writer, the response projector and the
    serializable-transaction retry loop, followed by the properties the
    specification states about them.  The last part of the file reads
    further properties off the code: of the normalizer and the validation,
    of the retry loop under arbitrary store errors, of the transaction body
    on arbitrary tables, of the partial unique index of the migrations, and
    of the two HTTP entry points ([api/identify.ts] and the [POST /identify]
    route of [app.ts]).

    Modelling conventions
    - A JavaScript string is a [string] of code units in the range 0 to 255
      (Basic Latin and Latin-1 Supplement, U+0000 to U+00FF).  On that range
      case folding and white space are JavaScript's own: [toLowerCase] folds
      A to Z, U+00C0 to U+00D6 and U+00D8 to U+00DE, one code unit to one
      code unit, and the white space of [trim] and of the class [\s] is TAB,
      LF, VT, FF, CR, SPACE and the no-break space U+00A0.  Text that holds a
      code unit above U+00FF is outside the domain of the model.
    - The contact table is the list of its rows in insertion order, with the
      identifier sequence next to it.  A Prisma [findMany] with
      [orderBy: createdAt asc] is a filter followed by a stable sort on
      [createdAt] (rows with equal [createdAt] come back in table order).
    - [Array.prototype.sort] is the binary insertion of V8's TimSort (Node 11
      and later): each element in turn is placed in the already sorted prefix
      before the first element against which the comparator answers a
      negative number.  For the comparators of this program that is the
      stable sort on the key.
    - A JavaScript [Set] is the list of the values added to it; the code only
      observes it through [has], [size > 0] and as the operand of a Prisma
      [in] / [notIn] filter.
    - [createdAt] is the store clock at the moment a row is created; the
      clock reading is an explicit argument [now] of every operation that can
      create a row.  Nothing is assumed about the clock unless a statement
      says so.
    - The store is the abstract contact store of the service: inside a
      transaction, reads and writes succeed.  Anything the database may
      refuse (a serialization conflict, a connectivity loss, a constraint
      such as the optional partial unique index on [email]) is an error with
      which [prisma.$transaction] fails as a whole; the environment of
      [identifyContact] decides, attempt by attempt, whether that happens.
      A failed transaction leaves the table as it was. *)

From Stdlib Require Import ZArith List Bool String Ascii Lia.
From Stdlib Require Import Sorted Permutation Relations.
From Equations Require Import Equations.
Import ListNotations.

Local Open Scope string_scope.
Local Open Scope list_scope.
Local Open Scope Z_scope.

Set Implicit Arguments.

(* ===================================================================== *)
(** * JavaScript primitives *)
(* ===================================================================== *)

Module JS.

(** White space of [String.prototype.trim] and of the regular expression
    class [\s] (WhiteSpace and LineTerminator of ECMAScript) among the code
    units 0 to 255: TAB, LF, VT, FF, CR (9 to 13), SPACE (32) and the
    no-break space U+00A0 (160).  U+0085 is not white space in JavaScript. *)
Definition isSpace (c : ascii) : bool :=
  let n := nat_of_ascii c in
  ((9 <=? n)%nat && (n <=? 13)%nat) || (n =? 32)%nat || (n =? 160)%nat.

(** One code unit of [String.prototype.toLowerCase]: the upper-case letters
    among the code units 0 to 255 are A to Z (65 to 90), U+00C0 to U+00D6
    (192 to 214) and U+00D8 to U+00DE (216 to 222); each folds to the code
    unit 32 above it.  U+00D7, the multiplication sign, has no case. *)
Definition lowerChar (c : ascii) : ascii :=
  let n := nat_of_ascii c in
  if (((65 <=? n)%nat && (n <=? 90)%nat)
      || ((192 <=? n)%nat && (n <=? 214)%nat)
      || ((216 <=? n)%nat && (n <=? 222)%nat))%bool
  then ascii_of_nat (n + 32) else c.

Fixpoint toLowerCase (s : string) : string :=
  match s with
  | EmptyString => EmptyString
  | String c r => String (lowerChar c) (toLowerCase r)
  end.

Fixpoint trimStart (s : string) : string :=
  match s with
  | EmptyString => EmptyString
  | String c r => if isSpace c then trimStart r else s
  end.

Fixpoint trimEnd (s : string) : string :=
  match s with
  | EmptyString => EmptyString
  | String c r =>
      match trimEnd r with
      | EmptyString => if isSpace c then EmptyString else String c EmptyString
      | r' => String c r'
      end
  end.

Definition trim (s : string) : string := trimEnd (trimStart s).

(** [s.replace(/[...]/g, '')] for a character class given as a predicate. *)
Fixpoint removeAll (cls : ascii -> bool) (s : string) : string :=
  match s with
  | EmptyString => EmptyString
  | String c r => if cls c then removeAll cls r else String c (removeAll cls r)
  end.

(** Truthiness of a string: the empty string is falsy. *)
Definition nonEmpty (s : string) : bool :=
  match s with EmptyString => false | String _ _ => true end.

(** Truthiness of a [string | null | undefined] value. *)
Definition truthy (v : option string) : bool :=
  match v with Some s => nonEmpty s | None => false end.

(** [s || undefined] on a string. *)
Definition orUndefined (s : string) : option string :=
  if nonEmpty s then Some s else None.

(** [v || undefined] on a [string | undefined]. *)
Definition optOrUndefined (v : option string) : option string :=
  if truthy v then v else None.

(** [v ? [v] : []] *)
Definition ifTruthy (v : option string) : list string :=
  match v with
  | Some s => if nonEmpty s then [s] else []
  | None => []
  end.

(** [Set.prototype.has] on strings, and membership of a number in an array. *)
Definition hasStr (x : string) (l : list string) : bool :=
  existsb (String.eqb x) l.

Definition hasNum (x : Z) (l : list Z) : bool :=
  existsb (Z.eqb x) l.

Section Sort.
Variable A : Type.
(** The comparator: a negative answer means "the first argument goes first". *)
Variable cmp : A -> A -> Z.

(** Place [x] before the first element [y] with [cmp x y < 0]. *)
Fixpoint insertBy (x : A) (l : list A) : list A :=
  match l with
  | [] => [x]
  | y :: r => if cmp x y <? 0 then x :: l else y :: insertBy x r
  end.

(** [Array.prototype.sort(cmp)]: elements are inserted left to right. *)
Definition sort (l : list A) : list A :=
  fold_left (fun acc x => insertBy x acc) l [].
End Sort.

(** The comparator [(a, b) => (key a < key b ? -1 : 1)] used throughout
    [identify.ts]; it never answers 0. *)
Definition cmpLt (A : Type) (key : A -> Z) (a b : A) : Z :=
  if key a <? key b then -1 else 1.

(** The comparator [(a, b) => a - b]. *)
Definition cmpNum (a b : Z) : Z := a - b.

End JS.

(* ===================================================================== *)
(** * Data model *)
(* ===================================================================== *)

Inductive LinkPrecedence : Type := primary | secondary.

Definition LinkPrecedence_eqb (a b : LinkPrecedence) : bool :=
  match a, b with
  | primary, primary | secondary, secondary => true
  | _, _ => false
  end.

(** A row of the [Contact] table.  Time stamps are milliseconds. *)
Record Contact : Type := mkContact {
  id : Z;
  email : option string;
  phoneNumber : option string;
  linkPrecedence : LinkPrecedence;
  linkedId : option Z;
  createdAt : Z;
  deletedAt : option Z
}.

Record IdentifyRequest : Type := mkRequest {
  req_email : option string;
  req_phoneNumber : option string
}.

(** The [contact] object of an [IdentifyResponse]. *)
Record IdentifyResponse : Type := mkResponse {
  primaryContatctId : Z;
  emails : list string;
  phoneNumbers : list string;
  secondaryContactIds : list Z
}.

(** The contact table together with its identifier sequence. *)
Record Store : Type := mkStore {
  rows : list Contact;
  nextId : Z
}.

Definition emptyStore : Store := mkStore [] 1.

(* ===================================================================== *)
(** * Normalizer and input validation *)
(* ===================================================================== *)

Definition MAX_SERIALIZABLE_RETRIES : nat := 3.

(** The character class [[\s\-\.()]]. *)
Definition phoneNoise (c : ascii) : bool :=
  JS.isSpace c ||
  Ascii.eqb c "-" || Ascii.eqb c "." || Ascii.eqb c "(" || Ascii.eqb c ")".

Definition normalizePhone (value : option string) : option string :=
  match value with
  | None => None
  | Some v => JS.orUndefined (JS.trim (JS.removeAll phoneNoise v))
  end.

Definition normalizeEmail (value : option string) : option string :=
  match value with
  | None => None
  | Some v => JS.orUndefined (JS.trim (JS.toLowerCase v))
  end.

(** [validateInput] returns [true] when it does not throw. *)
Definition validateInput (input : IdentifyRequest) : bool :=
  let email := normalizeEmail (req_email input) in
  let phoneNumber := normalizePhone (req_phoneNumber input) in
  negb (negb (JS.truthy email) && negb (JS.truthy phoneNumber)).

(* ===================================================================== *)
(** * The contact store as seen through the Prisma client *)
(* ===================================================================== *)

Module Prisma.

Definition WhereInput : Type := Contact -> bool.

(** [OR: conds]; an empty [OR] matches no row. *)
Definition whereOR (conds : list WhereInput) : WhereInput :=
  fun c => existsb (fun p => p c) conds.

(** [{ email }] and [{ phoneNumber }]: equality with a string; NULL never
    matches. *)
Definition emailEquals (e : string) : WhereInput :=
  fun c => match email c with Some x => String.eqb x e | None => false end.

Definition phoneEquals (p : string) : WhereInput :=
  fun c => match phoneNumber c with Some x => String.eqb x p | None => false end.

(** [{ email: { in: es } }] and [{ phoneNumber: { in: ps } }] *)
Definition emailIn (es : list string) : WhereInput :=
  fun c => match email c with Some x => JS.hasStr x es | None => false end.

Definition phoneIn (ps : list string) : WhereInput :=
  fun c => match phoneNumber c with Some x => JS.hasStr x ps | None => false end.

Definition idEquals (i : Z) : WhereInput := fun c => id c =? i.

Definition idIn (ids : list Z) : WhereInput := fun c => JS.hasNum (id c) ids.

Definition idNotIn (ids : list Z) : WhereInput :=
  fun c => negb (JS.hasNum (id c) ids).

Definition linkedIdEquals (i : Z) : WhereInput :=
  fun c => match linkedId c with Some j => j =? i | None => false end.

(** [deletedAt: null] *)
Definition notDeleted : WhereInput :=
  fun c => match deletedAt c with None => true | Some _ => false end.

(** [orderBy: { createdAt: 'asc' }] *)
Definition orderByCreatedAt (l : list Contact) : list Contact :=
  JS.sort (JS.cmpLt createdAt) l.

Definition findMany (where_ : WhereInput) (tx : Store) : list Contact :=
  orderByCreatedAt (filter where_ (rows tx)).

(** [create]: the store assigns [id] from its sequence, [createdAt] from its
    clock, and leaves [deletedAt] NULL. *)
Definition create (now : Z) (e p : option string) (lp : LinkPrecedence)
    (l : option Z) (tx : Store) : Contact * Store :=
  let c := mkContact (nextId tx) e p lp l now None in
  (c, mkStore (rows tx ++ [c]) (nextId tx + 1)).

Definition updateMany (where_ : WhereInput) (data : Contact -> Contact)
    (tx : Store) : Store :=
  mkStore (map (fun c => if where_ c then data c else c) (rows tx)) (nextId tx).

End Prisma.

Import Prisma.

(* ===================================================================== *)
(** * identifyInTransaction *)
(* ===================================================================== *)

(** ** Cluster resolver *)

(** The [orConditions] of the seed query. *)
Definition seedConditions (email_ phoneNumber_ : option string) : list WhereInput :=
  (match email_ with
   | Some e => if JS.nonEmpty e then [emailEquals e] else []
   | None => []
   end) ++
  (match phoneNumber_ with
   | Some p => if JS.nonEmpty p then [phoneEquals p] else []
   | None => []
   end).

(** [where: { deletedAt: null, OR: orConditions }] *)
Definition seedQuery (email_ phoneNumber_ : option string) : WhereInput :=
  fun c => notDeleted c && whereOR (seedConditions email_ phoneNumber_) c.

Definition directMatchesOf (tx : Store) (email_ phoneNumber_ : option string)
  : list Contact :=
  findMany (seedQuery email_ phoneNumber_) tx.

(** [new Set(group.flatMap((c) => (c.email ? [c.email] : [])))] and its
    phone counterpart. *)
Definition groupEmails (group : list Contact) : list string :=
  flat_map (fun c => JS.ifTruthy (email c)) group.

Definition groupPhones (group : list Contact) : list string :=
  flat_map (fun c => JS.ifTruthy (phoneNumber c)) group.

(** The [orConditions] of one expansion round. *)
Definition expansionConditions (group : list Contact) : list WhereInput :=
  (match groupEmails group with [] => [] | es => [emailIn es] end) ++
  (match groupPhones group with [] => [] | ps => [phoneIn ps] end).

Definition expansionQuery (group : list Contact) (groupIds : list Z) : WhereInput :=
  fun c => notDeleted c && idNotIn groupIds c && whereOR (expansionConditions group) c.

Definition inspect {A : Type} (a : A) : { b : A | a = b } := exist _ a eq_refl.

(** Rows of the table that the exclusion [id notIn groupIds] still lets
    through: the quantity that shrinks with every productive round. *)
Definition outside (tx : Store) (groupIds : list Z) : nat :=
  List.length (filter (idNotIn groupIds) (rows tx)).

(** Two facts used by the termination argument of the expansion loop. *)
Lemma insertBy_In (A : Type) (cmp : A -> A -> Z) (x y : A) (l : list A) :
  In y (JS.insertBy cmp x l) <-> y = x \/ In y l.
Proof.
  induction l as [|z l IH]; simpl.
  - intuition.
  - destruct (cmp x z <? 0); simpl; rewrite ?IH; intuition.
Qed.

Lemma sort_In (A : Type) (cmp : A -> A -> Z) (y : A) (l : list A) :
  In y (JS.sort cmp l) <-> In y l.
Proof.
  unfold JS.sort.
  assert (G : forall acc, In y (fold_left (fun a x => JS.insertBy cmp x a) l acc)
                          <-> In y acc \/ In y l).
  { induction l as [|z l IH]; intros acc; simpl.
    - intuition.
    - rewrite IH, insertBy_In. intuition. }
  rewrite G. simpl. intuition.
Qed.

Lemma filter_shrinks (A : Type) (p q : A -> bool) (l : list A) (c : A) :
  (forall x, q x = true -> p x = true) ->
  In c l -> p c = true -> q c = false ->
  (List.length (filter q l) < List.length (filter p l))%nat.
Proof.
  intros Hqp. induction l as [|z l IH]; simpl; intros Hin Hp Hq.
  - contradiction.
  - assert (Hle : (List.length (filter q l) <= List.length (filter p l))%nat).
    { clear -Hqp. induction l as [|w l IHl]; simpl; [lia|].
      destruct (q w) eqn:Eq.
      - rewrite (Hqp _ Eq). simpl. lia.
      - destruct (p w); simpl; lia. }
    destruct Hin as [->|Hin].
    + rewrite Hp, Hq. simpl. lia.
    + specialize (IH Hin Hp Hq).
      destruct (q z) eqn:Eq.
      * rewrite (Hqp _ Eq). simpl. lia.
      * destruct (p z); simpl; lia.
Qed.

Lemma hasNum_In (x : Z) (l : list Z) : JS.hasNum x l = true <-> In x l.
Proof.
  unfold JS.hasNum. rewrite existsb_exists. split.
  - intros [y [Hy E]]. apply Z.eqb_eq in E. subst. exact Hy.
  - intros H. exists x. split; [exact H | apply Z.eqb_refl].
Qed.

Lemma outside_decreases (tx : Store) (group : list Contact) (groupIds : list Z)
    (c : Contact) (next : list Contact) :
  findMany (expansionQuery group groupIds) tx = c :: next ->
  (outside tx (groupIds ++ map id (c :: next)) < outside tx groupIds)%nat.
Proof.
  intros Hq. unfold outside.
  assert (Hc : In c (findMany (expansionQuery group groupIds) tx))
    by (rewrite Hq; left; reflexivity).
  unfold findMany, orderByCreatedAt in Hc.
  apply sort_In in Hc. apply filter_In in Hc. destruct Hc as [Hin Hc].
  unfold expansionQuery in Hc.
  apply andb_prop in Hc. destruct Hc as [Hc _].
  apply andb_prop in Hc. destruct Hc as [_ Hc].
  apply filter_shrinks with (c := c); auto.
  - intros x. unfold idNotIn. rewrite !negb_true_iff.
    intros Hx. destruct (JS.hasNum (id x) groupIds) eqn:E; auto.
    apply hasNum_In in E.
    assert (Hx' : JS.hasNum (id x) (groupIds ++ map id (c :: next)) = true)
      by (apply hasNum_In, in_or_app; left; exact E).
    congruence.
  - unfold idNotIn. apply negb_false_iff. apply hasNum_In.
    apply in_or_app. right. left. reflexivity.
Qed.

(** The expansion loop.  [group] and [groupIds] are the two mutable
    collections of the source; a round that finds nothing ends the loop. *)
Equations? expandGroup (tx : Store) (group : list Contact) (groupIds : list Z)
  : list Contact by wf (outside tx groupIds) lt :=
  expandGroup tx group groupIds
    with inspect (findMany (expansionQuery group groupIds) tx) := {
    | exist _ [] _ => group
    | exist _ (c :: next) Hq =>
        expandGroup tx (group ++ c :: next) (groupIds ++ map id (c :: next)) }.
Proof. apply (outside_decreases _ _ _ Hq). Qed.

(** ** Primary arbiter *)

(** [let primary = group[0]; for (const c of group) if (c.createdAt <
    primary.createdAt) primary = c;] with [first] standing for [group[0]]. *)
Definition electPrimary (first : Contact) (group : list Contact) : Contact :=
  fold_left (fun p c => if createdAt c <? createdAt p then c else p) group first.

Definition otherPrimariesOf (elected : Contact) (group : list Contact)
  : list Contact :=
  filter (fun c => negb (id c =? id elected)
                   && LinkPrecedence_eqb (linkPrecedence c) primary) group.

(** The [data] of the batched update. *)
Definition demote (primaryId : Z) (c : Contact) : Contact :=
  mkContact (id c) (email c) (phoneNumber c) secondary (Some primaryId)
            (createdAt c) (deletedAt c).

Definition demoteOthers (elected : Contact) (otherPrimaries : list Contact)
    (tx : Store) : Store :=
  match otherPrimaries with
  | [] => tx
  | _ => updateMany (idIn (map id otherPrimaries)) (demote (id elected)) tx
  end.

(** [where: { deletedAt: null, OR: [{ id }, { linkedId: id }] }] *)
Definition rootedAt (primaryId : Z) : WhereInput :=
  fun c => notDeleted c && whereOR [idEquals primaryId; linkedIdEquals primaryId] c.

(** ** Secondary writer *)

Definition existingEmailsOf (normalizedGroup : list Contact) : list string :=
  flat_map (fun c => JS.ifTruthy (normalizeEmail (email c))) normalizedGroup.

Definition existingPhonesOf (normalizedGroup : list Contact) : list string :=
  flat_map (fun c => JS.ifTruthy (normalizePhone (phoneNumber c))) normalizedGroup.

(** [value && !existing.has(value)] *)
Definition isNew (value : option string) (existing : list string) : bool :=
  match value with
  | Some v => JS.nonEmpty v && negb (JS.hasStr v existing)
  | None => false
  end.

Definition shouldCreateSecondary (email_ phoneNumber_ : option string)
    (normalizedGroup : list Contact) : bool :=
  let flag := false in
  let flag := if isNew email_ (existingEmailsOf normalizedGroup) then true else flag in
  let flag := if isNew phoneNumber_ (existingPhonesOf normalizedGroup) then true else flag in
  flag.

(** ** Response projector *)

(** [finalGroup.filter((c) => c.email && !seen.has(c.email!)).map((c) =>
    ({ email: c.email!, createdAt: c.createdAt }))], for the attribute read
    by [field]. *)
Definition othersWithContact (field : Contact -> option string)
    (seen : list string) (finalGroup : list Contact) : list (string * Z) :=
  flat_map (fun c =>
    match field c with
    | Some v => if JS.nonEmpty v && negb (JS.hasStr v seen)
                then [(v, createdAt c)] else []
    | None => []
    end) finalGroup.

(** One iteration of [for (const { email } of others) if (!seen.has(email))
    { seen.add(email); emails.push(email); }]; the state is [(seen, out)]. *)
Definition pushUnseen (st : list string * list string) (item : string * Z)
  : list string * list string :=
  let '(seen, out) := st in
  if negb (JS.hasStr (fst item) seen)
  then (seen ++ [fst item], out ++ [fst item])
  else st.

(** The construction of [emails] (with [field := email]) and of
    [phoneNumbers] (with [field := phoneNumber]): the two blocks of the
    source differ only in the attribute they read. *)
Definition uniqueValues (field : Contact -> option string)
    (freshPrimary : Contact) (finalGroup : list Contact) : list string :=
  let first := JS.ifTruthy (field freshPrimary) in
  let others :=
    JS.sort (JS.cmpLt (@snd string Z)) (othersWithContact field first finalGroup) in
  snd (fold_left pushUnseen others (first, first)).

Definition secondaryIdsOf (freshPrimary : Contact) (finalGroup : list Contact)
  : list Z :=
  JS.sort JS.cmpNum
    (map id
       (filter (fun c =>
                  LinkPrecedence_eqb (linkPrecedence c) secondary
                  && match linkedId c with
                     | Some j => j =? id freshPrimary
                     | None => false
                     end)
               finalGroup)).

Definition project (elected : Contact) (tx : Store) : IdentifyResponse :=
  let finalGroup := findMany (rootedAt (id elected)) tx in
  (* [finalGroup.find(...)!]: the elected row is always found, see
     [freshPrimary_found]. *)
  let freshPrimary :=
    match find (fun c => id c =? id elected) finalGroup with
    | Some c => c
    | None => elected
    end in
  mkResponse (id freshPrimary)
             (uniqueValues email freshPrimary finalGroup)
             (uniqueValues phoneNumber freshPrimary finalGroup)
             (secondaryIdsOf freshPrimary finalGroup).

(** ** The transaction body *)

(** The sorted, fully expanded group for a non-empty list of direct matches. *)
Definition resolveGroup (tx : Store) (directMatches : list Contact) : list Contact :=
  JS.sort (JS.cmpLt createdAt)
          (expandGroup tx directMatches (map id directMatches)).

Definition identifyInTransaction (now : Z) (tx : Store) (input : IdentifyRequest)
  : Store * IdentifyResponse :=
  let email_ := JS.optOrUndefined (normalizeEmail (req_email input)) in
  let phoneNumber_ := JS.optOrUndefined (normalizePhone (req_phoneNumber input)) in
  let directMatches := directMatchesOf tx email_ phoneNumber_ in
  match directMatches with
  | [] =>
      let '(created, tx1) := create now email_ phoneNumber_ primary None tx in
      (tx1, mkResponse (id created)
                       (JS.ifTruthy (email created))
                       (JS.ifTruthy (phoneNumber created))
                       [])
  | d :: _ =>
      let group := resolveGroup tx directMatches in
      (* [group[0]]: the group holds the direct matches, so it is never
         empty, see [resolveGroup_nonempty]. *)
      let elected := electPrimary (hd d group) group in
      let otherPrimaries := otherPrimariesOf elected group in
      let tx1 := demoteOthers elected otherPrimaries tx in
      let normalizedGroup := findMany (rootedAt (id elected)) tx1 in
      let tx2 :=
        if shouldCreateSecondary email_ phoneNumber_ normalizedGroup
        then snd (create now email_ phoneNumber_ secondary (Some (id elected)) tx1)
        else tx1 in
      (tx2, project elected tx2)
  end.

(* ===================================================================== *)
(** * identifyContact: validation and the retry loop *)
(* ===================================================================== *)

(** What a failed [prisma.$transaction] throws: whether the error is a
    [PrismaClientKnownRequestError], and its [code]. *)
Record PrismaError : Type := mkPrismaError {
  knownRequestError : bool;
  code : string
}.

Definition P2034 : PrismaError := mkPrismaError true "P2034".

Definition isRetryableConflict (err : PrismaError) : bool :=
  knownRequestError err && String.eqb (code err) "P2034".

(** What [identifyContact] throws. *)
Inductive Failure : Type :=
| InvalidInput                      (* the [statusCode = 400] error *)
| StoreFailure (err : PrismaError)  (* [throw err] *)
| Unreachable.                      (* the [throw] after the loop *)

(** What [identifyContact] does besides computing, in order. *)
Inductive Event : Type :=
| TransactionOpened (attempt : nat)
| Committed
| RolledBack
| Slept (ms : Z).

(** The environment of one call: for each attempt, the error with which the
    serializable transaction fails (if it does), and the store clock. *)
Record Env : Type := mkEnv {
  fault : nat -> option PrismaError;
  clock : nat -> Z
}.

Record Outcome : Type := mkOutcome {
  result : Failure + IdentifyResponse;
  store : Store;
  trace : list Event
}.

(** The [for] loop from [attempt] on; [remaining] is
    [MAX_SERIALIZABLE_RETRIES + 1 - attempt], so that [remaining = 0] is the
    loop condition [attempt <= MAX_SERIALIZABLE_RETRIES] failing.  A failed
    transaction leaves the store as it was. *)
Fixpoint attempts (env : Env) (input : IdentifyRequest) (remaining attempt : nat)
    (prisma : Store) : Outcome :=
  match remaining with
  | O => mkOutcome (inl Unreachable) prisma []
  | S remaining' =>
      match fault env attempt with
      | None =>
          let '(tx, r) := identifyInTransaction (clock env attempt) prisma input in
          mkOutcome (inr r) tx [TransactionOpened attempt; Committed]
      | Some err =>
          if isRetryableConflict err && (attempt <? MAX_SERIALIZABLE_RETRIES)%nat
          then
            let o := attempts env input remaining' (S attempt) prisma in
            mkOutcome (result o) (store o)
              (TransactionOpened attempt :: RolledBack
               :: Slept (20 * Z.of_nat attempt) :: trace o)
          else
            mkOutcome (inl (StoreFailure err)) prisma
                      [TransactionOpened attempt; RolledBack]
      end
  end.

Definition identifyContact (env : Env) (prisma : Store) (input : IdentifyRequest)
  : Outcome :=
  if validateInput input
  then attempts env input MAX_SERIALIZABLE_RETRIES 1%nat prisma
  else mkOutcome (inl InvalidInput) prisma [].

(** A call during which the store raises no error, at clock reading [now]. *)
Definition reconcile (now : Z) (prisma : Store) (input : IdentifyRequest) : Outcome :=
  identifyContact (mkEnv (fun _ => None) (fun _ => now)) prisma input.

(* ===================================================================== *)
(** * Running examples *)
(* ===================================================================== *)

Definition req (e p : string) : IdentifyRequest :=
  mkRequest (if JS.nonEmpty e then Some e else None)
            (if JS.nonEmpty p then Some p else None).

(** A sequence of successful calls, each with its clock reading. *)
Fixpoint run (calls : list (Z * IdentifyRequest)) (s : Store) : Store :=
  match calls with
  | [] => s
  | (now, input) :: rest => run rest (store (reconcile now s input))
  end.

(* ===================================================================== *)
(** * Facts about the JavaScript primitives *)
(* ===================================================================== *)

Section SortFacts.
Variable A : Type.
Variable key : A -> Z.

Let le_key (a b : A) : Prop := key a <= key b.
Let ins := JS.insertBy (JS.cmpLt key).
Let srt := JS.sort (JS.cmpLt key).

Lemma cmpLt_neg (a b : A) : (JS.cmpLt key a b <? 0) = (key a <? key b).
Proof. unfold JS.cmpLt. destruct (key a <? key b); reflexivity. Qed.

Lemma insertBy_perm (cmp : A -> A -> Z) (x : A) (l : list A) :
  Permutation (JS.insertBy cmp x l) (x :: l).
Proof.
  induction l as [|y l IH]; simpl.
  - apply Permutation_refl.
  - destruct (cmp x y <? 0).
    + apply Permutation_refl.
    + eapply perm_trans; [apply perm_skip, IH | apply perm_swap].
Qed.

Lemma sort_fold_perm (cmp : A -> A -> Z) (l acc : list A) :
  Permutation (fold_left (fun a x => JS.insertBy cmp x a) l acc) (acc ++ l).
Proof.
  revert acc. induction l as [|y l IH]; intros acc; simpl.
  - rewrite app_nil_r. apply Permutation_refl.
  - eapply perm_trans; [apply IH|].
    eapply perm_trans; [apply Permutation_app_tail, insertBy_perm|].
    simpl. apply Permutation_middle.
Qed.

Lemma sort_perm (cmp : A -> A -> Z) (l : list A) :
  Permutation (JS.sort cmp l) l.
Proof. unfold JS.sort. apply (sort_fold_perm cmp l []). Qed.

Lemma sort_length (cmp : A -> A -> Z) (l : list A) :
  List.length (JS.sort cmp l) = List.length l.
Proof. apply Permutation_length, sort_perm. Qed.

Lemma sort_nil_inv (cmp : A -> A -> Z) (l : list A) :
  JS.sort cmp l = [] -> l = [].
Proof.
  intros H. apply length_zero_iff_nil.
  rewrite <- (sort_length cmp), H. reflexivity.
Qed.

Lemma insertBy_sorted (x : A) (l : list A) :
  StronglySorted le_key l -> StronglySorted le_key (ins x l).
Proof.
  unfold ins. induction 1 as [|y l Hs IH Hall]; simpl.
  - repeat constructor.
  - rewrite cmpLt_neg. destruct (key x <? key y) eqn:E.
    + apply Z.ltb_lt in E. constructor.
      * constructor; assumption.
      * constructor; [unfold le_key; lia|].
        eapply Forall_impl; [|exact Hall]. unfold le_key. intros; lia.
    + apply Z.ltb_ge in E. constructor; [exact IH|].
      rewrite Forall_forall in *. intros z Hz.
      apply insertBy_In in Hz. destruct Hz as [->|Hz]; [exact E|auto].
Qed.

Lemma sort_fold_sorted (l acc : list A) :
  StronglySorted le_key acc ->
  StronglySorted le_key (fold_left (fun a x => ins x a) l acc).
Proof.
  revert acc. induction l as [|y l IH]; intros acc Hacc; simpl.
  - exact Hacc.
  - apply IH, insertBy_sorted, Hacc.
Qed.

Lemma sort_sorted (l : list A) : StronglySorted le_key (srt l).
Proof. apply sort_fold_sorted. constructor. Qed.

(** An element no smaller than the whole list goes to its end. *)
Lemma insertBy_last (x : A) (l : list A) :
  Forall (fun y => key y <= key x) l -> ins x l = l ++ [x].
Proof.
  unfold ins. induction 1 as [|y l Hy Hall IH]; simpl.
  - reflexivity.
  - rewrite cmpLt_neg. destruct (key x <? key y) eqn:E.
    + apply Z.ltb_lt in E. lia.
    + rewrite IH. reflexivity.
Qed.

Lemma sorted_app_inv (l1 l2 : list A) :
  StronglySorted le_key (l1 ++ l2) ->
  StronglySorted le_key l1 /\ StronglySorted le_key l2 /\
  (forall a b, In a l1 -> In b l2 -> key a <= key b).
Proof.
  induction l1 as [|x l1 IH]; simpl; intros H.
  - repeat split; [constructor | exact H | intros ? ? []].
  - inversion H as [|? ? Hs Hall]; subst.
    destruct (IH Hs) as (H1 & H2 & H3).
    rewrite Forall_forall in Hall.
    repeat split.
    + constructor; [exact H1|].
      rewrite Forall_forall. intros z Hz. apply Hall, in_or_app. left. exact Hz.
    + exact H2.
    + intros a b [<-|Ha] Hb.
      * apply Hall, in_or_app. right. exact Hb.
      * apply H3; assumption.
Qed.

(** Sorting is stable: a list that is already in order comes back as it is. *)
Lemma sort_fold_sorted_id (l acc : list A) :
  StronglySorted le_key (acc ++ l) ->
  fold_left (fun a x => ins x a) l acc = acc ++ l.
Proof.
  revert acc. induction l as [|y l IH]; intros acc H; simpl.
  - rewrite app_nil_r. reflexivity.
  - assert (E : acc ++ y :: l = (acc ++ [y]) ++ l)
      by (rewrite <- app_assoc; reflexivity).
    rewrite insertBy_last.
    + rewrite IH; [symmetry; exact E | rewrite <- E; exact H].
    + rewrite Forall_forall. intros z Hz.
      destruct (sorted_app_inv acc (y :: l) H) as (_ & _ & H3).
      apply H3; [exact Hz | left; reflexivity].
Qed.

Lemma sort_sorted_id (l : list A) : StronglySorted le_key l -> srt l = l.
Proof. intros H. apply (sort_fold_sorted_id l [] H). Qed.

Lemma sort_snoc (cmp : A -> A -> Z) (l : list A) (x : A) :
  JS.sort cmp (l ++ [x]) = JS.insertBy cmp x (JS.sort cmp l).
Proof. unfold JS.sort. rewrite fold_left_app. reflexivity. Qed.

(** The head of the sorted array is the first element of least key. *)
Definition pickEarlier (p c : A) : A := if key c <? key p then c else p.

Lemma sort_fold_hd (d : A) (l : list A) (a : A) (acc : list A) :
  hd d (fold_left (fun s x => ins x s) l (a :: acc)) = fold_left pickEarlier l a.
Proof.
  revert a acc. induction l as [|y l IH]; intros a acc; simpl.
  - reflexivity.
  - unfold ins at 2. simpl. rewrite cmpLt_neg.
    unfold pickEarlier at 2.
    destruct (key y <? key a); apply IH.
Qed.

Lemma sort_hd (d a : A) (l : list A) :
  hd d (srt (a :: l)) = fold_left pickEarlier l a.
Proof. unfold srt, JS.sort. simpl. apply sort_fold_hd. Qed.

(** [fold_left pickEarlier] finds the first element of least key. *)
Lemma pickEarlier_first_min (l : list A) (a : A) :
  exists pre post,
    a :: l = pre ++ fold_left pickEarlier l a :: post /\
    Forall (fun c => key (fold_left pickEarlier l a) < key c) pre /\
    Forall (fun c => key (fold_left pickEarlier l a) <= key c) post.
Proof.
  revert a. induction l as [|y l IH]; intros a; simpl.
  - exists [], []. repeat split; constructor.
  - unfold pickEarlier at 2 4 6. destruct (key y <? key a) eqn:E.
    + destruct (IH y) as (pre & post & Heq & Hpre & Hpost).
      remember (fold_left pickEarlier l y) as m eqn:Hm.
      apply Z.ltb_lt in E.
      assert (Hmy : key m <= key y).
      { destruct pre as [|z pre]; simpl in Heq.
        - injection Heq as Hy _. rewrite <- Hy. lia.
        - injection Heq as Hy _. subst z. inversion Hpre; subst. lia. }
      exists (a :: pre), post. repeat split.
      * simpl. rewrite Heq. reflexivity.
      * constructor; [lia | exact Hpre].
      * exact Hpost.
    + destruct (IH a) as (pre & post & Heq & Hpre & Hpost).
      remember (fold_left pickEarlier l a) as m eqn:Hm.
      apply Z.ltb_ge in E.
      destruct pre as [|z pre]; simpl in Heq.
      * injection Heq as Ha Hl.
        exists [], (y :: post). repeat split.
        -- simpl. rewrite <- Ha, Hl. reflexivity.
        -- constructor.
        -- constructor; [rewrite <- Ha; exact E | exact Hpost].
      * injection Heq as Ha Hl. subst z.
        exists (a :: y :: pre), post. repeat split.
        -- simpl. rewrite Hl. reflexivity.
        -- inversion Hpre; subst. constructor; [assumption|].
           constructor; [lia | assumption].
        -- exact Hpost.
Qed.

(** Over an array in order, the election loop keeps its first element. *)
Lemma pickEarlier_sorted (l : list A) (a : A) :
  Forall (fun c => key a <= key c) l -> fold_left pickEarlier l a = a.
Proof.
  induction 1 as [|y l Hy Hall IH]; simpl.
  - reflexivity.
  - unfold pickEarlier at 2. destruct (key y <? key a) eqn:E.
    + apply Z.ltb_lt in E. lia.
    + exact IH.
Qed.

End SortFacts.

(* ===================================================================== *)
(** * Normalizer: results are never the empty string, and are stable *)
(* ===================================================================== *)

Lemma orUndefined_truthy (s : string) (r : string) :
  JS.orUndefined s = Some r -> JS.nonEmpty r = true.
Proof.
  unfold JS.orUndefined. destruct (JS.nonEmpty s) eqn:E; intros H.
  - injection H as <-. exact E.
  - discriminate.
Qed.

Lemma normalizeEmail_nonEmpty (v : option string) (r : string) :
  normalizeEmail v = Some r -> JS.nonEmpty r = true.
Proof. destruct v; simpl; [apply orUndefined_truthy | discriminate]. Qed.

Lemma normalizePhone_nonEmpty (v : option string) (r : string) :
  normalizePhone v = Some r -> JS.nonEmpty r = true.
Proof. destruct v; simpl; [apply orUndefined_truthy | discriminate]. Qed.

Lemma optOrUndefined_normalizeEmail (v : option string) :
  JS.optOrUndefined (normalizeEmail v) = normalizeEmail v.
Proof.
  unfold JS.optOrUndefined, JS.truthy.
  destruct (normalizeEmail v) as [r|] eqn:E; [|reflexivity].
  rewrite (normalizeEmail_nonEmpty _ E). reflexivity.
Qed.

Lemma optOrUndefined_normalizePhone (v : option string) :
  JS.optOrUndefined (normalizePhone v) = normalizePhone v.
Proof.
  unfold JS.optOrUndefined, JS.truthy.
  destruct (normalizePhone v) as [r|] eqn:E; [|reflexivity].
  rewrite (normalizePhone_nonEmpty _ E). reflexivity.
Qed.

(* ===================================================================== *)
(** * Validation and the retry loop *)
(* ===================================================================== *)

(** C8. When neither the e-mail nor the phone number survives
    normalization (both absent, or both empty once trimmed and stripped),
    [identifyContact] throws the 400 error at once: the store is returned as
    it was and the trace is empty, so no transaction was opened and nothing
    was retried or slept on. *)
Theorem C8_invalid_input_rejected
    (env : Env) (prisma : Store) (input : IdentifyRequest) :
  JS.truthy (normalizeEmail (req_email input)) = false ->
  JS.truthy (normalizePhone (req_phoneNumber input)) = false ->
  identifyContact env prisma input = mkOutcome (inl InvalidInput) prisma [].
Proof.
  intros He Hp. unfold identifyContact, validateInput.
  rewrite He, Hp. reflexivity.
Qed.

Lemma C8_invalid_input_rejected_witness :
  identifyContact (mkEnv (fun _ => Some P2034) (fun _ => 7))
                  (mkStore [mkContact 1 (Some "a@x.com") None primary None 3 None] 2)
                  (mkRequest (Some "  ") (Some "(-) ."))
  = mkOutcome (inl InvalidInput)
              (mkStore [mkContact 1 (Some "a@x.com") None primary None 3 None] 2)
              [].
Proof.
  apply C8_invalid_input_rejected; reflexivity.
Defined.

(** The two rejected calls named in the specification. *)
Example reconcile_nothing_rejected (s : Store) :
  reconcile 0 s (mkRequest None None) = mkOutcome (inl InvalidInput) s [].
Proof. reflexivity. Qed.

Example reconcile_empty_strings_rejected (s : Store) :
  reconcile 0 s (mkRequest (Some "") (Some "")) = mkOutcome (inl InvalidInput) s [].
Proof. reflexivity. Qed.

(** The events of [n] attempts that each ended in a retried conflict. *)
Fixpoint backoff (n : nat) : list Event :=
  match n with
  | O => []
  | S j => backoff j ++ [TransactionOpened (S j); RolledBack;
                         Slept (20 * Z.of_nat (S j))]
  end.

(** A serialization conflict, in the words of the specification: an error
    of the client's known-request kind whose code is P2034. *)
Definition serializationConflict (e : PrismaError) : Prop :=
  knownRequestError e = true /\ code e = "P2034".

Lemma isRetryableConflict_spec (e : PrismaError) :
  isRetryableConflict e = true <-> serializationConflict e.
Proof.
  unfold isRetryableConflict, serializationConflict.
  rewrite andb_true_iff, String.eqb_eq. reflexivity.
Qed.

Lemma not_retryable (e : PrismaError) :
  ~ serializationConflict e -> isRetryableConflict e = false.
Proof.
  intros H. destruct (isRetryableConflict e) eqn:E; [|reflexivity].
  exfalso. apply H, isRetryableConflict_spec, E.
Qed.

(** C9. On a valid input, suppose the first [n < 3] attempts each failed
    with a serialization conflict.  Every one of them was rolled back and
    followed by a pause of 20 ms times its number.  If attempt [n + 1] meets
    no error, the transaction body runs on the untouched store and its result
    is returned.  If it fails with any error that is not a serialization
    conflict (an error of another kind, or a known-request error with another
    code), on whichever attempt, or with a conflict when it is the third
    attempt, that error is thrown to the caller with the store untouched and
    without a further pause or attempt. *)
Theorem C9_retry_policy
    (env : Env) (prisma : Store) (input : IdentifyRequest) (n : nat) :
  validateInput input = true ->
  (n < 3)%nat ->
  (forall j, (1 <= j <= n)%nat ->
             exists e, fault env j = Some e /\ serializationConflict e) ->
  match fault env (S n) with
  | None =>
      identifyContact env prisma input =
      mkOutcome (inr (snd (identifyInTransaction (clock env (S n)) prisma input)))
                (fst (identifyInTransaction (clock env (S n)) prisma input))
                (backoff n ++ [TransactionOpened (S n); Committed])
  | Some e =>
      ~ serializationConflict e \/ S n = 3%nat ->
      identifyContact env prisma input =
      mkOutcome (inl (StoreFailure e)) prisma
                (backoff n ++ [TransactionOpened (S n); RolledBack])
  end.
Proof.
  intros Hv Hn Hconf. unfold identifyContact. rewrite Hv.
  unfold MAX_SERIALIZABLE_RETRIES in *.
  assert (H1 : (1 <= n)%nat ->
               exists e, fault env 1%nat = Some e /\ isRetryableConflict e = true).
  { intros H. destruct (Hconf 1%nat) as (e & He & Hc); [lia|].
    exists e. split; [exact He | apply isRetryableConflict_spec, Hc]. }
  assert (H2 : (2 <= n)%nat ->
               exists e, fault env 2%nat = Some e /\ isRetryableConflict e = true).
  { intros H. destruct (Hconf 2%nat) as (e & He & Hc); [lia|].
    exists e. split; [exact He | apply isRetryableConflict_spec, Hc]. }
  destruct n as [|[|[|n]]]; try lia.
  - (* first attempt *)
    simpl. destruct (fault env 1%nat) as [e|].
    + intros [Hr|Hr]; [|discriminate]. rewrite (not_retryable Hr). reflexivity.
    + destruct (identifyInTransaction (clock env 1%nat) prisma input). reflexivity.
  - (* second attempt *)
    destruct H1 as (e1 & F1 & R1); [lia|].
    simpl. rewrite F1, R1. simpl.
    destruct (fault env 2%nat) as [e|].
    + intros [Hr|Hr]; [|discriminate]. rewrite (not_retryable Hr). reflexivity.
    + destruct (identifyInTransaction (clock env 2%nat) prisma input). reflexivity.
  - (* third attempt *)
    destruct H1 as (e1 & F1 & R1); [lia|].
    destruct H2 as (e2 & F2 & R2); [lia|].
    simpl. rewrite F1, R1. simpl. rewrite F2, R2. simpl.
    destruct (fault env 3%nat) as [e|].
    + intros _. rewrite andb_false_r. reflexivity.
    + destruct (identifyInTransaction (clock env 3%nat) prisma input). reflexivity.
Qed.

(** One conflict, then a unique-constraint violation on the second attempt:
    the violation is thrown at once, after a single pause of 20 ms. *)
Lemma C9_retry_policy_witness :
  identifyContact
    (mkEnv (fun j => if (j <? 2)%nat then Some P2034
                     else Some (mkPrismaError true "P2002"))
           (fun _ => 5))
    emptyStore (mkRequest (Some "a@x.com") None)
  = mkOutcome (inl (StoreFailure (mkPrismaError true "P2002"))) emptyStore
      [TransactionOpened 1; RolledBack; Slept 20;
       TransactionOpened 2; RolledBack].
Proof.
  refine (C9_retry_policy
            (mkEnv (fun j => if (j <? 2)%nat then Some P2034
                             else Some (mkPrismaError true "P2002"))
                   (fun _ => 5))
            emptyStore (mkRequest (Some "a@x.com") None) (n := 1) _ _ _ _).
  - reflexivity.
  - lia.
  - intros j Hj. exists P2034. split; [|split; reflexivity].
    simpl. destruct j as [|[|j]]; try lia; reflexivity.
  - left. intros [_ H]. discriminate H.
Defined.

(** Errors that are not retried, on the first attempt: a known-request error
    with another code, and an error of another kind that happens to carry
    the code P2034. *)
Example other_code_is_not_retried :
  identifyContact (mkEnv (fun _ => Some (mkPrismaError true "P2002")) (fun _ => 5))
                  emptyStore (mkRequest (Some "a@x.com") None)
  = mkOutcome (inl (StoreFailure (mkPrismaError true "P2002"))) emptyStore
              [TransactionOpened 1; RolledBack].
Proof. reflexivity. Qed.

Example other_kind_is_not_retried :
  identifyContact (mkEnv (fun _ => Some (mkPrismaError false "P2034")) (fun _ => 5))
                  emptyStore (mkRequest (Some "a@x.com") None)
  = mkOutcome (inl (StoreFailure (mkPrismaError false "P2034"))) emptyStore
              [TransactionOpened 1; RolledBack].
Proof. reflexivity. Qed.

(** Three conflicts in a row: the third is thrown, after pauses of 20 ms and
    40 ms. *)
Example third_conflict_is_thrown :
  identifyContact (mkEnv (fun _ => Some P2034) (fun _ => 5))
                  emptyStore (mkRequest (Some "a@x.com") None)
  = mkOutcome (inl (StoreFailure P2034)) emptyStore
      [TransactionOpened 1; RolledBack; Slept 20;
       TransactionOpened 2; RolledBack; Slept 40;
       TransactionOpened 3; RolledBack].
Proof. reflexivity. Qed.

(* ===================================================================== *)
(** * Primary arbiter: who is elected *)
(* ===================================================================== *)

Lemma electPrimary_pickEarlier (first : Contact) (group : list Contact) :
  electPrimary first group = fold_left (pickEarlier createdAt) group first.
Proof. reflexivity. Qed.

(** Over the sorted group the election loop returns [group[0]], which is the
    first row of least [createdAt] in the order the group was assembled. *)
Lemma elected_is_first_min (c0 : Contact) (rest : list Contact) :
  let group := JS.sort (JS.cmpLt createdAt) (c0 :: rest) in
  electPrimary (hd c0 group) group = fold_left (pickEarlier createdAt) rest c0.
Proof.
  intros group.
  assert (Hs : StronglySorted (fun a b => createdAt a <= createdAt b) group)
    by apply sort_sorted.
  assert (Hhd : hd c0 group = fold_left (pickEarlier createdAt) rest c0)
    by apply sort_hd.
  rewrite electPrimary_pickEarlier.
  destruct group as [|g0 gs] eqn:Eg.
  - apply sort_nil_inv in Eg. discriminate.
  - simpl in *. subst g0. unfold pickEarlier at 2. rewrite Z.ltb_irrefl.
    inversion Hs; subst. apply pickEarlier_sorted. assumption.
Qed.


(** Two primaries created at the same clock reading, and a later secondary
    of the first one. *)
Definition tieStore : Store :=
  run [(0, req "e1" ""); (0, req "e2" ""); (5, req "e1" "p")] emptyStore.

Definition tieB : Contact := mkContact 2 (Some "e2") None primary None 0 None.
Definition tieS : Contact := mkContact 3 (Some "e1") (Some "p") secondary (Some 1) 5 None.



(* ===================================================================== *)
(** * Cluster resolver: the expansion loop *)
(* ===================================================================== *)

Lemma expandGroup_step (tx : Store) (group : list Contact) (groupIds : list Z) :
  expandGroup tx group groupIds =
  match findMany (expansionQuery group groupIds) tx with
  | [] => group
  | next => expandGroup tx (group ++ next) (groupIds ++ map id next)
  end.
Proof.
  rewrite expandGroup_equation_1. unfold expandGroup_clause_1. simpl.
  destruct (findMany (expansionQuery group groupIds) tx); reflexivity.
Qed.

(** One round of the loop, with [groupIds] kept equal to the ids of
    [group] as the source does. *)
Definition nextRound (tx : Store) (group : list Contact) : list Contact :=
  findMany (expansionQuery group (map id group)) tx.

Definition expandRound (tx : Store) (group : list Contact) : list Contact :=
  group ++ nextRound tx group.

(** The loop is a finite iteration of rounds ending in an empty round. *)
Lemma expandGroup_rounds (tx : Store) (group : list Contact) :
  exists n : nat,
    (n <= outside tx (map id group))%nat /\
    expandGroup tx group (map id group) = Nat.iter n (expandRound tx) group /\
    nextRound tx (Nat.iter n (expandRound tx) group) = [].
Proof.
  remember (outside tx (map id group)) as m eqn:Hm.
  revert group Hm.
  induction m as [m IH] using lt_wf_ind. intros group Hm.
  rewrite expandGroup_step.
  destruct (findMany (expansionQuery group (map id group)) tx) as [|c next] eqn:Hq.
  - exists O. simpl. repeat split; [lia | exact Hq].
  - pose proof (outside_decreases _ _ _ Hq) as Hdec.
    assert (Hids : map id group ++ map id (c :: next) = map id (group ++ c :: next))
      by (symmetry; apply map_app).
    rewrite Hids in *.
    destruct (IH _ ltac:(rewrite Hm; exact Hdec) (group ++ c :: next) eq_refl)
      as (n & Hn & Heq & Hend).
    assert (Hstep : group ++ c :: next = expandRound tx group)
      by (unfold expandRound, nextRound; rewrite Hq; reflexivity).
    exists (S n). rewrite Nat.iter_succ_r, <- Hstep.
    repeat split; [lia | | exact Hend].
    rewrite <- Heq. f_equal. rewrite map_app. reflexivity.
Qed.

Lemma iter_invariant (A : Type) (f : A -> A) (P : A -> Prop) (n : nat) (a : A) :
  P a -> (forall x, P x -> P (f x)) -> P (Nat.iter n f a).
Proof. intros Ha Hf. induction n; simpl; auto. Qed.

(** Any property kept by a round holds of the loop's result. *)
Lemma expandGroup_invariant (tx : Store) (P : list Contact -> Prop)
    (group : list Contact) :
  P group -> (forall g, P g -> P (expandRound tx g)) ->
  P (expandGroup tx group (map id group)).
Proof.
  intros Hg Hstep.
  destruct (expandGroup_rounds tx group) as (n & _ & -> & _).
  apply iter_invariant; assumption.
Qed.

Lemma expandGroup_closed (tx : Store) (group : list Contact) :
  nextRound tx (expandGroup tx group (map id group)) = [].
Proof.
  destruct (expandGroup_rounds tx group) as (n & _ & -> & H). exact H.
Qed.

(* ===================================================================== *)
(** * Normalizing twice is normalizing once *)
(* ===================================================================== *)

Lemma lowerChar_idempotent (c : ascii) :
  JS.lowerChar (JS.lowerChar c) = JS.lowerChar c.
Proof. destruct c as [[] [] [] [] [] [] [] []]; reflexivity. Qed.

Lemma isSpace_lowerChar (c : ascii) : JS.isSpace (JS.lowerChar c) = JS.isSpace c.
Proof. destruct c as [[] [] [] [] [] [] [] []]; reflexivity. Qed.

Lemma toLowerCase_idempotent (s : string) :
  JS.toLowerCase (JS.toLowerCase s) = JS.toLowerCase s.
Proof.
  induction s as [|c s IH]; simpl; [reflexivity|].
  rewrite lowerChar_idempotent, IH. reflexivity.
Qed.

Lemma toLowerCase_trimStart (s : string) :
  JS.toLowerCase (JS.trimStart s) = JS.trimStart (JS.toLowerCase s).
Proof.
  induction s as [|c s IH]; simpl; [reflexivity|].
  rewrite isSpace_lowerChar. destruct (JS.isSpace c); [exact IH | reflexivity].
Qed.

Lemma toLowerCase_trimEnd (s : string) :
  JS.toLowerCase (JS.trimEnd s) = JS.trimEnd (JS.toLowerCase s).
Proof.
  induction s as [|c s IH]; simpl; [reflexivity|].
  rewrite <- IH, isSpace_lowerChar.
  destruct (JS.trimEnd s) as [|c' s']; simpl.
  - destruct (JS.isSpace c); reflexivity.
  - reflexivity.
Qed.

Lemma trimEnd_idempotent (s : string) : JS.trimEnd (JS.trimEnd s) = JS.trimEnd s.
Proof.
  induction s as [|c s IH]; simpl; [reflexivity|].
  destruct (JS.trimEnd s) as [|c' s'] eqn:E.
  - destruct (JS.isSpace c) eqn:Ec; simpl; [reflexivity|].
    rewrite Ec. reflexivity.
  - simpl in *. rewrite IH. reflexivity.
Qed.

(** A string that does not begin with white space. *)
Definition startsClean (s : string) : bool :=
  match s with
  | EmptyString => true
  | String c _ => negb (JS.isSpace c)
  end.

Lemma trimStart_startsClean (s : string) : startsClean (JS.trimStart s) = true.
Proof.
  induction s as [|c s IH]; simpl; [reflexivity|].
  destruct (JS.isSpace c) eqn:E; [exact IH|]. simpl. rewrite E. reflexivity.
Qed.

Lemma trimStart_clean (s : string) : startsClean s = true -> JS.trimStart s = s.
Proof.
  destruct s as [|c s]; simpl; [reflexivity|].
  intros H. apply negb_true_iff in H. rewrite H. reflexivity.
Qed.

Lemma trimEnd_startsClean (s : string) :
  startsClean s = true -> startsClean (JS.trimEnd s) = true.
Proof.
  destruct s as [|c s]; simpl; [reflexivity|].
  intros H. destruct (JS.trimEnd s).
  - apply negb_true_iff in H. rewrite H. simpl. rewrite H. reflexivity.
  - exact H.
Qed.

Lemma trim_idempotent (s : string) : JS.trim (JS.trim s) = JS.trim s.
Proof.
  unfold JS.trim.
  rewrite (trimStart_clean (JS.trimEnd (JS.trimStart s))).
  - apply trimEnd_idempotent.
  - apply trimEnd_startsClean, trimStart_startsClean.
Qed.

Lemma toLowerCase_trim (s : string) :
  JS.toLowerCase (JS.trim s) = JS.trim (JS.toLowerCase s).
Proof. unfold JS.trim. rewrite toLowerCase_trimEnd, toLowerCase_trimStart. reflexivity. Qed.

Lemma normalizeEmail_idempotent (v : option string) :
  normalizeEmail (normalizeEmail v) = normalizeEmail v.
Proof.
  destruct v as [v|]; [|reflexivity]. simpl.
  unfold JS.orUndefined.
  destruct (JS.nonEmpty (JS.trim (JS.toLowerCase v))) eqn:E; [|reflexivity].
  simpl. rewrite toLowerCase_trim, toLowerCase_idempotent, trim_idempotent.
  unfold JS.orUndefined. rewrite E. reflexivity.
Qed.

(** Strings all of whose characters satisfy [p]. *)
Fixpoint allChars (p : ascii -> bool) (s : string) : bool :=
  match s with
  | EmptyString => true
  | String c r => p c && allChars p r
  end.

Lemma removeAll_clean (cls : ascii -> bool) (s : string) :
  allChars (fun c => negb (cls c)) (JS.removeAll cls s) = true.
Proof.
  induction s as [|c s IH]; simpl; [reflexivity|].
  destruct (cls c) eqn:E; [exact IH|]. simpl. rewrite E, IH. reflexivity.
Qed.

Lemma removeAll_of_clean (cls : ascii -> bool) (s : string) :
  allChars (fun c => negb (cls c)) s = true -> JS.removeAll cls s = s.
Proof.
  induction s as [|c s IH]; simpl; [reflexivity|].
  intros H. apply andb_prop in H. destruct H as [Hc Hs].
  apply negb_true_iff in Hc. rewrite Hc, (IH Hs). reflexivity.
Qed.

Lemma phoneNoise_covers_space (c : ascii) :
  negb (phoneNoise c) = true -> JS.isSpace c = false.
Proof.
  unfold phoneNoise. destruct (JS.isSpace c); simpl; [discriminate | reflexivity].
Qed.

Lemma trimEnd_of_clean (s : string) :
  allChars (fun c => negb (phoneNoise c)) s = true -> JS.trimEnd s = s.
Proof.
  induction s as [|c s IH]; simpl; [reflexivity|].
  intros H. apply andb_prop in H. destruct H as [Hc Hs].
  rewrite (IH Hs). rewrite (phoneNoise_covers_space _ Hc).
  destruct s; reflexivity.
Qed.

Lemma trim_of_clean (s : string) :
  allChars (fun c => negb (phoneNoise c)) s = true -> JS.trim s = s.
Proof.
  intros H. unfold JS.trim.
  assert (Hs : JS.trimStart s = s).
  { destruct s as [|c s]; simpl in *; [reflexivity|].
    apply andb_prop in H. destruct H as [Hc _].
    rewrite (phoneNoise_covers_space _ Hc). reflexivity. }
  rewrite Hs. apply trimEnd_of_clean, H.
Qed.

Lemma normalizePhone_idempotent (v : option string) :
  normalizePhone (normalizePhone v) = normalizePhone v.
Proof.
  destruct v as [v|]; [|reflexivity]. simpl.
  pose proof (removeAll_clean phoneNoise v) as Hclean.
  rewrite (trim_of_clean _ Hclean).
  unfold JS.orUndefined.
  destruct (JS.nonEmpty (JS.removeAll phoneNoise v)) eqn:E; [|reflexivity].
  simpl. rewrite (removeAll_of_clean _ _ Hclean), (trim_of_clean _ Hclean).
  unfold JS.orUndefined. rewrite E. reflexivity.
Qed.

(* ===================================================================== *)
(** * Queries, row by row *)
(* ===================================================================== *)

Lemma hasStr_In (x : string) (l : list string) : JS.hasStr x l = true <-> In x l.
Proof.
  unfold JS.hasStr. rewrite existsb_exists. split.
  - intros [y [Hy E]]. apply String.eqb_eq in E. subst. exact Hy.
  - intros H. exists x. split; [exact H | apply String.eqb_refl].
Qed.

Lemma hasStr_false (x : string) (l : list string) :
  JS.hasStr x l = false <-> ~ In x l.
Proof.
  rewrite <- hasStr_In. destruct (JS.hasStr x l); split; intros H;
    try reflexivity; try discriminate; try (intros ?; discriminate).
  exfalso. apply H. reflexivity.
Qed.

Lemma hasNum_false (x : Z) (l : list Z) : JS.hasNum x l = false <-> ~ In x l.
Proof.
  rewrite <- hasNum_In. destruct (JS.hasNum x l); split; intros H;
    try reflexivity; try discriminate; try (intros ?; discriminate).
  exfalso. apply H. reflexivity.
Qed.

Lemma ifTruthy_In (v : option string) (e : string) :
  In e (JS.ifTruthy v) <-> v = Some e /\ JS.nonEmpty e = true.
Proof.
  unfold JS.ifTruthy. destruct v as [s|]; simpl.
  - destruct (JS.nonEmpty s) eqn:E; simpl.
    + split.
      * intros [<-|[]]. split; [reflexivity | exact E].
      * intros [H _]. injection H as ->. left. reflexivity.
    + split; [intros [] | intros [H H']; injection H as ->; congruence].
  - split; [intros [] | intros [H _]; discriminate].
Qed.

Lemma findMany_In (w : WhereInput) (tx : Store) (c : Contact) :
  In c (findMany w tx) <-> In c (rows tx) /\ w c = true.
Proof.
  unfold findMany, orderByCreatedAt. rewrite sort_In, filter_In. reflexivity.
Qed.

Lemma findMany_nil (w : WhereInput) (tx : Store) :
  findMany w tx = [] <-> forall c, In c (rows tx) -> w c = false.
Proof.
  split.
  - intros H c Hc. destruct (w c) eqn:E; [|reflexivity].
    assert (Hin : In c (findMany w tx)) by (apply findMany_In; auto).
    rewrite H in Hin. destruct Hin.
  - intros H. destruct (findMany w tx) as [|c l] eqn:E; [reflexivity|].
    assert (Hin : In c (findMany w tx)) by (rewrite E; left; reflexivity).
    apply findMany_In in Hin. destruct Hin as [Hin Hw].
    rewrite (H _ Hin) in Hw. discriminate.
Qed.

Lemma findMany_perm (w : WhereInput) (tx : Store) :
  Permutation (findMany w tx) (filter w (rows tx)).
Proof. apply sort_perm. Qed.

(* ===================================================================== *)
(** * The graph of shared values *)
(* ===================================================================== *)

(** A row that resolution can see. *)
Definition live (tx : Store) (c : Contact) : Prop :=
  In c (rows tx) /\ notDeleted c = true.

(** Two rows carry the same stored e-mail (phone number); an empty string
    links nothing. *)
Definition sharesEmail (a b : Contact) : Prop :=
  exists e, JS.nonEmpty e = true /\ email a = Some e /\ email b = Some e.

Definition sharesPhone (a b : Contact) : Prop :=
  exists p, JS.nonEmpty p = true /\ phoneNumber a = Some p /\ phoneNumber b = Some p.

Definition adjacent (a b : Contact) : Prop := sharesEmail a b \/ sharesPhone a b.

(** The same, on the normalized forms of the stored values. *)
Definition sharesNormalizedEmail (a b : Contact) : Prop :=
  exists e, normalizeEmail (email a) = Some e /\ normalizeEmail (email b) = Some e.

Definition sharesNormalizedPhone (a b : Contact) : Prop :=
  exists p, normalizePhone (phoneNumber a) = Some p /\
            normalizePhone (phoneNumber b) = Some p.

Definition adjacentNormalized (a b : Contact) : Prop :=
  sharesNormalizedEmail a b \/ sharesNormalizedPhone a b.

(** Rows reachable from [seeds] through live rows, one shared value at a
    time. *)
Inductive reachableFrom (adj : Contact -> Contact -> Prop) (tx : Store)
    (seeds : list Contact) : Contact -> Prop :=
| reach_seed : forall c, In c seeds -> reachableFrom adj tx seeds c
| reach_step : forall a b,
    reachableFrom adj tx seeds a -> live tx b -> adj a b ->
    reachableFrom adj tx seeds b.

(** Data-model conditions on a store: identifiers are unique, and stored
    values are in normal form. *)
Definition uniqueIds (tx : Store) : Prop := NoDup (map id (rows tx)).

Definition normalizedStore (tx : Store) : Prop :=
  forall c, In c (rows tx) ->
    normalizeEmail (email c) = email c /\
    normalizePhone (phoneNumber c) = phoneNumber c.

Lemma adjacent_sym (a b : Contact) : adjacent a b -> adjacent b a.
Proof.
  intros [(e & H1 & H2 & H3)|(p & H1 & H2 & H3)]; [left|right];
    eexists; repeat split; eassumption.
Qed.

Lemma adjacent_normalized (tx : Store) (a b : Contact) :
  normalizedStore tx -> In a (rows tx) -> In b (rows tx) ->
  (adjacent a b <-> adjacentNormalized a b).
Proof.
  intros Hn Ha Hb.
  destruct (Hn a Ha) as [Ea Pa]. destruct (Hn b Hb) as [Eb Pb].
  unfold adjacent, adjacentNormalized, sharesEmail, sharesPhone,
    sharesNormalizedEmail, sharesNormalizedPhone.
  rewrite Ea, Eb, Pa, Pb. split.
  - intros [(e & _ & H2 & H3)|(p & _ & H2 & H3)]; [left|right];
      eexists; split; eassumption.
  - intros [(e & H2 & H3)|(p & H2 & H3)]; [left|right]; eexists; repeat split;
      try eassumption.
    + rewrite <- Ea in H2. apply (normalizeEmail_nonEmpty _ H2).
    + rewrite <- Pa in H2. apply (normalizePhone_nonEmpty _ H2).
Qed.

Lemma unique_row (tx : Store) (a b : Contact) :
  uniqueIds tx -> In a (rows tx) -> In b (rows tx) -> id a = id b -> a = b.
Proof.
  unfold uniqueIds. induction (rows tx) as [|r l IH]; simpl; intros Hu Ha Hb E.
  - contradiction.
  - inversion Hu as [|? ? Hnot Hl]; subst.
    destruct Ha as [->|Ha], Hb as [->|Hb].
    + reflexivity.
    + exfalso. apply Hnot. rewrite E. apply in_map, Hb.
    + exfalso. apply Hnot. rewrite <- E. apply in_map, Ha.
    + apply IH; assumption.
Qed.

Lemma groupEmails_In (g : list Contact) (e : string) :
  In e (groupEmails g) <->
  exists a, In a g /\ email a = Some e /\ JS.nonEmpty e = true.
Proof.
  unfold groupEmails. rewrite in_flat_map. split.
  - intros (a & Ha & He). apply ifTruthy_In in He. exists a. tauto.
  - intros (a & Ha & He). exists a. split; [exact Ha | apply ifTruthy_In, He].
Qed.

Lemma groupPhones_In (g : list Contact) (p : string) :
  In p (groupPhones g) <->
  exists a, In a g /\ phoneNumber a = Some p /\ JS.nonEmpty p = true.
Proof.
  unfold groupPhones. rewrite in_flat_map. split.
  - intros (a & Ha & He). apply ifTruthy_In in He. exists a. tauto.
  - intros (a & Ha & He). exists a. split; [exact Ha | apply ifTruthy_In, He].
Qed.

Lemma emailIn_spec (g : list Contact) (c : Contact) :
  emailIn (groupEmails g) c = true <-> exists a, In a g /\ sharesEmail a c.
Proof.
  unfold emailIn, sharesEmail. destruct (email c) as [x|].
  - rewrite hasStr_In, groupEmails_In. split.
    + intros (a & Ha & He & Hx). exists a. split; [exact Ha|]. exists x. auto.
    + intros (a & Ha & e & Hx & He & Hc). injection Hc as <-. exists a. auto.
  - split; [discriminate|]. intros (a & _ & e & _ & _ & Hc). discriminate.
Qed.

Lemma phoneIn_spec (g : list Contact) (c : Contact) :
  phoneIn (groupPhones g) c = true <-> exists a, In a g /\ sharesPhone a c.
Proof.
  unfold phoneIn, sharesPhone. destruct (phoneNumber c) as [x|].
  - rewrite hasStr_In, groupPhones_In. split.
    + intros (a & Ha & He & Hx). exists a. split; [exact Ha|]. exists x. auto.
    + intros (a & Ha & e & Hx & He & Hc). injection Hc as <-. exists a. auto.
  - split; [discriminate|]. intros (a & _ & e & _ & _ & Hc). discriminate.
Qed.

(** Leaving a condition out when its set is empty changes nothing: the
    condition would match no row. *)
Lemma expansionConditions_eval (g : list Contact) (c : Contact) :
  whereOR (expansionConditions g) c =
  emailIn (groupEmails g) c || phoneIn (groupPhones g) c.
Proof.
  unfold whereOR, expansionConditions. rewrite existsb_app. f_equal.
  - destruct (groupEmails g); simpl.
    + unfold emailIn. destruct (email c); reflexivity.
    + apply orb_false_r.
  - destruct (groupPhones g); simpl.
    + unfold phoneIn. destruct (phoneNumber c); reflexivity.
    + apply orb_false_r.
Qed.

(** An expansion round asks for the rows adjacent to some member. *)
Lemma expansionConditions_spec (g : list Contact) (c : Contact) :
  whereOR (expansionConditions g) c = true <-> exists a, In a g /\ adjacent a c.
Proof.
  rewrite expansionConditions_eval, orb_true_iff, emailIn_spec, phoneIn_spec.
  unfold adjacent. split.
  - intros [(a & Ha & H)|(a & Ha & H)]; exists a; auto.
  - intros (a & Ha & [H|H]); [left|right]; exists a; auto.
Qed.

Lemma nextRound_In (tx : Store) (g : list Contact) (c : Contact) :
  In c (nextRound tx g) <->
  live tx c /\ ~ In (id c) (map id g) /\ exists a, In a g /\ adjacent a c.
Proof.
  unfold nextRound. rewrite findMany_In. unfold expansionQuery, live.
  rewrite !andb_true_iff, expansionConditions_spec.
  unfold idNotIn. rewrite negb_true_iff, hasNum_false. tauto.
Qed.

(** Selecting rows keeps their identifiers distinct. *)
Lemma filter_ids_nodup (w : WhereInput) (table : list Contact) :
  NoDup (map id table) -> NoDup (map id (filter w table)).
Proof.
  intros Hu. induction table as [|r table IH]; simpl; [constructor|].
  apply NoDup_cons_iff in Hu. destruct Hu as [Hr Hu].
  destruct (w r); simpl; [|exact (IH Hu)].
  apply NoDup_cons_iff. split; [|exact (IH Hu)].
  rewrite in_map_iff. intros (c & Hid & Hc).
  apply Hr. rewrite <- Hid. apply in_map. apply filter_In in Hc. tauto.
Qed.

Lemma findMany_ids_nodup (w : WhereInput) (tx : Store) :
  uniqueIds tx -> NoDup (map id (findMany w tx)).
Proof.
  intros Hu. eapply Permutation_NoDup;
    [apply Permutation_sym, Permutation_map, findMany_perm|].
  apply filter_ids_nodup, Hu.
Qed.

Section Resolver.
Variable tx : Store.
Variable seeds : list Contact.
Hypothesis seeds_live : Forall (live tx) seeds.

Let group := expandGroup tx seeds (map id seeds).

Lemma group_prefix : exists later, group = seeds ++ later.
Proof.
  unfold group.
  apply (expandGroup_invariant tx (fun g => exists later, g = seeds ++ later)).
  - exists []. rewrite app_nil_r. reflexivity.
  - intros g [later ->]. exists (later ++ nextRound tx (seeds ++ later)).
    unfold expandRound. rewrite app_assoc. reflexivity.
Qed.

Lemma group_live : Forall (live tx) group.
Proof.
  unfold group. apply (expandGroup_invariant tx (Forall (live tx))).
  - exact seeds_live.
  - intros g Hg. unfold expandRound. apply Forall_app. split; [exact Hg|].
    rewrite Forall_forall. intros c Hc. apply nextRound_In in Hc. tauto.
Qed.

Lemma group_sound (c : Contact) :
  In c group -> reachableFrom adjacent tx seeds c.
Proof.
  revert c. unfold group.
  apply (expandGroup_invariant tx
           (fun g => forall c, In c g -> reachableFrom adjacent tx seeds c)).
  - intros c Hc. apply reach_seed, Hc.
  - intros g Hg c Hc. unfold expandRound in Hc. apply in_app_or in Hc.
    destruct Hc as [Hc|Hc]; [apply Hg, Hc|].
    apply nextRound_In in Hc. destruct Hc as (Hl & _ & a & Ha & Hadj).
    apply reach_step with (a := a); auto.
Qed.

Hypothesis unique : uniqueIds tx.

Lemma group_closed (a b : Contact) :
  In a group -> live tx b -> adjacent a b -> In b group.
Proof.
  intros Ha Hb Hadj.
  destruct (JS.hasNum (id b) (map id group)) eqn:E.
  - apply hasNum_In, in_map_iff in E. destruct E as (c & Hid & Hc).
    assert (c = b).
    { apply (@unique_row tx); auto; [|apply Hb].
      pose proof group_live as Hl. rewrite Forall_forall in Hl. apply Hl, Hc. }
    subst. exact Hc.
  - apply hasNum_false in E.
    assert (Hin : In b (nextRound tx group)).
    { apply nextRound_In. repeat split; try apply Hb; [exact E|].
      exists a. auto. }
    unfold group in Hin. rewrite expandGroup_closed in Hin. destruct Hin.
Qed.

Lemma group_complete (c : Contact) :
  reachableFrom adjacent tx seeds c -> In c group.
Proof.
  induction 1 as [c Hc|a b _ IH Hb Hadj].
  - destruct group_prefix as [later ->]. apply in_or_app. left. exact Hc.
  - eapply group_closed; eassumption.
Qed.

Hypothesis seeds_nodup : NoDup (map id seeds).

Lemma group_ids_nodup : NoDup (map id group).
Proof.
  unfold group.
  apply (expandGroup_invariant tx (fun g => NoDup (map id g))).
  - exact seeds_nodup.
  - intros g Hg. unfold expandRound. rewrite map_app.
    assert (Hnext : NoDup (map id (nextRound tx g)))
      by (apply findMany_ids_nodup, unique).
    apply NoDup_app; [exact Hg | exact Hnext |].
    intros i Hi Hin. apply in_map_iff in Hin. destruct Hin as (c & Hc & Hin).
    apply nextRound_In in Hin. destruct Hin as (_ & Hnot & _).
    apply Hnot. rewrite Hc. exact Hi.
Qed.

End Resolver.

(** ** The seed query *)

Definition matchesSeed (email_ phoneNumber_ : option string) (c : Contact) : Prop :=
  (exists e, email_ = Some e /\ JS.nonEmpty e = true /\ email c = Some e) \/
  (exists p, phoneNumber_ = Some p /\ JS.nonEmpty p = true /\ phoneNumber c = Some p).

Lemma seedConditions_spec (email_ phoneNumber_ : option string) (c : Contact) :
  whereOR (seedConditions email_ phoneNumber_) c = true <->
  matchesSeed email_ phoneNumber_ c.
Proof.
  unfold whereOR, seedConditions, matchesSeed.
  rewrite existsb_app, orb_true_iff.
  assert (HE : existsb (fun p => p c)
                 match email_ with
                 | Some e => if JS.nonEmpty e then [emailEquals e] else []
                 | None => []
                 end = true <->
               exists e, email_ = Some e /\ JS.nonEmpty e = true /\ email c = Some e).
  { destruct email_ as [e|]; simpl.
    - destruct (JS.nonEmpty e) eqn:E; simpl.
      + rewrite orb_false_r. unfold emailEquals. destruct (email c) as [x|].
        * rewrite String.eqb_eq. split.
          -- intros ->. exists e. auto.
          -- intros (e' & H1 & _ & H2). congruence.
        * split; [discriminate|]. intros (e' & _ & _ & H). discriminate.
      + split; [discriminate|]. intros (e' & H1 & H2 & _). congruence.
    - split; [discriminate|]. intros (e' & H & _). discriminate. }
  assert (HP : existsb (fun p => p c)
                 match phoneNumber_ with
                 | Some p => if JS.nonEmpty p then [phoneEquals p] else []
                 | None => []
                 end = true <->
               exists p, phoneNumber_ = Some p /\ JS.nonEmpty p = true
                         /\ phoneNumber c = Some p).
  { destruct phoneNumber_ as [e|]; simpl.
    - destruct (JS.nonEmpty e) eqn:E; simpl.
      + rewrite orb_false_r. unfold phoneEquals. destruct (phoneNumber c) as [x|].
        * rewrite String.eqb_eq. split.
          -- intros ->. exists e. auto.
          -- intros (e' & H1 & _ & H2). congruence.
        * split; [discriminate|]. intros (e' & _ & _ & H). discriminate.
      + split; [discriminate|]. intros (e' & H1 & H2 & _). congruence.
    - split; [discriminate|]. intros (e' & H & _). discriminate. }
  rewrite HE, HP. reflexivity.
Qed.

Lemma directMatches_In (tx : Store) (email_ phoneNumber_ : option string)
    (c : Contact) :
  In c (directMatchesOf tx email_ phoneNumber_) <->
  live tx c /\ matchesSeed email_ phoneNumber_ c.
Proof.
  unfold directMatchesOf, seedQuery.
  rewrite findMany_In, andb_true_iff, seedConditions_spec.
  unfold live. tauto.
Qed.

Lemma directMatches_live (tx : Store) (email_ phoneNumber_ : option string) :
  Forall (live tx) (directMatchesOf tx email_ phoneNumber_).
Proof.
  rewrite Forall_forall. intros c Hc. apply directMatches_In in Hc. tauto.
Qed.

Lemma reachable_normalized (tx : Store) (seeds : list Contact) (c : Contact) :
  normalizedStore tx -> Forall (live tx) seeds ->
  (reachableFrom adjacent tx seeds c <-> reachableFrom adjacentNormalized tx seeds c).
Proof.
  intros Hn Hs. rewrite Forall_forall in Hs.
  assert (Hrows : forall adj x, reachableFrom adj tx seeds x -> In x (rows tx)).
  { intros adj x Hx. destruct Hx as [x Hx|a b _ Hb _]; [apply Hs, Hx | apply Hb]. }
  split; induction 1 as [x Hx|a b Ha IH Hb Hadj].
  - apply reach_seed, Hx.
  - apply reach_step with (a := a); auto.
    apply (@adjacent_normalized tx a b); eauto. apply Hb.
  - apply reach_seed, Hx.
  - apply reach_step with (a := a); auto.
    apply (@adjacent_normalized tx a b); eauto. apply Hb.
Qed.

Lemma outside_le (tx : Store) (ids : list Z) :
  (outside tx ids <= List.length (rows tx))%nat.
Proof. unfold outside. apply filter_length_le. Qed.

(** C1. Let the seed query for a normalized e-mail and/or phone number
    match at least one row of a store with unique identifiers.  The group
    built by the expansion loop holds exactly the non-deleted rows reachable
    from the seed matches through shared stored e-mails and phone numbers,
    each once; over a store whose values are in normal form this is
    reachability through shared normalized values.  The loop runs a number
    of rounds bounded by the size of the table and stops at a fixpoint: one
    more round adds nothing. *)
Theorem C1_group_is_connected_component
    (tx : Store) (email_ phoneNumber_ : option string)
    (d : Contact) (ds : list Contact) :
  uniqueIds tx ->
  directMatchesOf tx email_ phoneNumber_ = d :: ds ->
  let seeds := d :: ds in
  let group := expandGroup tx seeds (map id seeds) in
  (forall c, In c group <-> reachableFrom adjacent tx seeds c) /\
  (normalizedStore tx ->
   forall c, In c group <-> reachableFrom adjacentNormalized tx seeds c) /\
  Forall (live tx) group /\
  NoDup group /\
  exists n : nat,
    (n <= List.length (rows tx))%nat /\
    group = Nat.iter n (expandRound tx) seeds /\
    expandRound tx group = group.
Proof.
  intros Hu Hd seeds group.
  assert (Hlive : Forall (live tx) seeds)
    by (unfold seeds; rewrite <- Hd; apply directMatches_live).
  assert (Hnd : NoDup (map id seeds))
    by (unfold seeds; rewrite <- Hd; apply findMany_ids_nodup, Hu).
  assert (Hiff : forall c, In c group <-> reachableFrom adjacent tx seeds c).
  { intros c. split; [apply group_sound | apply group_complete]; assumption. }
  split; [exact Hiff|]. split; [|split; [|split]].
  - intros Hn c. rewrite Hiff. apply reachable_normalized; assumption.
  - apply group_live, Hlive.
  - apply NoDup_map_inv with (f := id). apply group_ids_nodup; assumption.
  - destruct (expandGroup_rounds tx seeds) as (n & Hn & Heq & Hend).
    exists n. split; [|split].
    + pose proof (outside_le tx (map id seeds)). lia.
    + exact Heq.
    + unfold expandRound. unfold group. rewrite Heq, Hend. apply app_nil_r.
Qed.

Lemma C1_group_is_connected_component_witness :
  let seeds := [tieB; tieS] in
  let group := expandGroup tieStore seeds (map id seeds) in
  (forall c, In c group <-> reachableFrom adjacent tieStore seeds c) /\
  (normalizedStore tieStore ->
   forall c, In c group <-> reachableFrom adjacentNormalized tieStore seeds c) /\
  Forall (live tieStore) group /\
  NoDup group /\
  exists n : nat,
    (n <= List.length (rows tieStore))%nat /\
    group = Nat.iter n (expandRound tieStore) seeds /\
    expandRound tieStore group = group.
Proof.
  apply (@C1_group_is_connected_component tieStore (Some "e2") (Some "p")).
  - unfold uniqueIds. vm_compute.
    repeat constructor; simpl; intuition discriminate.
  - vm_compute. reflexivity.
Defined.

(* ===================================================================== *)
(** * The transaction body, stage by stage *)
(* ===================================================================== *)

(** The contact elected for the direct matches [d :: ds]. *)
Definition electedOf (tx : Store) (d : Contact) (ds : list Contact) : Contact :=
  let group := resolveGroup tx (d :: ds) in
  electPrimary (hd d group) group.

(** The store after the arbiter's batched update. *)
Definition afterDemotion (tx : Store) (d : Contact) (ds : list Contact) : Store :=
  let group := resolveGroup tx (d :: ds) in
  let elected := electedOf tx d ds in
  demoteOthers elected (otherPrimariesOf elected group) tx.

(** The row the secondary writer inserts. *)
Definition newSecondary (now : Z) (tx : Store) (email_ phoneNumber_ : option string)
    (elected : Contact) : Contact :=
  mkContact (nextId tx) email_ phoneNumber_ secondary (Some (id elected)) now None.

(** The store after the secondary writer. *)
Definition afterWrite (now : Z) (tx : Store) (email_ phoneNumber_ : option string)
    (d : Contact) (ds : list Contact) : Store :=
  let elected := electedOf tx d ds in
  let tx1 := afterDemotion tx d ds in
  if shouldCreateSecondary email_ phoneNumber_ (findMany (rootedAt (id elected)) tx1)
  then snd (create now email_ phoneNumber_ secondary (Some (id elected)) tx1)
  else tx1.

Lemma identifyInTransaction_matched (now : Z) (tx : Store) (input : IdentifyRequest)
    (d : Contact) (ds : list Contact) :
  let email_ := normalizeEmail (req_email input) in
  let phoneNumber_ := normalizePhone (req_phoneNumber input) in
  directMatchesOf tx email_ phoneNumber_ = d :: ds ->
  identifyInTransaction now tx input =
  (afterWrite now tx email_ phoneNumber_ d ds,
   project (electedOf tx d ds) (afterWrite now tx email_ phoneNumber_ d ds)).
Proof.
  intros email_ phoneNumber_ Hd. unfold identifyInTransaction.
  rewrite optOrUndefined_normalizeEmail, optOrUndefined_normalizePhone.
  fold email_ phoneNumber_. rewrite Hd. reflexivity.
Qed.

Lemma identifyInTransaction_unmatched (now : Z) (tx : Store) (input : IdentifyRequest) :
  let email_ := normalizeEmail (req_email input) in
  let phoneNumber_ := normalizePhone (req_phoneNumber input) in
  directMatchesOf tx email_ phoneNumber_ = [] ->
  identifyInTransaction now tx input =
  (mkStore (rows tx ++ [mkContact (nextId tx) email_ phoneNumber_ primary None now None])
           (nextId tx + 1),
   mkResponse (nextId tx) (JS.ifTruthy email_) (JS.ifTruthy phoneNumber_) []).
Proof.
  intros email_ phoneNumber_ Hd. unfold identifyInTransaction.
  rewrite optOrUndefined_normalizeEmail, optOrUndefined_normalizePhone.
  fold email_ phoneNumber_. rewrite Hd. reflexivity.
Qed.

(** The batched update, row by row. *)
Definition demoteIn (elected : Contact) (otherPrimaries : list Contact)
    (c : Contact) : Contact :=
  if idIn (map id otherPrimaries) c then demote (id elected) c else c.

Lemma demoteOthers_rows (elected : Contact) (others : list Contact) (tx : Store) :
  rows (demoteOthers elected others tx) = map (demoteIn elected others) (rows tx).
Proof.
  unfold demoteOthers. destruct others as [|o others].
  - unfold demoteIn. simpl. symmetry. apply map_id.
  - reflexivity.
Qed.

Lemma demoteOthers_nextId (elected : Contact) (others : list Contact) (tx : Store) :
  nextId (demoteOthers elected others tx) = nextId tx.
Proof. unfold demoteOthers. destruct others; reflexivity. Qed.

Lemma resolveGroup_In (tx : Store) (dm : list Contact) (c : Contact) :
  In c (resolveGroup tx dm) <-> In c (expandGroup tx dm (map id dm)).
Proof. unfold resolveGroup. apply sort_In. Qed.

Lemma electedOf_spec (tx : Store) (d : Contact) (ds : list Contact) :
  let raw := expandGroup tx (d :: ds) (map id (d :: ds)) in
  In (electedOf tx d ds) raw /\
  electedOf tx d ds = hd d (resolveGroup tx (d :: ds)) /\
  (forall c, In c raw -> createdAt (electedOf tx d ds) <= createdAt c).
Proof.
  intros raw.
  destruct (group_prefix tx (d :: ds)) as [later Hraw]. fold raw in Hraw.
  simpl in Hraw.
  assert (He : electedOf tx d ds = fold_left (pickEarlier createdAt) (ds ++ later) d).
  { unfold electedOf, resolveGroup. fold raw. rewrite Hraw.
    apply elected_is_first_min. }
  destruct (pickEarlier_first_min createdAt (ds ++ later) d)
    as (pre & post & Heq & Hpre & Hpost).
  rewrite <- He, <- Hraw in Heq. rewrite <- He in Hpre, Hpost.
  rewrite Forall_forall in Hpre, Hpost.
  split; [|split].
  - rewrite Heq. apply in_or_app. right. left. reflexivity.
  - rewrite He. unfold resolveGroup. fold raw. rewrite Hraw.
    symmetry. apply sort_hd.
  - intros c Hc. rewrite Heq in Hc. apply in_app_or in Hc.
    destruct Hc as [Hc|[<-|Hc]]; [specialize (Hpre _ Hc); lia | lia | auto].
Qed.

Lemma electedOf_live (tx : Store) (email_ phoneNumber_ : option string)
    (d : Contact) (ds : list Contact) :
  directMatchesOf tx email_ phoneNumber_ = d :: ds ->
  live tx (electedOf tx d ds).
Proof.
  intros Hd. destruct (electedOf_spec tx d ds) as (Hin & _).
  assert (Hl : Forall (live tx) (expandGroup tx (d :: ds) (map id (d :: ds)))).
  { apply group_live. rewrite <- Hd. apply directMatches_live. }
  rewrite Forall_forall in Hl. apply Hl, Hin.
Qed.

(* ===================================================================== *)
(** * Secondary writer *)
(* ===================================================================== *)

(** The request brings a value the group does not have yet. *)
Definition bringsNew (value : option string) (existing : list string) : Prop :=
  exists v, value = Some v /\ ~ In v existing.

Lemma isNew_normalizeEmail (v : option string) (existing : list string) :
  isNew (normalizeEmail v) existing = true <-> bringsNew (normalizeEmail v) existing.
Proof.
  unfold isNew, bringsNew. destruct (normalizeEmail v) as [e|] eqn:E.
  - rewrite (normalizeEmail_nonEmpty _ E). simpl.
    rewrite negb_true_iff, hasStr_false. split.
    + intros H. exists e. auto.
    + intros (e' & He & H). injection He as <-. exact H.
  - split; [discriminate | intros (e' & He & _); discriminate].
Qed.

Lemma isNew_normalizePhone (v : option string) (existing : list string) :
  isNew (normalizePhone v) existing = true <-> bringsNew (normalizePhone v) existing.
Proof.
  unfold isNew, bringsNew. destruct (normalizePhone v) as [e|] eqn:E.
  - rewrite (normalizePhone_nonEmpty _ E). simpl.
    rewrite negb_true_iff, hasStr_false. split.
    + intros H. exists e. auto.
    + intros (e' & He & H). injection He as <-. exact H.
  - split; [discriminate | intros (e' & He & _); discriminate].
Qed.

Lemma shouldCreateSecondary_spec (input : IdentifyRequest) (ng : list Contact) :
  shouldCreateSecondary (normalizeEmail (req_email input))
                        (normalizePhone (req_phoneNumber input)) ng = true <->
  bringsNew (normalizeEmail (req_email input)) (existingEmailsOf ng) \/
  bringsNew (normalizePhone (req_phoneNumber input)) (existingPhonesOf ng).
Proof.
  unfold shouldCreateSecondary.
  rewrite <- isNew_normalizeEmail, <- isNew_normalizePhone.
  destruct (isNew (normalizeEmail (req_email input)) (existingEmailsOf ng)),
           (isNew (normalizePhone (req_phoneNumber input)) (existingPhonesOf ng));
    intuition discriminate.
Qed.


Definition oneStore : Store := run [(10, req "a@x.com" "")] emptyStore.

Definition oneA : Contact := mkContact 1 (Some "a@x.com") None primary None 10 None.

(* ===================================================================== *)
(** * Frame of the arbiter's update *)
(* ===================================================================== *)

Lemma LinkPrecedence_eqb_eq (a b : LinkPrecedence) :
  LinkPrecedence_eqb a b = true <-> a = b.
Proof. destruct a, b; simpl; split; intros H; congruence. Qed.

Lemma otherPrimaries_In (elected : Contact) (group : list Contact) (c : Contact) :
  In c (otherPrimariesOf elected group) <->
  In c group /\ id c <> id elected /\ linkPrecedence c = primary.
Proof.
  unfold otherPrimariesOf. rewrite filter_In, andb_true_iff, negb_true_iff,
    Z.eqb_neq, LinkPrecedence_eqb_eq. reflexivity.
Qed.

Lemma afterWrite_rows (now : Z) (tx : Store) (email_ phoneNumber_ : option string)
    (d : Contact) (ds : list Contact) :
  let elected := electedOf tx d ds in
  let others := otherPrimariesOf elected (resolveGroup tx (d :: ds)) in
  exists extra,
    rows (afterWrite now tx email_ phoneNumber_ d ds)
    = map (demoteIn elected others) (rows tx) ++ extra /\
    (extra = [] \/ extra = [newSecondary now tx email_ phoneNumber_ elected]).
Proof.
  intros elected others. unfold afterWrite. fold elected.
  destruct (shouldCreateSecondary _ _ _).
  - exists [newSecondary now tx email_ phoneNumber_ elected]. split; [|auto].
    simpl. unfold afterDemotion. fold elected others.
    rewrite demoteOthers_rows, demoteOthers_nextId. reflexivity.
  - exists []. split; [|auto]. rewrite app_nil_r.
    unfold afterDemotion. fold elected others. apply demoteOthers_rows.
Qed.

(** With unique identifiers the update reaches exactly the listed rows. *)
Lemma demoteIn_hit (tx : Store) (elected : Contact) (group : list Contact)
    (c : Contact) :
  uniqueIds tx -> (forall x, In x group -> In x (rows tx)) -> In c (rows tx) ->
  (idIn (map id (otherPrimariesOf elected group)) c = true <->
   In c group /\ id c <> id elected /\ linkPrecedence c = primary).
Proof.
  intros Hu Hsub Hc. unfold idIn. rewrite hasNum_In, in_map_iff.
  rewrite <- otherPrimaries_In. split.
  - intros (o & Hid & Ho).
    assert (o = c).
    { apply (@unique_row tx); auto. apply Hsub.
      apply otherPrimaries_In in Ho. tauto. }
    subst. exact Ho.
  - intros H. exists c. auto.
Qed.

Lemma project_primaryId (elected : Contact) (tx : Store) :
  primaryContatctId (project elected tx) = id elected.
Proof.
  unfold project. simpl.
  destruct (find (fun c => id c =? id elected) (findMany (rootedAt (id elected)) tx))
    as [c|] eqn:E; [|reflexivity].
  apply find_some in E. destruct E as [_ E]. apply Z.eqb_eq, E.
Qed.

Lemma resolveGroup_rows (tx : Store) (email_ phoneNumber_ : option string)
    (d : Contact) (ds : list Contact) (c : Contact) :
  directMatchesOf tx email_ phoneNumber_ = d :: ds ->
  In c (resolveGroup tx (d :: ds)) -> live tx c.
Proof.
  intros Hd Hc. apply resolveGroup_In in Hc.
  assert (Hl : Forall (live tx) (expandGroup tx (d :: ds) (map id (d :: ds)))).
  { apply group_live. rewrite <- Hd. apply directMatches_live. }
  rewrite Forall_forall in Hl. apply Hl, Hc.
Qed.

Lemma demoteIn_elected (elected : Contact) (group : list Contact) (c : Contact) :
  id c = id elected ->
  demoteIn elected (otherPrimariesOf elected group) c = c.
Proof.
  intros Hid. unfold demoteIn.
  destruct (idIn (map id (otherPrimariesOf elected group)) c) eqn:E; [|reflexivity].
  unfold idIn in E. apply hasNum_In, in_map_iff in E.
  destruct E as (o & Ho & Hin). apply otherPrimaries_In in Hin.
  exfalso. destruct Hin as (_ & Hne & _). apply Hne. congruence.
Qed.

(** The two places where the source reads without checking,
    [group[0]] and [finalGroup.find(...)!], always find what they read. *)
Lemma resolveGroup_nonempty (tx : Store) (d : Contact) (ds : list Contact) :
  resolveGroup tx (d :: ds) <> [].
Proof.
  unfold resolveGroup. intros H. apply sort_nil_inv in H.
  destruct (group_prefix tx (d :: ds)) as [later Hg].
  rewrite Hg in H. discriminate H.
Qed.

Lemma freshPrimary_found (now : Z) (tx : Store) (email_ phoneNumber_ : option string)
    (d : Contact) (ds : list Contact) :
  directMatchesOf tx email_ phoneNumber_ = d :: ds ->
  let elected := electedOf tx d ds in
  let tx2 := afterWrite now tx email_ phoneNumber_ d ds in
  find (fun c => id c =? id elected) (findMany (rootedAt (id elected)) tx2)
  <> None.
Proof.
  intros Hd elected tx2 Hnone.
  destruct (@electedOf_live tx email_ phoneNumber_ d ds Hd) as [Hin Hlive].
  fold elected in Hin, Hlive.
  destruct (afterWrite_rows now tx email_ phoneNumber_ d ds) as (extra & Hrows & _).
  fold elected tx2 in Hrows.
  assert (Hin2 : In elected (findMany (rootedAt (id elected)) tx2)).
  { apply findMany_In. split.
    - rewrite Hrows. apply in_or_app. left.
      pose proof (@demoteIn_elected elected (resolveGroup tx (d :: ds)) elected eq_refl)
        as E.
      apply in_map
        with (f := demoteIn elected (otherPrimariesOf elected (resolveGroup tx (d :: ds))))
        in Hin.
      rewrite E in Hin. exact Hin.
    - unfold rootedAt, whereOR, idEquals. simpl.
      rewrite Hlive, Z.eqb_refl. reflexivity. }
  apply (@find_none _ _ _ Hnone) in Hin2. rewrite Z.eqb_refl in Hin2. discriminate.
Qed.

Lemma nth_error_map_app (f : Contact -> Contact) (l extra : list Contact)
    (i : nat) (c : Contact) :
  nth_error l i = Some c -> nth_error (map f l ++ extra) i = Some (f c).
Proof.
  intros H.
  assert (Hi : (i < List.length (map f l))%nat)
    by (rewrite length_map; apply nth_error_Some; congruence).
  rewrite (nth_error_app1 _ _ Hi), nth_error_map, H. reflexivity.
Qed.

(** Row by row: what the call does to the rows that were there before. *)
Lemma arbiter_frame
    (now : Z) (tx : Store) (input : IdentifyRequest) (d : Contact) (ds : list Contact) :
  uniqueIds tx ->
  directMatchesOf tx (normalizeEmail (req_email input))
                     (normalizePhone (req_phoneNumber input)) = d :: ds ->
  let group := resolveGroup tx (d :: ds) in
  let elected := electedOf tx d ds in
  let tx2 := fst (identifyInTransaction now tx input) in
  forall i c, nth_error (rows tx) i = Some c ->
     (In c group /\ id c <> id elected /\ linkPrecedence c = primary ->
      nth_error (rows tx2) i = Some (demote (id elected) c)) /\
     (~ (In c group /\ id c <> id elected /\ linkPrecedence c = primary) ->
      nth_error (rows tx2) i = Some c).
Proof.
  intros Hu Hd group elected tx2.
  pose proof (identifyInTransaction_matched now tx input Hd) as Hrun.
  cbv zeta in Hrun.
  assert (Htx2 : tx2 = afterWrite now tx (normalizeEmail (req_email input))
                         (normalizePhone (req_phoneNumber input)) d ds)
    by (unfold tx2; rewrite Hrun; reflexivity).
  destruct (afterWrite_rows now tx (normalizeEmail (req_email input))
              (normalizePhone (req_phoneNumber input)) d ds)
    as (extra & Hrows & _).
  fold elected group in Hrows. rewrite <- Htx2 in Hrows.
  assert (Hsub : forall x, In x group -> In x (rows tx))
    by (intros x Hx; eapply resolveGroup_rows; eassumption).
  intros i c Hi.
  assert (Hc : In c (rows tx)) by (eapply nth_error_In; eassumption).
  pose proof (@demoteIn_hit tx elected group c Hu Hsub Hc) as Hhit.
  rewrite Hrows. erewrite nth_error_map_app by eassumption. unfold demoteIn.
  destruct (idIn (map id (otherPrimariesOf elected group)) c).
  - split; [reflexivity|]. intros Hn. exfalso. apply Hn, Hhit. reflexivity.
  - split; [|reflexivity]. intros Hy. apply Hhit in Hy. discriminate.
Qed.

(** C10. On a non-empty resolved group over a store with unique
    identifiers, every row that existed before the call keeps its position;
    it is rewritten (to a secondary linked to the elected contact) when it is
    a member of the group other than the elected contact whose
    [linkPrecedence] is primary, and is left exactly as it was otherwise.  So
    the elected contact's own row and every pre-existing secondary are
    untouched, and when the elected contact is itself a secondary the response
    names it as primary while its stored row still says secondary. *)
Theorem C10_only_other_primaries_are_updated
    (now : Z) (tx : Store) (input : IdentifyRequest) (d : Contact) (ds : list Contact) :
  uniqueIds tx ->
  directMatchesOf tx (normalizeEmail (req_email input))
                     (normalizePhone (req_phoneNumber input)) = d :: ds ->
  let group := resolveGroup tx (d :: ds) in
  let elected := electedOf tx d ds in
  let tx2 := fst (identifyInTransaction now tx input) in
  let response := snd (identifyInTransaction now tx input) in
  (forall i c, nth_error (rows tx) i = Some c ->
     (In c group /\ id c <> id elected /\ linkPrecedence c = primary ->
      nth_error (rows tx2) i = Some (demote (id elected) c)) /\
     (~ (In c group /\ id c <> id elected /\ linkPrecedence c = primary) ->
      nth_error (rows tx2) i = Some c)) /\
  (forall i c, nth_error (rows tx) i = Some c ->
     id c = id elected \/ linkPrecedence c = secondary ->
     nth_error (rows tx2) i = Some c) /\
  In elected (rows tx) /\
  In elected (rows tx2) /\
  primaryContatctId response = id elected /\
  (linkPrecedence elected = secondary ->
   exists c, In c (rows tx2) /\ id c = primaryContatctId response /\
             linkPrecedence c = secondary).
Proof.
  intros Hu Hd group elected tx2 response.
  pose proof (@arbiter_frame now tx input d ds Hu Hd) as Hframe.
  cbv zeta in Hframe. fold group elected tx2 in Hframe.
  assert (Hresp : primaryContatctId response = id elected).
  { unfold response. rewrite (identifyInTransaction_matched now tx input Hd).
    apply project_primaryId. }
  assert (Hel : In elected (rows tx)).
  { eapply resolveGroup_rows; [exact Hd|].
    apply resolveGroup_In. apply electedOf_spec. }
  split; [exact Hframe|]. split; [|split; [exact Hel|split; [|split]]].
  - intros i c Hi Hc. apply (Hframe i c Hi). intros (_ & Hne & Hp).
    destruct Hc as [Hc|Hc]; [contradiction | congruence].
  - apply In_nth_error in Hel. destruct Hel as [i Hi].
    apply nth_error_In with (n := i). apply (Hframe i elected Hi).
    intros (_ & Hne & _). apply Hne. reflexivity.
  - exact Hresp.
  - intros Hsec. exists elected. split; [|split; [symmetry; exact Hresp | exact Hsec]].
    apply In_nth_error in Hel. destruct Hel as [i Hi].
    apply nth_error_In with (n := i). apply (Hframe i elected Hi).
    intros (_ & Hne & _). apply Hne. reflexivity.
Qed.

Definition strayStore : Store :=
  run [(10, req "a@x.com" ""); (20, req "" "+1555"); (30, req "a@x.com" "+1555")]
      emptyStore.

Definition strayP1 : Contact := mkContact 1 (Some "a@x.com") None primary None 10 None.
Definition strayP2 : Contact := mkContact 2 None (Some "+1555") secondary (Some 1) 20 None.

Lemma C10_only_other_primaries_are_updated_witness :
  exists c,
    In c (rows (fst (identifyInTransaction 40 strayStore (req "" "+1555")))) /\
    id c = primaryContatctId (snd (identifyInTransaction 40 strayStore (req "" "+1555"))) /\
    linkPrecedence c = secondary.
Proof.
  assert (Hu : uniqueIds strayStore).
  { unfold uniqueIds. vm_compute. repeat constructor; simpl; intuition discriminate. }
  destruct (@C10_only_other_primaries_are_updated
              40 strayStore (req "" "+1555") strayP2 [] Hu eq_refl)
    as (_ & _ & _ & _ & _ & H).
  apply H. reflexivity.
Defined.

(* ===================================================================== *)
(** * Secondary writer: what counts as new information *)
(* ===================================================================== *)












(* ===================================================================== *)
(** * Response projector *)
(* ===================================================================== *)

(** The pairs the dedup loop keeps: first occurrences of values not yet seen. *)
Fixpoint firstOccurrences (seen : list string) (l : list (string * Z))
  : list (string * Z) :=
  match l with
  | [] => []
  | item :: r =>
      if JS.hasStr (fst item) seen then firstOccurrences seen r
      else item :: firstOccurrences (seen ++ [fst item]) r
  end.

Lemma pushUnseen_fold (l : list (string * Z)) (seen out : list string) :
  fold_left pushUnseen l (seen, out) =
  (seen ++ map fst (firstOccurrences seen l),
   out ++ map fst (firstOccurrences seen l)).
Proof.
  revert seen out. induction l as [|item l IH]; intros seen out; simpl.
  - rewrite !app_nil_r. reflexivity.
  - destruct (JS.hasStr (fst item) seen); simpl.
    + apply IH.
    + rewrite IH. simpl. rewrite <- !app_assoc. reflexivity.
Qed.

Lemma firstOccurrences_In (l : list (string * Z)) (seen : list string)
    (x : string * Z) :
  In x (firstOccurrences seen l) -> In x l /\ ~ In (fst x) seen.
Proof.
  revert seen. induction l as [|item l IH]; intros seen; simpl; [tauto|].
  destruct (JS.hasStr (fst item) seen) eqn:E.
  - intros H. destruct (IH _ H). auto.
  - apply hasStr_false in E. intros [<-|H]; [auto|].
    destruct (IH _ H) as [H1 H2]. split; [auto|].
    intros Hs. apply H2, in_or_app. left. exact Hs.
Qed.

Lemma firstOccurrences_fresh (l : list (string * Z)) (seen : list string)
    (x : string * Z) :
  In x (firstOccurrences (seen ++ [fst x]) l) -> False.
Proof.
  intros H. apply firstOccurrences_In in H. destruct H as [_ H].
  apply H, in_or_app. right. left. reflexivity.
Qed.

Lemma firstOccurrences_values (l : list (string * Z)) (seen : list string)
    (v : string) :
  In v (map fst (firstOccurrences seen l)) <-> In v (map fst l) /\ ~ In v seen.
Proof.
  revert seen. induction l as [|item l IH]; intros seen; simpl; [tauto|].
  destruct (JS.hasStr (fst item) seen) eqn:E.
  - apply hasStr_In in E. rewrite IH. split.
    + tauto.
    + intros [[<-|H] Hs]; [contradiction | tauto].
  - apply hasStr_false in E. simpl. rewrite IH. split.
    + intros [<-|[H Hs]]; [tauto|]. split; [tauto|].
      intros Hv. apply Hs, in_or_app. left. exact Hv.
    + intros [[H|H] Hs]; [tauto|].
      destruct (String.eqb (fst item) v) eqn:Ev.
      * apply String.eqb_eq in Ev. tauto.
      * apply String.eqb_neq in Ev. right. split; [exact H|].
        intros Hin. apply in_app_or in Hin. destruct Hin as [Hin|[Hin|[]]]; tauto.
Qed.

Lemma firstOccurrences_nodup (l : list (string * Z)) (seen : list string) :
  NoDup (map fst (firstOccurrences seen l)).
Proof.
  revert seen. induction l as [|item l IH]; intros seen; simpl; [constructor|].
  destruct (JS.hasStr (fst item) seen); [apply IH|].
  simpl. constructor; [|apply IH].
  rewrite firstOccurrences_values. intros [_ H].
  apply H, in_or_app. right. left. reflexivity.
Qed.

(** Over pairs in time order, a kept pair carries the least time of its
    value, and the kept pairs are in time order. *)
Lemma firstOccurrences_earliest (l : list (string * Z)) (seen : list string) :
  StronglySorted (fun a b => snd a <= snd b) l ->
  forall v t, In (v, t) (firstOccurrences seen l) ->
  forall t', In (v, t') l -> t <= t'.
Proof.
  intros Hs. revert seen.
  induction Hs as [|item l Hs IH Hall]; intros seen v t; simpl; [tauto|].
  rewrite Forall_forall in Hall.
  destruct (JS.hasStr (fst item) seen) eqn:E.
  - intros Hin t' [Heq|Hl]; [|eapply IH; eassumption].
    apply hasStr_In in E. apply firstOccurrences_In in Hin.
    subst item. simpl in *. tauto.
  - intros [Heq|Hin] t' [Heq'|Hl].
    + subst item. injection Heq' as <-. lia.
    + subst item. apply (Hall _ Hl).
    + subst item. exfalso. apply (firstOccurrences_fresh _ _ _ Hin).
    + eapply IH; eassumption.
Qed.

Lemma firstOccurrences_sorted (l : list (string * Z)) (seen : list string) :
  StronglySorted (fun a b => snd a <= snd b) l ->
  StronglySorted Z.le (map snd (firstOccurrences seen l)).
Proof.
  intros Hs. revert seen.
  induction Hs as [|item l Hs IH Hall]; intros seen; simpl; [constructor|].
  destruct (JS.hasStr (fst item) seen); [apply IH|].
  simpl. constructor; [apply IH|].
  rewrite Forall_forall in *. intros t Ht. apply in_map_iff in Ht.
  destruct Ht as (x & <- & Hx). apply firstOccurrences_In in Hx.
  apply Hall. tauto.
Qed.

(** [t] is the [createdAt] of the contact of [finalGroup] that first carries
    the value [v] in the attribute [field]. *)
Definition firstCarriedAt (field : Contact -> option string)
    (finalGroup : list Contact) (v : string) (t : Z) : Prop :=
  (exists c, In c finalGroup /\ field c = Some v /\ createdAt c = t) /\
  (forall c, In c finalGroup -> field c = Some v -> t <= createdAt c).

(** What the specification asks of [emails] and of [phoneNumbers]: the
    primary's own value first when it has one, then the other values of the
    group, each once, in the order of the time they were first carried. *)
Definition orderedUnique (field : Contact -> option string)
    (freshPrimary : Contact) (finalGroup : list Contact) (out : list string) : Prop :=
  NoDup out /\
  (forall v, In v out <->
     In v (JS.ifTruthy (field freshPrimary)) \/
     exists c, In c finalGroup /\ field c = Some v /\ JS.nonEmpty v = true) /\
  exists kept : list (string * Z),
    out = JS.ifTruthy (field freshPrimary) ++ map fst kept /\
    Forall (fun x => firstCarriedAt field finalGroup (fst x) (snd x)) kept /\
    StronglySorted Z.le (map snd kept).

Lemma othersWithContact_In (field : Contact -> option string) (seen : list string)
    (finalGroup : list Contact) (v : string) (t : Z) :
  In (v, t) (othersWithContact field seen finalGroup) <->
  exists c, In c finalGroup /\ field c = Some v /\ JS.nonEmpty v = true /\
            ~ In v seen /\ createdAt c = t.
Proof.
  unfold othersWithContact. rewrite in_flat_map. split.
  - intros (c & Hc & H). exists c. split; [exact Hc|].
    destruct (field c) as [w|]; [|destruct H].
    destruct (JS.nonEmpty w) eqn:Ew; simpl in H; [|destruct H].
    destruct (JS.hasStr w seen) eqn:Es; simpl in H; [destruct H|].
    destruct H as [H|[]]. injection H as -> <-.
    apply hasStr_false in Es. auto.
  - intros (c & Hc & Hf & Hv & Hs & Ht). exists c. split; [exact Hc|].
    rewrite Hf, Hv. apply hasStr_false in Hs. rewrite Hs. simpl.
    left. rewrite Ht. reflexivity.
Qed.

Lemma ifTruthy_nodup (v : option string) : NoDup (JS.ifTruthy v).
Proof.
  unfold JS.ifTruthy. destruct v as [s|]; [|constructor].
  destruct (JS.nonEmpty s); repeat constructor. intros [].
Qed.

Lemma uniqueValues_spec (field : Contact -> option string)
    (freshPrimary : Contact) (finalGroup : list Contact) :
  orderedUnique field freshPrimary finalGroup
                (uniqueValues field freshPrimary finalGroup).
Proof.
  unfold uniqueValues, orderedUnique.
  set (first := JS.ifTruthy (field freshPrimary)).
  set (others := JS.sort (JS.cmpLt (@snd string Z))
                         (othersWithContact field first finalGroup)).
  rewrite pushUnseen_fold. simpl.
  assert (Hsorted : StronglySorted (fun a b : string * Z => snd a <= snd b) others)
    by apply sort_sorted.
  assert (Hothers : forall v t, In (v, t) others <->
            exists c, In c finalGroup /\ field c = Some v /\ JS.nonEmpty v = true /\
                      ~ In v first /\ createdAt c = t).
  { intros v t. unfold others. rewrite sort_In. apply othersWithContact_In. }
  split; [|split].
  - apply NoDup_app.
    + apply ifTruthy_nodup.
    + apply firstOccurrences_nodup.
    + intros v Hv Hk. apply firstOccurrences_values in Hk. tauto.
  - intros v. rewrite in_app_iff, firstOccurrences_values, in_map_iff. split.
    + intros [H|[((w, t) & Hw & Hin) _]]; [auto|].
      simpl in Hw. subst w. apply Hothers in Hin.
      destruct Hin as (c & Hc & Hf & Hv & _). right. exists c. auto.
    + intros [H|(c & Hc & Hf & Hv)]; [auto|].
      destruct (JS.hasStr v first) eqn:E.
      * apply hasStr_In in E. auto.
      * apply hasStr_false in E. right. split; [|exact E].
        exists (v, createdAt c). split; [reflexivity|].
        apply Hothers. exists c. auto.
  - exists (firstOccurrences first others). split; [reflexivity|]. split.
    + rewrite Forall_forall. intros (v, t) Hk. simpl.
      pose proof (firstOccurrences_In _ _ _ Hk) as [Hin Hfresh].
      simpl in Hfresh.
      apply Hothers in Hin. destruct Hin as (c & Hc & Hf & Hv & _ & Ht).
      split.
      * exists c. auto.
      * intros c' Hc' Hf'.
        apply (firstOccurrences_earliest first Hsorted v t Hk).
        apply Hothers. exists c'. auto.
    + apply firstOccurrences_sorted, Hsorted.
Qed.

Lemma insertBy_ext (A : Type) (cmp1 cmp2 : A -> A -> Z) (x : A) (l : list A) :
  (forall a b, (cmp1 a b <? 0) = (cmp2 a b <? 0)) ->
  JS.insertBy cmp1 x l = JS.insertBy cmp2 x l.
Proof.
  intros H. induction l as [|y l IH]; simpl; [reflexivity|].
  rewrite H, IH. reflexivity.
Qed.

Lemma sort_ext (A : Type) (cmp1 cmp2 : A -> A -> Z) (l : list A) :
  (forall a b, (cmp1 a b <? 0) = (cmp2 a b <? 0)) ->
  JS.sort cmp1 l = JS.sort cmp2 l.
Proof.
  intros H. unfold JS.sort. generalize (@nil A).
  induction l as [|y l IH]; intros acc; simpl; [reflexivity|].
  rewrite (insertBy_ext _ _ y acc H). apply IH.
Qed.

Lemma sort_cmpNum_sorted (l : list Z) : StronglySorted Z.le (JS.sort JS.cmpNum l).
Proof.
  rewrite (sort_ext JS.cmpNum (JS.cmpLt (fun z : Z => z))).
  - apply (sort_sorted (fun z : Z => z)).
  - intros a b. unfold JS.cmpNum. rewrite cmpLt_neg.
    destruct (a <? b) eqn:E.
    + apply Z.ltb_lt in E. apply Z.ltb_lt. lia.
    + apply Z.ltb_ge in E. apply Z.ltb_ge. lia.
Qed.

Lemma secondaryIdsOf_In (freshPrimary : Contact) (finalGroup : list Contact) (i : Z) :
  In i (secondaryIdsOf freshPrimary finalGroup) <->
  exists c, In c finalGroup /\ id c = i /\ linkPrecedence c = secondary /\
            linkedId c = Some (id freshPrimary).
Proof.
  unfold secondaryIdsOf. rewrite sort_In, in_map_iff. split.
  - intros (c & Hid & Hc). apply filter_In in Hc. destruct Hc as [Hc Hf].
    apply andb_prop in Hf. destruct Hf as [Hs Hl].
    apply LinkPrecedence_eqb_eq in Hs.
    destruct (linkedId c) as [j|] eqn:El; [|discriminate].
    apply Z.eqb_eq in Hl. subst j. exists c. auto.
  - intros (c & Hc & Hid & Hs & Hl). exists c. split; [exact Hid|].
    apply filter_In. split; [exact Hc|].
    rewrite Hs, Hl, Z.eqb_refl. reflexivity.
Qed.

Lemma nodup_as_normalized (norm : option string -> option string) (l : list string) :
  NoDup l -> (forall v, In v l -> norm (Some v) = Some v) ->
  NoDup (map (fun v => norm (Some v)) l).
Proof.
  induction 1 as [|v l Hv Hl IH]; simpl; intros Hn; [constructor|].
  constructor.
  - rewrite in_map_iff. intros (w & Hw & Hin).
    rewrite (Hn v), (Hn w) in Hw by auto. injection Hw as ->. contradiction.
  - apply IH. intros w Hw. apply Hn. right. exact Hw.
Qed.

(** C7. In the response built from the final group: [emails] starts with
    the primary's own e-mail when it has one and continues with every other
    e-mail of the group, each once, in ascending order of the [createdAt] of
    the contact that first carries it; [phoneNumbers] obeys the same rule on
    phone numbers; values stored in normal form are pairwise distinct as
    normalized values; [secondaryContactIds] lists, in ascending numeric
    order, the ids of the members that are secondaries linked to the
    primary. *)
Theorem C7_response_is_ordered_and_unique (elected : Contact) (tx : Store) :
  let finalGroup := findMany (rootedAt (id elected)) tx in
  let freshPrimary :=
    match find (fun c => id c =? id elected) finalGroup with
    | Some c => c
    | None => elected
    end in
  let response := project elected tx in
  orderedUnique email freshPrimary finalGroup (emails response) /\
  orderedUnique phoneNumber freshPrimary finalGroup (phoneNumbers response) /\
  ((forall c, In c (freshPrimary :: finalGroup) ->
      normalizeEmail (email c) = email c /\
      normalizePhone (phoneNumber c) = phoneNumber c) ->
   NoDup (map (fun v => normalizeEmail (Some v)) (emails response)) /\
   NoDup (map (fun v => normalizePhone (Some v)) (phoneNumbers response))) /\
  StronglySorted Z.le (secondaryContactIds response) /\
  (forall i, In i (secondaryContactIds response) <->
     exists c, In c finalGroup /\ id c = i /\ linkPrecedence c = secondary /\
               linkedId c = Some (id freshPrimary)).
Proof.
  intros finalGroup freshPrimary response.
  unfold response, project. fold finalGroup. fold freshPrimary.
  cbn [emails phoneNumbers secondaryContactIds].
  pose proof (uniqueValues_spec email freshPrimary finalGroup) as (He1 & He2 & He3).
  pose proof (uniqueValues_spec phoneNumber freshPrimary finalGroup) as (Hp1 & Hp2 & Hp3).
  split; [apply uniqueValues_spec|]. split; [apply uniqueValues_spec|].
  split; [|split; [apply sort_cmpNum_sorted | apply secondaryIdsOf_In]].
  intros Hn. split.
  - apply (nodup_as_normalized normalizeEmail); [exact He1|].
    intros v Hv. apply He2 in Hv. destruct Hv as [Hv|(c & Hc & Hf & _)].
    + apply ifTruthy_In in Hv. destruct Hv as [Hv _].
      rewrite <- Hv. apply (Hn freshPrimary). left. reflexivity.
    + rewrite <- Hf. apply (Hn c). right. exact Hc.
  - apply (nodup_as_normalized normalizePhone); [exact Hp1|].
    intros v Hv. apply Hp2 in Hv. destruct Hv as [Hv|(c & Hc & Hf & _)].
    + apply ifTruthy_In in Hv. destruct Hv as [Hv _].
      rewrite <- Hv. apply (Hn freshPrimary). left. reflexivity.
    + rewrite <- Hf. apply (Hn c). right. exact Hc.
Qed.

Lemma C7_response_is_ordered_and_unique_witness :
  StronglySorted Z.le (secondaryContactIds (project strayP1 strayStore)) /\
  (NoDup (map (fun v => normalizeEmail (Some v)) (emails (project strayP1 strayStore))) /\
   NoDup (map (fun v => normalizePhone (Some v))
              (phoneNumbers (project strayP1 strayStore)))).
Proof.
  destruct (C7_response_is_ordered_and_unique strayP1 strayStore)
    as (_ & _ & Hn & Hs & _).
  split; [exact Hs|]. apply Hn.
  intros c Hc. vm_compute in Hc.
  destruct Hc as [<-|[<-|[<-|[]]]]; split; reflexivity.
Defined.

(* ===================================================================== *)
(** * Clusters *)
(* ===================================================================== *)

(** [b] is in the cluster of [a]: reachable from [a] through live rows that
    share a value. *)
Definition connected (tx : Store) (a b : Contact) : Prop :=
  reachableFrom adjacent tx [a] b.

Lemma reach_trans (adj : Contact -> Contact -> Prop) (tx : Store)
    (seeds : list Contact) (a b : Contact) :
  reachableFrom adj tx seeds a -> reachableFrom adj tx [a] b ->
  reachableFrom adj tx seeds b.
Proof.
  intros Ha. induction 1 as [c Hc|x y _ IH Hy Hadj].
  - destruct Hc as [<-|[]]. exact Ha.
  - eapply reach_step; eassumption.
Qed.

Lemma connected_live (tx : Store) (a b : Contact) :
  live tx a -> connected tx a b -> live tx b.
Proof.
  intros Ha. induction 1 as [c Hc|x y _ IH Hy Hadj].
  - destruct Hc as [<-|[]]. exact Ha.
  - exact Hy.
Qed.

Lemma connected_refl (tx : Store) (a : Contact) : connected tx a a.
Proof. apply reach_seed. left. reflexivity. Qed.

Lemma connected_sym (tx : Store) (a b : Contact) :
  live tx a -> connected tx a b -> connected tx b a.
Proof.
  intros Ha. induction 1 as [c Hc|x y Hx IH Hy Hadj].
  - destruct Hc as [<-|[]]. apply connected_refl.
  - apply reach_trans with (a := x); [|exact IH].
    apply reach_step with (a := y).
    + apply connected_refl.
    + apply (connected_live Ha Hx).
    + apply adjacent_sym, Hadj.
Qed.

Lemma connected_trans (tx : Store) (a b c : Contact) :
  connected tx a b -> connected tx b c -> connected tx a c.
Proof. apply reach_trans. Qed.

(** ** How a call changes the graph

    A call rewrites rows without touching what resolution reads ([id],
    [email], [phoneNumber], [createdAt], [deletedAt]) and appends at most one
    row, which carries the request's values.  A path of the new graph either
    is a path of the old graph or runs inside the resolved group. *)

Definition keepsKeys (f : Contact -> Contact) : Prop :=
  forall c, id (f c) = id c /\ email (f c) = email c /\
            phoneNumber (f c) = phoneNumber c /\
            createdAt (f c) = createdAt c /\ deletedAt (f c) = deletedAt c.

Lemma demoteIn_keepsKeys (elected : Contact) (others : list Contact) :
  keepsKeys (demoteIn elected others).
Proof.
  intros c. unfold demoteIn. destruct (idIn (map id others) c); simpl; auto.
Qed.

Lemma adjacent_same_values (a a' b b' : Contact) :
  email a' = email a -> phoneNumber a' = phoneNumber a ->
  email b' = email b -> phoneNumber b' = phoneNumber b ->
  adjacent a b -> adjacent a' b'.
Proof.
  intros Ea Pa Eb Pb [(e & He & H1 & H2)|(p & Hp & H1 & H2)]; [left|right].
  - exists e. rewrite Ea, Eb. auto.
  - exists p. rewrite Pa, Pb. auto.
Qed.

Section Extension.
Variables tx tx2 : Store.
Variable f : Contact -> Contact.
Variable extra : list Contact.
Variables email_ phoneNumber_ : option string.

Hypothesis f_keys : keepsKeys f.
Hypothesis rows2 : rows tx2 = map f (rows tx) ++ extra.
Hypothesis extra_values :
  forall x, In x extra -> email x = email_ /\ phoneNumber x = phoneNumber_.

Let seeds := directMatchesOf tx email_ phoneNumber_.
Let inGroup (c : Contact) : Prop := reachableFrom adjacent tx seeds c.

Lemma adjacent_f (a b : Contact) : adjacent (f a) (f b) <-> adjacent a b.
Proof.
  destruct (f_keys a) as (_ & Ea & Pa & _). destruct (f_keys b) as (_ & Eb & Pb & _).
  split; apply adjacent_same_values; congruence.
Qed.

Lemma live2_cases (y' : Contact) :
  live tx2 y' -> (exists y, y' = f y /\ live tx y) \/ In y' extra.
Proof.
  intros [Hin Hnd]. rewrite rows2 in Hin. apply in_app_or in Hin.
  destruct Hin as [Hin|Hin]; [left | right; exact Hin].
  apply in_map_iff in Hin. destruct Hin as (y & <- & Hy).
  exists y. split; [reflexivity|]. split; [exact Hy|].
  unfold notDeleted in *. destruct (f_keys y) as (_ & _ & _ & _ & Hd).
  rewrite Hd in Hnd. exact Hnd.
Qed.

(** A row adjacent to the appended row is a direct match of the request. *)
Lemma adjacent_extra_seed (x y : Contact) :
  In x extra -> live tx y -> adjacent x (f y) -> In y seeds.
Proof.
  intros Hx Hy Hadj. destruct (extra_values x Hx) as [Ex Px].
  destruct (f_keys y) as (_ & Ey & Py & _).
  apply directMatches_In. split; [exact Hy|].
  destruct Hadj as [(e & He & H1 & H2)|(p & Hp & H1 & H2)]; [left|right].
  - exists e. repeat split; congruence.
  - exists p. repeat split; congruence.
Qed.

Lemma path_from_old (a : Contact) :
  live tx a ->
  forall b', reachableFrom adjacent tx2 [f a] b' ->
  (exists b, b' = f b /\ connected tx a b) \/
  (inGroup a /\ (In b' extra \/ exists b, b' = f b /\ inGroup b)).
Proof.
  intros Ha. induction 1 as [c Hc|x' y' _ IH Hy Hadj].
  - destruct Hc as [<-|[]]. left. exists a. split; [reflexivity|].
    apply connected_refl.
  - destruct (live2_cases Hy) as [(y & -> & Hly)|Hextra].
    + destruct IH as [(x & -> & Hax)|(Hga & [Hx|(x & -> & Hgx)])].
      * left. exists y. split; [reflexivity|].
        apply reach_step with (a := x); auto. apply adjacent_f, Hadj.
      * right. split; [exact Hga|]. right. exists y. split; [reflexivity|].
        apply reach_seed. eapply adjacent_extra_seed; eassumption.
      * right. split; [exact Hga|]. right. exists y. split; [reflexivity|].
        apply reach_step with (a := x); auto. apply adjacent_f, Hadj.
    + destruct IH as [(x & -> & Hax)|(Hga & _)].
      * right. split; [|left; exact Hextra].
        assert (Hlx : live tx x) by (eapply connected_live; eassumption).
        assert (Hsx : In x seeds).
        { apply (adjacent_extra_seed Hextra Hlx). apply adjacent_sym, Hadj. }
        apply reach_trans with (a := x); [apply reach_seed, Hsx|].
        apply connected_sym; assumption.
      * right. split; [exact Hga | left; exact Hextra].
Qed.

Lemma path_from_new (x : Contact) :
  In x extra ->
  forall b', reachableFrom adjacent tx2 [x] b' ->
  In b' extra \/ exists b, b' = f b /\ inGroup b.
Proof.
  intros Hx. induction 1 as [c Hc|x' y' _ IH Hy Hadj].
  - destruct Hc as [<-|[]]. left. exact Hx.
  - destruct (live2_cases Hy) as [(y & -> & Hly)|Hextra]; [|left; exact Hextra].
    right. exists y. split; [reflexivity|].
    destruct IH as [Hx'|(b & -> & Hb)].
    + apply reach_seed. eapply adjacent_extra_seed; eassumption.
    + apply reach_step with (a := b); auto. apply adjacent_f, Hadj.
Qed.

End Extension.

(* ===================================================================== *)
(** * What every call preserves *)
(* ===================================================================== *)

Definition idsBelowNext (tx : Store) : Prop :=
  forall c, In c (rows tx) -> id c < nextId tx.

Definition noneDeleted (tx : Store) : Prop :=
  forall c, In c (rows tx) -> deletedAt c = None.

(** A cluster never holds two primaries. *)
Definition atMostOnePrimary (tx : Store) : Prop :=
  forall a b, live tx a ->
    linkPrecedence a = primary -> linkPrecedence b = primary ->
    connected tx a b -> a = b.

Definition primariesUnlinked (tx : Store) : Prop :=
  forall c, In c (rows tx) -> linkPrecedence c = primary -> linkedId c = None.

(** A secondary's [linkedId] names another row of the table. *)
Definition secondariesLinked (tx : Store) : Prop :=
  forall c, In c (rows tx) -> linkPrecedence c = secondary ->
    exists t, In t (rows tx) /\ linkedId c = Some (id t) /\ id t <> id c.

Record clusterInvariant (tx : Store) : Prop := mkClusterInvariant {
  inv_unique : uniqueIds tx;
  inv_below : idsBelowNext tx;
  inv_live : noneDeleted tx;
  inv_one : atMostOnePrimary tx;
  inv_primary : primariesUnlinked tx;
  inv_secondary : secondariesLinked tx
}.

Lemma reachable_no_seed (adj : Contact -> Contact -> Prop) (tx : Store) (c : Contact) :
  reachableFrom adj tx [] c -> False.
Proof. induction 1 as [c []|]; assumption. Qed.

Lemma afterWrite_shape (now : Z) (tx : Store) (email_ phoneNumber_ : option string)
    (d : Contact) (ds : list Contact) :
  let elected := electedOf tx d ds in
  let others := otherPrimariesOf elected (resolveGroup tx (d :: ds)) in
  let tx2 := afterWrite now tx email_ phoneNumber_ d ds in
  exists extra,
    rows tx2 = map (demoteIn elected others) (rows tx) ++ extra /\
    ((extra = [] /\ nextId tx2 = nextId tx) \/
     (extra = [newSecondary now tx email_ phoneNumber_ elected] /\
      nextId tx2 = nextId tx + 1)).
Proof.
  intros elected others tx2. unfold tx2, afterWrite. fold elected.
  destruct (shouldCreateSecondary _ _ _).
  - exists [newSecondary now tx email_ phoneNumber_ elected]. split.
    + simpl. unfold afterDemotion. fold elected others.
      rewrite demoteOthers_rows, demoteOthers_nextId. reflexivity.
    + right. split; [reflexivity|]. simpl. unfold afterDemotion.
      rewrite demoteOthers_nextId. reflexivity.
  - exists []. split.
    + rewrite app_nil_r. unfold afterDemotion. fold elected others.
      apply demoteOthers_rows.
    + left. split; [reflexivity|]. unfold afterDemotion.
      apply demoteOthers_nextId.
Qed.

(** A row still primary after the update was primary and was not rewritten. *)
Lemma demoteIn_primary (elected : Contact) (others : list Contact) (c : Contact) :
  linkPrecedence (demoteIn elected others c) = primary ->
  demoteIn elected others c = c /\ linkPrecedence c = primary /\
  idIn (map id others) c = false.
Proof.
  unfold demoteIn. destruct (idIn (map id others) c); simpl; [discriminate | auto].
Qed.

Lemma demoteIn_secondary_cases (elected : Contact) (others : list Contact) (c : Contact) :
  linkPrecedence (demoteIn elected others c) = secondary ->
  (demoteIn elected others c = c /\ linkPrecedence c = secondary) \/
  (demoteIn elected others c = demote (id elected) c /\
   exists o, In o others /\ id o = id c).
Proof.
  unfold demoteIn. destruct (idIn (map id others) c) eqn:E; simpl.
  - intros _. right. split; [reflexivity|].
    unfold idIn in E. apply hasNum_In, in_map_iff in E.
    destruct E as (o & Ho & Hin). exists o. auto.
  - auto.
Qed.

(** In the resolved group only the elected contact can stay primary. *)
Lemma group_primary_is_elected (tx : Store) (d : Contact) (ds : list Contact)
    (c : Contact) :
  let elected := electedOf tx d ds in
  let group := resolveGroup tx (d :: ds) in
  In c group ->
  linkPrecedence (demoteIn elected (otherPrimariesOf elected group) c) = primary ->
  id c = id elected.
Proof.
  intros elected group Hc Hp.
  apply demoteIn_primary in Hp. destruct Hp as (_ & Hp & Hno).
  destruct (Z.eq_dec (id c) (id elected)) as [E|E]; [exact E|].
  exfalso. unfold idIn in Hno. apply hasNum_false in Hno. apply Hno.
  apply in_map. apply otherPrimaries_In. auto.
Qed.

(** With a clock that advances between creations: a primary is the oldest
    contact of its cluster, and no two contacts share a [createdAt]. *)
Definition oldestPrimary (tx : Store) : Prop :=
  forall a b, live tx a -> linkPrecedence a = primary ->
    connected tx a b -> b <> a -> createdAt a < createdAt b.

Definition distinctTimes (tx : Store) : Prop :=
  forall a b, In a (rows tx) -> In b (rows tx) ->
    createdAt a = createdAt b -> a = b.

Unset Implicit Arguments.

(** What one call does to the table: it rewrites rows through [f], which
    keeps what resolution reads, and appends [extra], at most one row carrying
    the request's values and created at clock reading [now]. *)
Record CallStep (tx tx2 : Store) (f : Contact -> Contact) (extra : list Contact)
    (email_ phoneNumber_ : option string) (now : Z) : Prop := mkCallStep {
  cs_keys : keepsKeys f;
  cs_rows : rows tx2 = map f (rows tx) ++ extra;
  cs_values :
    forall x, In x extra -> email x = email_ /\ phoneNumber x = phoneNumber_;
  cs_shape :
    (extra = [] /\ nextId tx2 = nextId tx) \/
    (exists x, extra = [x] /\ id x = nextId tx /\ deletedAt x = None /\
               nextId tx2 = nextId tx + 1);
  cs_time : forall x, In x extra -> createdAt x = now;
  (* what the rewriting and the appended row do to the link fields *)
  cs_primary :
    forall c, linkPrecedence (f c) = primary -> f c = c /\ linkPrecedence c = primary;
  cs_secondary :
    forall c, In c (rows tx) -> linkPrecedence (f c) = secondary ->
      (f c = c /\ linkPrecedence c = secondary) \/
      (exists t, In t (rows tx) /\ linkedId (f c) = Some (id t) /\ id t <> id c);
  cs_extra_primary :
    forall x, In x extra -> linkPrecedence x = primary ->
      linkedId x = None /\ directMatchesOf tx email_ phoneNumber_ = [];
  cs_extra_secondary :
    forall x, In x extra -> linkPrecedence x = secondary ->
      exists t, In t (rows tx) /\ linkedId x = Some (id t);
  (* in the resolved group only the elected contact stays primary, and it is
     a member of least [createdAt] *)
  cs_group_primary :
    forall a b,
      reachableFrom adjacent tx (directMatchesOf tx email_ phoneNumber_) a ->
      reachableFrom adjacent tx (directMatchesOf tx email_ phoneNumber_) b ->
      linkPrecedence (f a) = primary -> linkPrecedence (f b) = primary -> a = b;
  cs_group_oldest :
    forall a b,
      reachableFrom adjacent tx (directMatchesOf tx email_ phoneNumber_) a ->
      reachableFrom adjacent tx (directMatchesOf tx email_ phoneNumber_) b ->
      linkPrecedence (f a) = primary -> createdAt a <= createdAt b
}.

Section StepInvariant.
Variables tx tx2 : Store.
Variable f : Contact -> Contact.
Variable extra : list Contact.
Variables email_ phoneNumber_ : option string.
Variable now : Z.

Hypothesis step : CallStep tx tx2 f extra email_ phoneNumber_ now.
Hypothesis inv : clusterInvariant tx.

Let seeds := directMatchesOf tx email_ phoneNumber_.
Let inGroup (c : Contact) : Prop := reachableFrom adjacent tx seeds c.

Let f_keys := cs_keys _ _ _ _ _ _ _ step.
Let rows2 := cs_rows _ _ _ _ _ _ _ step.
Let extra_values := cs_values _ _ _ _ _ _ _ step.
Let extra_shape := cs_shape _ _ _ _ _ _ _ step.
Let extra_time := cs_time _ _ _ _ _ _ _ step.
Let f_primary := cs_primary _ _ _ _ _ _ _ step.
Let f_secondary := cs_secondary _ _ _ _ _ _ _ step.
Let extra_primary := cs_extra_primary _ _ _ _ _ _ _ step.
Let extra_secondary := cs_extra_secondary _ _ _ _ _ _ _ step.
Let group_primary := cs_group_primary _ _ _ _ _ _ _ step.
Let group_oldest := cs_group_oldest _ _ _ _ _ _ _ step.

Lemma extra_single (x y : Contact) : In x extra -> In y extra -> x = y.
Proof.
  destruct extra_shape as [[-> _]|(z & -> & _)]; simpl; intros Hx Hy.
  - contradiction.
  - destruct Hx as [<-|[]], Hy as [<-|[]]. reflexivity.
Qed.

Lemma inGroup_absurd (c : Contact) : seeds = [] -> inGroup c -> False.
Proof. unfold inGroup. intros ->. apply reachable_no_seed. Qed.

Lemma step_unique : uniqueIds tx2.
Proof.
  unfold uniqueIds. rewrite rows2, map_app, map_map.
  assert (Hids : map (fun c => id (f c)) (rows tx) = map id (rows tx))
    by (apply map_ext; intros c; apply f_keys).
  rewrite Hids.
  destruct extra_shape as [[-> _]|(x & -> & Hx & _)]; simpl.
  - rewrite app_nil_r. apply inv.
  - apply NoDup_app.
    + apply inv.
    + repeat constructor. intros [].
    + intros i Hi [<-|[]]. apply in_map_iff in Hi. destruct Hi as (c & Hc & Hin).
      pose proof (inv_below inv c Hin). lia.
Qed.

Lemma step_below : idsBelowNext tx2.
Proof.
  intros c Hc. rewrite rows2 in Hc. apply in_app_or in Hc.
  destruct Hc as [Hc|Hc].
  - apply in_map_iff in Hc. destruct Hc as (c0 & <- & Hc0).
    destruct (f_keys c0) as (Hid & _). rewrite Hid.
    pose proof (inv_below inv c0 Hc0).
    destruct extra_shape as [[_ ->]|(x & _ & _ & _ & ->)]; lia.
  - destruct extra_shape as [[-> _]|(x & -> & Hx & _ & ->)]; [destruct Hc|].
    destruct Hc as [<-|[]]. lia.
Qed.

Lemma step_live : noneDeleted tx2.
Proof.
  intros c Hc. rewrite rows2 in Hc. apply in_app_or in Hc.
  destruct Hc as [Hc|Hc].
  - apply in_map_iff in Hc. destruct Hc as (c0 & <- & Hc0).
    destruct (f_keys c0) as (_ & _ & _ & _ & Hd). rewrite Hd.
    apply (inv_live inv c0 Hc0).
  - destruct extra_shape as [[-> _]|(x & -> & _ & Hx & _)]; [destruct Hc|].
    destruct Hc as [<-|[]]. exact Hx.
Qed.

Lemma step_one : atMostOnePrimary tx2.
Proof.
  intros a' b' Ha Hpa Hpb Hab.
  destruct (@live2_cases tx tx2 f extra f_keys rows2 a' Ha)
    as [(a & -> & Hla)|Hextra].
  - destruct (@path_from_old tx tx2 f extra email_ phoneNumber_
                f_keys rows2 extra_values a Hla b' Hab)
      as [(b & -> & Hcb)|(Hga & [Hb|(b & -> & Hgb)])].
    + destruct (f_primary _ Hpa) as [Ea Pa]. destruct (f_primary _ Hpb) as [Eb Pb].
      f_equal. apply (inv_one inv); assumption.
    + exfalso. destruct (extra_primary _ Hb Hpb) as [_ Hs].
      apply (inGroup_absurd a Hs Hga).
    + f_equal. apply group_primary; assumption.
  - destruct (extra_primary _ Hextra Hpa) as [_ Hs].
    destruct (@path_from_new tx tx2 f extra email_ phoneNumber_
                f_keys rows2 extra_values a' Hextra b' Hab)
      as [Hb|(b & -> & Hgb)].
    + apply extra_single; assumption.
    + exfalso. apply (inGroup_absurd b Hs Hgb).
Qed.

Lemma step_primary : primariesUnlinked tx2.
Proof.
  intros c Hc Hp. rewrite rows2 in Hc. apply in_app_or in Hc.
  destruct Hc as [Hc|Hc].
  - apply in_map_iff in Hc. destruct Hc as (c0 & <- & Hc0).
    destruct (f_primary _ Hp) as [E P]. rewrite E.
    apply (inv_primary inv c0 Hc0 P).
  - apply (extra_primary _ Hc Hp).
Qed.

Lemma step_secondary : secondariesLinked tx2.
Proof.
  assert (Hkeep : forall t, In t (rows tx) ->
            In (f t) (rows tx2) /\ id (f t) = id t).
  { intros t Ht. split; [|apply f_keys].
    rewrite rows2. apply in_or_app. left. apply in_map, Ht. }
  intros c Hc Hs. rewrite rows2 in Hc. apply in_app_or in Hc.
  destruct Hc as [Hc|Hc].
  - apply in_map_iff in Hc. destruct Hc as (c0 & <- & Hc0).
    destruct (f_keys c0) as (Hid & _).
    destruct (f_secondary c0 Hc0 Hs) as [[E S]|(t & Ht & Hl & Hne)].
    + destruct (inv_secondary inv c0 Hc0 S) as (t & Ht & Hl & Hne).
      destruct (Hkeep t Ht) as [Hin Hidt].
      exists (f t). rewrite E, Hidt. rewrite E in Hid. auto.
    + destruct (Hkeep t Ht) as [Hin Hidt].
      exists (f t). rewrite Hidt, Hid. auto.
  - destruct (extra_secondary _ Hc Hs) as (t & Ht & Hl).
    destruct (Hkeep t Ht) as [Hin Hidt].
    exists (f t). rewrite Hidt. repeat split; auto.
    pose proof (inv_below inv t Ht).
    destruct extra_shape as [[He _]|(x & He & Hx & _)]; rewrite He in Hc;
      [destruct Hc|].
    destruct Hc as [<-|[]]. lia.
Qed.

Lemma step_invariant : clusterInvariant tx2.
Proof.
  constructor.
  - apply step_unique.
  - apply step_below.
  - apply step_live.
  - apply step_one.
  - apply step_primary.
  - apply step_secondary.
Qed.

(** The same step under an advancing clock. *)
Hypothesis clock_ahead : forall c, In c (rows tx) -> createdAt c < now.
Hypothesis inv_oldest : oldestPrimary tx.
Hypothesis inv_distinct : distinctTimes tx.

Lemma inGroup_rows (c : Contact) : inGroup c -> In c (rows tx).
Proof.
  unfold inGroup. intros H. destruct H as [c Hc|a b _ Hb _].
  - apply directMatches_In in Hc. apply Hc.
  - apply Hb.
Qed.

Lemma step_distinct : distinctTimes tx2.
Proof.
  intros a' b' Ha Hb E. rewrite rows2 in Ha, Hb.
  apply in_app_or in Ha. apply in_app_or in Hb.
  destruct Ha as [Ha|Ha], Hb as [Hb|Hb].
  - apply in_map_iff in Ha. destruct Ha as (a & <- & Ha).
    apply in_map_iff in Hb. destruct Hb as (b & <- & Hb).
    destruct (f_keys a) as (_ & _ & _ & Ta & _).
    destruct (f_keys b) as (_ & _ & _ & Tb & _).
    f_equal. apply inv_distinct; congruence.
  - apply in_map_iff in Ha. destruct Ha as (a & <- & Ha).
    destruct (f_keys a) as (_ & _ & _ & Ta & _).
    pose proof (clock_ahead a Ha). pose proof (extra_time b' Hb). lia.
  - apply in_map_iff in Hb. destruct Hb as (b & <- & Hb).
    destruct (f_keys b) as (_ & _ & _ & Tb & _).
    pose proof (clock_ahead b Hb). pose proof (extra_time a' Ha). lia.
  - apply extra_single; assumption.
Qed.

Lemma step_oldest : oldestPrimary tx2.
Proof.
  intros a' b' Ha Hpa Hab Hne.
  destruct (@live2_cases tx tx2 f extra f_keys rows2 a' Ha)
    as [(a & -> & Hla)|Hextra].
  - destruct (f_primary _ Hpa) as [Ea Pa].
    destruct (f_keys a) as (_ & _ & _ & Ta & _). rewrite Ta.
    destruct (@path_from_old tx tx2 f extra email_ phoneNumber_
                f_keys rows2 extra_values a Hla b' Hab)
      as [(b & -> & Hcb)|(Hga & [Hb|(b & -> & Hgb)])].
    + destruct (f_keys b) as (_ & _ & _ & Tb & _). rewrite Tb.
      apply inv_oldest; try assumption. intros ->. apply Hne. reflexivity.
    + rewrite (extra_time b' Hb). apply clock_ahead, Hla.
    + destruct (f_keys b) as (_ & _ & _ & Tb & _). rewrite Tb.
      pose proof (group_oldest a b Hga Hgb Hpa) as Hle.
      assert (Hd : createdAt a <> createdAt b).
      { intros E. apply Hne. f_equal. symmetry.
        apply inv_distinct; [apply Hla | apply inGroup_rows, Hgb | exact E]. }
      lia.
  - destruct (extra_primary _ Hextra Hpa) as [_ Hs].
    destruct (@path_from_new tx tx2 f extra email_ phoneNumber_
                f_keys rows2 extra_values a' Hextra b' Hab)
      as [Hb|(b & -> & Hgb)].
    + exfalso. apply Hne. apply extra_single; assumption.
    + exfalso. apply (inGroup_absurd b Hs Hgb).
Qed.

End StepInvariant.

Lemma matched_step (now : Z) (tx : Store) (email_ phoneNumber_ : option string)
    (d : Contact) (ds : list Contact) :
  uniqueIds tx ->
  directMatchesOf tx email_ phoneNumber_ = d :: ds ->
  let elected := electedOf tx d ds in
  let others := otherPrimariesOf elected (resolveGroup tx (d :: ds)) in
  exists extra,
    CallStep tx (afterWrite now tx email_ phoneNumber_ d ds)
             (demoteIn elected others) extra email_ phoneNumber_ now.
Proof.
  intros Hu Hd elected others.
  set (group := resolveGroup tx (d :: ds)).
  destruct (afterWrite_shape now tx email_ phoneNumber_ d ds) as (extra & Hrows & Hshape).
  fold elected group others in Hrows, Hshape.
  assert (Hel : live tx elected) by (eapply electedOf_live; eassumption).
  assert (Hextra : forall x, In x extra ->
            x = newSecondary now tx email_ phoneNumber_ elected).
  { intros x Hx. destruct Hshape as [[-> _]|[-> _]]; [destruct Hx|].
    destruct Hx as [<-|[]]. reflexivity. }
  assert (Hgroup : forall c,
            reachableFrom adjacent tx (directMatchesOf tx email_ phoneNumber_) c ->
            In c group).
  { intros c Hc. rewrite Hd in Hc. apply resolveGroup_In.
    apply group_complete; [|exact Hu|exact Hc].
    rewrite <- Hd. apply directMatches_live. }
  assert (Hone : forall a,
            reachableFrom adjacent tx (directMatchesOf tx email_ phoneNumber_) a ->
            linkPrecedence (demoteIn elected others a) = primary -> a = elected).
  { intros a Ha Hpa.
    apply (@unique_row tx); [exact Hu | | apply Hel |].
    - eapply resolveGroup_rows; [exact Hd | apply Hgroup, Ha].
    - apply (group_primary_is_elected tx d ds a); [apply Hgroup, Ha | exact Hpa]. }
  exists extra. constructor.
  - apply demoteIn_keepsKeys.
  - exact Hrows.
  - intros x Hx. rewrite (Hextra x Hx). split; reflexivity.
  - destruct Hshape as [[-> Hn]|[-> Hn]]; [left; auto|].
    right. eexists. repeat split. exact Hn.
  - intros x Hx. rewrite (Hextra x Hx). reflexivity.
  - intros c Hp. apply demoteIn_primary in Hp. tauto.
  - intros c Hc Hs.
    destruct (demoteIn_secondary_cases elected others c Hs)
      as [H|(E & o & Ho & Hid)]; [left; exact H|].
    right. exists elected. split; [apply Hel|]. rewrite E. split; [reflexivity|].
    apply otherPrimaries_In in Ho. destruct Ho as (_ & Hne & _). congruence.
  - intros x Hx Hp. rewrite (Hextra x Hx) in Hp. discriminate.
  - intros x Hx _. rewrite (Hextra x Hx). exists elected. split; [apply Hel | reflexivity].
  - intros a b Ha Hb Hpa Hpb.
    rewrite (Hone a Ha Hpa), (Hone b Hb Hpb). reflexivity.
  - intros a b Ha Hb Hpa. rewrite (Hone a Ha Hpa).
    apply (electedOf_spec tx d ds). apply resolveGroup_In, Hgroup, Hb.
Qed.

Lemma unmatched_step (now : Z) (tx : Store) (email_ phoneNumber_ : option string) :
  directMatchesOf tx email_ phoneNumber_ = [] ->
  CallStep tx
    (mkStore (rows tx ++ [mkContact (nextId tx) email_ phoneNumber_ primary None now None])
             (nextId tx + 1))
    (fun c => c)
    [mkContact (nextId tx) email_ phoneNumber_ primary None now None]
    email_ phoneNumber_ now.
Proof.
  intros Hd. constructor.
  - intros c. auto.
  - simpl. rewrite map_id. reflexivity.
  - intros x [<-|[]]. split; reflexivity.
  - right. eexists. repeat split.
  - intros x [<-|[]]. reflexivity.
  - auto.
  - auto.
  - intros x [<-|[]] _. split; [reflexivity | exact Hd].
  - intros x [<-|[]] Hs. discriminate.
  - intros a b Ha. rewrite Hd in Ha. destruct (reachable_no_seed Ha).
  - intros a b Ha. rewrite Hd in Ha. destruct (reachable_no_seed Ha).
Qed.

Lemma matched_invariant (now : Z) (tx : Store) (email_ phoneNumber_ : option string)
    (d : Contact) (ds : list Contact) :
  clusterInvariant tx ->
  directMatchesOf tx email_ phoneNumber_ = d :: ds ->
  clusterInvariant (afterWrite now tx email_ phoneNumber_ d ds).
Proof.
  intros Hinv Hd.
  destruct (matched_step now tx email_ phoneNumber_ d ds (inv_unique Hinv) Hd)
    as (extra & Hstep).
  exact (step_invariant _ _ _ _ _ _ _ Hstep Hinv).
Qed.

Lemma unmatched_invariant (now : Z) (tx : Store) (email_ phoneNumber_ : option string) :
  clusterInvariant tx ->
  directMatchesOf tx email_ phoneNumber_ = [] ->
  clusterInvariant
    (mkStore (rows tx ++ [mkContact (nextId tx) email_ phoneNumber_ primary None now None])
             (nextId tx + 1)).
Proof.
  intros Hinv Hd.
  exact (step_invariant _ _ _ _ _ _ _ (unmatched_step now tx email_ phoneNumber_ Hd) Hinv).
Qed.

Lemma identifyInTransaction_invariant (now : Z) (tx : Store) (input : IdentifyRequest) :
  clusterInvariant tx ->
  clusterInvariant (fst (identifyInTransaction now tx input)).
Proof.
  intros Hinv.
  destruct (directMatchesOf tx (normalizeEmail (req_email input))
              (normalizePhone (req_phoneNumber input))) as [|d ds] eqn:Hd.
  - rewrite (identifyInTransaction_unmatched now tx input Hd). simpl.
    apply unmatched_invariant; assumption.
  - rewrite (identifyInTransaction_matched now tx input Hd). simpl.
    apply matched_invariant; assumption.
Qed.

Lemma reconcile_store (now : Z) (tx : Store) (input : IdentifyRequest) :
  store (reconcile now tx input) =
  if validateInput input then fst (identifyInTransaction now tx input) else tx.
Proof.
  unfold reconcile, identifyContact. destruct (validateInput input); [|reflexivity].
  simpl. destruct (identifyInTransaction now tx input). reflexivity.
Qed.

Lemma reconcile_result (now : Z) (tx : Store) (input : IdentifyRequest) :
  validateInput input = true ->
  result (reconcile now tx input) = inr (snd (identifyInTransaction now tx input)).
Proof.
  intros Hv. unfold reconcile, identifyContact. rewrite Hv.
  simpl. destruct (identifyInTransaction now tx input). reflexivity.
Qed.

Lemma emptyStore_invariant : clusterInvariant emptyStore.
Proof.
  constructor.
  - constructor.
  - intros c [].
  - intros c [].
  - intros a b [[] _].
  - intros c [].
  - intros c [].
Qed.

Lemma run_invariant (calls : list (Z * IdentifyRequest)) (s : Store) :
  clusterInvariant s -> clusterInvariant (run calls s).
Proof.
  revert s. induction calls as [|[now input] calls IH]; intros s Hs; simpl.
  - exact Hs.
  - apply IH. rewrite reconcile_store.
    destruct (validateInput input); [|exact Hs].
    apply identifyInTransaction_invariant, Hs.
Qed.

(* ===================================================================== *)
(** * The cluster invariant *)
(* ===================================================================== *)

(** The invariant in the words of the specification. *)
Definition specOnePrimary (tx : Store) : Prop :=
  forall a, live tx a ->
    exists p, connected tx a p /\ linkPrecedence p = primary /\
      (forall q, connected tx a q -> linkPrecedence q = primary -> q = p) /\
      (forall m, connected tx a m -> m <> p -> linkedId m = Some (id p)).

Definition specNoChains (tx : Store) : Prop :=
  forall c t, In c (rows tx) -> In t (rows tx) ->
    linkedId c = Some (id t) -> linkPrecedence t <> secondary.

Definition specClusterInvariant (tx : Store) : Prop :=
  specOnePrimary tx /\ specNoChains tx.

(** Two primaries, a secondary of the younger one, then a call that joins
    the two clusters. *)
Definition chainStore : Store :=
  run [(10, req "e1" ""); (20, req "e2" ""); (30, req "e2" "p3"); (40, req "e1" "p3")]
      emptyStore.

Definition chainP2 : Contact := mkContact 2 (Some "e2") None secondary (Some 1) 20 None.
Definition chainS3 : Contact :=
  mkContact 3 (Some "e2") (Some "p3") secondary (Some 2) 30 None.

Lemma strayP2_alone (p : Contact) : connected strayStore strayP2 p -> p = strayP2.
Proof.
  induction 1 as [c Hc|a b _ IH Hb Hadj].
  - destruct Hc as [<-|[]]. reflexivity.
  - subst a. destruct Hb as [Hb _]. vm_compute in Hb.
    destruct Hb as [<-|[<-|[]]]; [|reflexivity].
    exfalso. destruct Hadj as [(e & _ & H & _)|(q & _ & _ & H)]; discriminate.
Qed.

(** C4, refuted as worded.  After [a@x.com], then [+1555], then both
    together, row 2 is a secondary that shares no value with row 1: its
    cluster is itself and holds no primary.  And in [chainStore] row 3 is
    linked to row 2, which the last call turned into a secondary. *)
Lemma C4_counterexample :
  rows strayStore = [strayP1; strayP2] /\
  ~ specOnePrimary strayStore /\
  ~ specClusterInvariant strayStore /\
  In chainS3 (rows chainStore) /\ In chainP2 (rows chainStore) /\
  ~ specNoChains chainStore /\
  ~ specClusterInvariant chainStore.
Proof.
  assert (H1 : ~ specOnePrimary strayStore).
  { intros H. destruct (H strayP2) as (p & Hc & Hp & _).
    - split; [vm_compute; right; left; reflexivity | reflexivity].
    - apply strayP2_alone in Hc. subst p. discriminate. }
  assert (H3 : In chainS3 (rows chainStore))
    by (vm_compute; right; right; left; reflexivity).
  assert (H2 : In chainP2 (rows chainStore))
    by (vm_compute; right; left; reflexivity).
  assert (H4 : ~ specNoChains chainStore).
  { intros H. apply (H chainS3 chainP2 H3 H2); reflexivity. }
  split; [vm_compute; reflexivity|].
  split; [exact H1|]. split; [intros [H _]; exact (H1 H)|].
  split; [exact H3|]. split; [exact H2|]. split; [exact H4|].
  intros [_ H]. exact (H4 H).
Qed.

(** C4, amended.  In every store reached from the empty store by a sequence
    of calls (whatever the clock reads): identifiers are unique; a cluster of
    contacts holds at most one contact with [linkPrecedence = primary]; a
    primary has no [linkedId]; a secondary's [linkedId] is the id of another
    contact of the table (which may itself be a secondary, and need not
    share a value with it). *)
Theorem C4_cluster_invariant_of_reachable_stores (calls : list (Z * IdentifyRequest)) :
  let tx := run calls emptyStore in
  uniqueIds tx /\
  atMostOnePrimary tx /\
  primariesUnlinked tx /\
  secondariesLinked tx.
Proof.
  intros tx.
  assert (H : clusterInvariant tx) by apply run_invariant, emptyStore_invariant.
  destruct H. auto.
Qed.

(* ===================================================================== *)
(** * Stores built under an advancing clock *)
(* ===================================================================== *)

(** Every call reads a clock later than every [createdAt] already stored. *)
Fixpoint chronological (calls : list (Z * IdentifyRequest)) (s : Store) : Prop :=
  match calls with
  | [] => True
  | (now, input) :: rest =>
      (forall c, In c (rows s) -> createdAt c < now) /\
      chronological rest (store (reconcile now s input))
  end.

Record chronInvariant (tx : Store) : Prop := mkChronInvariant {
  chron_cluster : clusterInvariant tx;
  chron_oldest : oldestPrimary tx;
  chron_distinct : distinctTimes tx
}.

Lemma identifyInTransaction_chron (now : Z) (tx : Store) (input : IdentifyRequest) :
  chronInvariant tx ->
  (forall c, In c (rows tx) -> createdAt c < now) ->
  chronInvariant (fst (identifyInTransaction now tx input)).
Proof.
  intros [Hinv Hold Hdist] Hclock.
  destruct (directMatchesOf tx (normalizeEmail (req_email input))
              (normalizePhone (req_phoneNumber input))) as [|d ds] eqn:Hd.
  - rewrite (identifyInTransaction_unmatched now tx input Hd). simpl.
    pose proof (unmatched_step now tx _ _ Hd) as Hstep.
    constructor.
    + exact (step_invariant _ _ _ _ _ _ _ Hstep Hinv).
    + exact (step_oldest _ _ _ _ _ _ _ Hstep Hclock Hold Hdist).
    + exact (step_distinct _ _ _ _ _ _ _ Hstep Hclock Hdist).
  - rewrite (identifyInTransaction_matched now tx input Hd). simpl.
    destruct (matched_step now tx _ _ d ds (inv_unique Hinv) Hd) as (extra & Hstep).
    constructor.
    + exact (step_invariant _ _ _ _ _ _ _ Hstep Hinv).
    + exact (step_oldest _ _ _ _ _ _ _ Hstep Hclock Hold Hdist).
    + exact (step_distinct _ _ _ _ _ _ _ Hstep Hclock Hdist).
Qed.

Lemma emptyStore_chron : chronInvariant emptyStore.
Proof.
  constructor.
  - apply emptyStore_invariant.
  - intros a b [[] _].
  - intros a b [].
Qed.

Lemma run_chron (calls : list (Z * IdentifyRequest)) (s : Store) :
  chronInvariant s -> chronological calls s -> chronInvariant (run calls s).
Proof.
  revert s. induction calls as [|[now input] calls IH]; intros s Hs Hc; simpl.
  - exact Hs.
  - destruct Hc as [Hclock Hrest]. apply IH; [|exact Hrest].
    rewrite reconcile_store.
    destruct (validateInput input); [|exact Hs].
    apply identifyInTransaction_chron; assumption.
Qed.

(* ===================================================================== *)
(** * Merging two primaries *)
(* ===================================================================== *)

Lemma reach_some_seed (tx : Store) (seeds : list Contact) (c : Contact) :
  reachableFrom adjacent tx seeds c ->
  exists s, In s seeds /\ connected tx s c.
Proof.
  induction 1 as [c Hc|a b _ (s & Hs & Hsa) Hb Hadj].
  - exists c. split; [exact Hc | apply connected_refl].
  - exists s. split; [exact Hs|]. eapply reach_step; eassumption.
Qed.

(** The direct matches of a request lie in at most two clusters: the
    matches on the e-mail are adjacent to one another, and so are the matches
    on the phone number. *)
Definition matchesEmail (email_ : option string) (c : Contact) : Prop :=
  exists e, email_ = Some e /\ JS.nonEmpty e = true /\ email c = Some e.

Definition matchesPhone (phoneNumber_ : option string) (c : Contact) : Prop :=
  exists p, phoneNumber_ = Some p /\ JS.nonEmpty p = true /\ phoneNumber c = Some p.

Lemma same_email_connected (tx : Store) (email_ : option string) (s s' : Contact) :
  live tx s' -> matchesEmail email_ s -> matchesEmail email_ s' -> connected tx s s'.
Proof.
  intros Hl (e & He & Hne & Hs) (e' & He' & _ & Hs').
  apply reach_step with (a := s); [apply connected_refl | exact Hl |].
  left. exists e. repeat split; congruence.
Qed.

Lemma same_phone_connected (tx : Store) (phoneNumber_ : option string) (s s' : Contact) :
  live tx s' -> matchesPhone phoneNumber_ s -> matchesPhone phoneNumber_ s' ->
  connected tx s s'.
Proof.
  intros Hl (e & He & Hne & Hs) (e' & He' & _ & Hs').
  apply reach_step with (a := s); [apply connected_refl | exact Hl |].
  right. exists e. repeat split; congruence.
Qed.

(** Between two primaries of a resolved group, the older one is elected. *)
Lemma elected_of_two_primaries (tx : Store) (email_ phoneNumber_ : option string)
    (d : Contact) (ds : list Contact) (P1 P2 : Contact) :
  chronInvariant tx ->
  directMatchesOf tx email_ phoneNumber_ = d :: ds ->
  In P1 (resolveGroup tx (d :: ds)) -> In P2 (resolveGroup tx (d :: ds)) ->
  linkPrecedence P1 = primary -> linkPrecedence P2 = primary ->
  createdAt P1 < createdAt P2 ->
  electedOf tx d ds = P1.
Proof.
  intros [Hinv Hold Hdist] Hd H1 H2 Hp1 Hp2 Hlt.
  set (e := electedOf tx d ds).
  destruct (electedOf_spec tx d ds) as (He & _ & Hmin). fold e in He, Hmin.
  assert (Hseeds : Forall (live tx) (d :: ds))
    by (rewrite <- Hd; apply directMatches_live).
  assert (Hfrom : forall c, In c (resolveGroup tx (d :: ds)) ->
            live tx c /\
            exists s, live tx s /\ matchesSeed email_ phoneNumber_ s /\ connected tx s c).
  { intros c Hc. split; [eapply resolveGroup_rows; eassumption|].
    apply resolveGroup_In in Hc. apply group_sound in Hc.
    apply reach_some_seed in Hc. destruct Hc as (s & Hs & Hsc).
    rewrite <- Hd in Hs. apply directMatches_In in Hs.
    exists s. tauto. }
  destruct (Hfrom P1 H1) as (Hl1 & s1 & Hls1 & Hm1 & Hc1).
  destruct (Hfrom P2 H2) as (Hl2 & s2 & Hls2 & Hm2 & Hc2).
  destruct (Hfrom e (proj2 (resolveGroup_In tx (d :: ds) e) He))
    as (Hle & s3 & Hls3 & Hm3 & Hc3).
  assert (Hsep : ~ connected tx s1 s2).
  { intros H12. assert (P1 = P2); [|subst; lia].
    apply (inv_one Hinv); try assumption.
    apply connected_trans with (b := s1); [apply connected_sym; assumption|].
    apply connected_trans with (b := s2); assumption. }
  assert (Hvia1 : connected tx s1 s3 -> e = P1).
  { intros H13.
    assert (Hpe : connected tx P1 e).
    { apply connected_trans with (b := s1); [apply connected_sym; assumption|].
      apply connected_trans with (b := s3); assumption. }
    destruct (Z.eq_dec (createdAt e) (createdAt P1)) as [E|E].
    - apply Hdist; [apply Hle | apply Hl1 | exact E].
    - exfalso.
      assert (Hne : e <> P1) by (intros ->; apply E; reflexivity).
      pose proof (Hold P1 e Hl1 Hp1 Hpe Hne).
      pose proof (Hmin P1 (proj1 (resolveGroup_In tx (d :: ds) P1) H1)). lia. }
  assert (Hvia2 : connected tx s2 s3 -> e = P1).
  { intros H23. exfalso.
    assert (Hpe : connected tx P2 e).
    { apply connected_trans with (b := s2); [apply connected_sym; assumption|].
      apply connected_trans with (b := s3); assumption. }
    pose proof (Hmin P1 (proj1 (resolveGroup_In tx (d :: ds) P1) H1)) as Hm.
    destruct (Z.eq_dec (createdAt e) (createdAt P2)) as [E|E]; [lia|].
    assert (Hne : e <> P2) by (intros ->; apply E; reflexivity).
    pose proof (Hold P2 e Hl2 Hp2 Hpe Hne). lia. }
  destruct Hm1 as [M1|M1], Hm2 as [M2|M2].
  - exfalso. apply Hsep. eapply same_email_connected; eassumption.
  - destruct Hm3 as [M3|M3].
    + apply Hvia1. eapply same_email_connected; eassumption.
    + apply Hvia2. eapply same_phone_connected; eassumption.
  - destruct Hm3 as [M3|M3].
    + apply Hvia2. eapply same_email_connected; eassumption.
    + apply Hvia1. eapply same_phone_connected; eassumption.
  - exfalso. apply Hsep. eapply same_phone_connected; eassumption.
Qed.

Lemma matched_input_valid (tx : Store) (input : IdentifyRequest)
    (d : Contact) (ds : list Contact) :
  directMatchesOf tx (normalizeEmail (req_email input))
                     (normalizePhone (req_phoneNumber input)) = d :: ds ->
  validateInput input = true.
Proof.
  intros Hd.
  assert (Hin : In d (directMatchesOf tx (normalizeEmail (req_email input))
                        (normalizePhone (req_phoneNumber input))))
    by (rewrite Hd; left; reflexivity).
  apply directMatches_In in Hin. destruct Hin as [_ Hm].
  unfold validateInput.
  destruct Hm as [(e & He & Hne & _)|(p & Hp & Hne & _)].
  - rewrite He. simpl. rewrite Hne. reflexivity.
  - rewrite Hp. simpl. rewrite Hne. apply negb_true_iff, andb_false_r.
Qed.

(** Three calls, the first two within the same clock reading: a primary,
    a secondary of it with the same [createdAt], and a second primary. *)
Definition sameMsStore : Store :=
  run [(5, req "e1" ""); (5, req "e1" "p"); (6, req "e2" "")] emptyStore.

Definition sameMsP1 : Contact := mkContact 1 (Some "e1") None primary None 5 None.
Definition sameMsS2 : Contact :=
  mkContact 2 (Some "e1") (Some "p") secondary (Some 1) 5 None.
Definition sameMsP2 : Contact := mkContact 3 (Some "e2") None primary None 6 None.

(** C2, the code at the failing input.  [sameMsP1] and [sameMsP2] are
    primaries of [sameMsStore], the first created strictly earlier, and the
    request for ["e2"] and ["p"] resolves a group that holds both.  The claim
    asks for id 1 as the primary and for row 3 to be linked to it.  The
    election compares [createdAt] alone and keeps the first member it met
    among the oldest: the secondary [sameMsS2], as old as [sameMsP1] to the
    millisecond, is met first and elected.  The response names id 2; the
    older primary is demoted under its own secondary, so rows 1 and 2 point
    at each other, and no row of the table is a primary any more. *)
Lemma C2_code_at_failing_input :
  rows sameMsStore = [sameMsP1; sameMsS2; sameMsP2] /\
  linkPrecedence sameMsP1 = primary /\ linkPrecedence sameMsP2 = primary /\
  createdAt sameMsP1 < createdAt sameMsP2 /\
  directMatchesOf sameMsStore (Some "e2") (Some "p") = [sameMsS2; sameMsP2] /\
  In sameMsP1 (resolveGroup sameMsStore [sameMsS2; sameMsP2]) /\
  In sameMsP2 (resolveGroup sameMsStore [sameMsS2; sameMsP2]) /\
  result (reconcile 7 sameMsStore (req "e2" "p"))
  = inr (mkResponse 2 ["e1"; "e2"] ["p"] [1; 3]) /\
  rows (store (reconcile 7 sameMsStore (req "e2" "p")))
  = [mkContact 1 (Some "e1") None secondary (Some 2) 5 None;
     mkContact 2 (Some "e1") (Some "p") secondary (Some 1) 5 None;
     mkContact 3 (Some "e2") None secondary (Some 2) 6 None] /\
  (forall c, In c (rows (store (reconcile 7 sameMsStore (req "e2" "p")))) ->
             linkPrecedence c = secondary) /\
  ~ (exists response,
       result (reconcile 7 sameMsStore (req "e2" "p")) = inr response /\
       primaryContatctId response = id sameMsP1).
Proof.
  assert (Hr : result (reconcile 7 sameMsStore (req "e2" "p"))
               = inr (mkResponse 2 ["e1"; "e2"] ["p"] [1; 3]))
    by (vm_compute; reflexivity).
  assert (Hs : rows (store (reconcile 7 sameMsStore (req "e2" "p")))
               = [mkContact 1 (Some "e1") None secondary (Some 2) 5 None;
                  mkContact 2 (Some "e1") (Some "p") secondary (Some 1) 5 None;
                  mkContact 3 (Some "e2") None secondary (Some 2) 6 None])
    by (vm_compute; reflexivity).
  split; [vm_compute; reflexivity|].
  split; [reflexivity|]. split; [reflexivity|]. split; [reflexivity|].
  split; [vm_compute; reflexivity|].
  split; [vm_compute; right; left; reflexivity|].
  split; [vm_compute; right; right; left; reflexivity|].
  split; [exact Hr|].
  split; [exact Hs|].
  split.
  - intros c Hc. rewrite Hs in Hc.
    destruct Hc as [<-|[<-|[<-|[]]]]; reflexivity.
  - intros (response & H1 & H2). rewrite Hr in H1. injection H1 as <-.
    discriminate H2.
Qed.

(** Where the code does keep the older primary.  Take a store built from
    the empty store by calls made under an advancing clock (each call reads a
    clock later than every stored [createdAt], so no two contacts share one),
    two of its contacts [P1] and [P2] both marked primary, [P1] created
    earlier, and a call whose resolved group contains both.  The call answers
    with [P1]'s id as the primary id, and rewrites [P2]'s row in place to
    [linkPrecedence = secondary], [linkedId = P1.id]. *)
Theorem oldest_primary_wins_under_advancing_clock
    (calls : list (Z * IdentifyRequest)) (now : Z) (input : IdentifyRequest)
    (d : Contact) (ds : list Contact) (P1 P2 : Contact) :
  let tx := run calls emptyStore in
  chronological calls emptyStore ->
  directMatchesOf tx (normalizeEmail (req_email input))
                     (normalizePhone (req_phoneNumber input)) = d :: ds ->
  In P1 (resolveGroup tx (d :: ds)) ->
  In P2 (resolveGroup tx (d :: ds)) ->
  linkPrecedence P1 = primary ->
  linkPrecedence P2 = primary ->
  createdAt P1 < createdAt P2 ->
  let outcome := reconcile now tx input in
  (exists response,
     result outcome = inr response /\ primaryContatctId response = id P1) /\
  (forall i, nth_error (rows tx) i = Some P2 ->
             nth_error (rows (store outcome)) i = Some (demote (id P1) P2)) /\
  (exists P2', In P2' (rows (store outcome)) /\ id P2' = id P2 /\
               email P2' = email P2 /\ phoneNumber P2' = phoneNumber P2 /\
               linkPrecedence P2' = secondary /\ linkedId P2' = Some (id P1)).
Proof.
  intros tx Hchron Hd H1 H2 Hp1 Hp2 Hlt outcome.
  assert (Hinv : chronInvariant tx)
    by (apply run_chron; [apply emptyStore_chron | exact Hchron]).
  pose proof (elected_of_two_primaries tx _ _ d ds P1 P2 Hinv Hd H1 H2 Hp1 Hp2 Hlt)
    as Hel.
  pose proof (matched_input_valid tx input d ds Hd) as Hv.
  assert (Hu : uniqueIds tx) by apply Hinv.
  assert (Hrows2 : In P2 (rows tx)) by (eapply resolveGroup_rows; eassumption).
  assert (Hrows1 : In P1 (rows tx)) by (eapply resolveGroup_rows; eassumption).
  assert (Hne : id P2 <> id P1).
  { intros E. assert (P2 = P1) by (apply (@unique_row tx); assumption).
    subst. lia. }
  assert (Hupd : forall i, nth_error (rows tx) i = Some P2 ->
            nth_error (rows (store outcome)) i = Some (demote (id P1) P2)).
  { intros i Hi. unfold outcome. rewrite reconcile_store, Hv.
    pose proof (@arbiter_frame now tx input d ds Hu Hd i P2 Hi) as [Hyes _].
    rewrite Hel in Hyes. apply Hyes. auto. }
  split; [|split; [exact Hupd|]].
  - exists (snd (identifyInTransaction now tx input)). split.
    + apply reconcile_result, Hv.
    + rewrite (identifyInTransaction_matched now tx input Hd).
      cbn [snd]. rewrite project_primaryId, Hel. reflexivity.
  - apply In_nth_error in Hrows2. destruct Hrows2 as [i Hi].
    exists (demote (id P1) P2). split; [|simpl; auto].
    apply nth_error_In with (n := i). apply Hupd, Hi.
Qed.

Definition twoStore : Store := run [(10, req "e1" ""); (20, req "" "p2")] emptyStore.

Definition twoP1 : Contact := mkContact 1 (Some "e1") None primary None 10 None.
Definition twoP2 : Contact := mkContact 2 None (Some "p2") primary None 20 None.

Lemma oldest_primary_wins_example :
  (exists response,
     result (reconcile 30 twoStore (req "e1" "p2")) = inr response /\
     primaryContatctId response = 1) /\
  (forall i, nth_error (rows twoStore) i = Some twoP2 ->
             nth_error (rows (store (reconcile 30 twoStore (req "e1" "p2")))) i
             = Some (demote 1 twoP2)) /\
  (exists P2', In P2' (rows (store (reconcile 30 twoStore (req "e1" "p2")))) /\
               id P2' = 2 /\ email P2' = None /\ phoneNumber P2' = Some "p2" /\
               linkPrecedence P2' = secondary /\ linkedId P2' = Some 1).
Proof.
  apply (oldest_primary_wins_under_advancing_clock
           [(10, req "e1" ""); (20, req "" "p2")] 30 (req "e1" "p2")
           twoP1 [twoP2] twoP1 twoP2).
  - split; [intros c []|]. split; [|exact I].
    intros c Hc. vm_compute in Hc. destruct Hc as [<-|[]]. reflexivity.
  - vm_compute. reflexivity.
  - vm_compute. left. reflexivity.
  - vm_compute. right. left. reflexivity.
  - reflexivity.
  - reflexivity.
  - reflexivity.
Defined.

(* ===================================================================== *)
(** * Repeating a call *)
(* ===================================================================== *)

(** ** List facts used to replay the first run inside the second *)

Lemma filter_of_map (p : Contact -> bool) (f : Contact -> Contact) (l : list Contact) :
  filter p (map f l) = map f (filter (fun c => p (f c)) l).
Proof.
  induction l as [|c l IH]; simpl; [reflexivity|].
  destruct (p (f c)); simpl; rewrite IH; reflexivity.
Qed.

Lemma filter_none (p : Contact -> bool) (l : list Contact) :
  (forall c, In c l -> p c = false) -> filter p l = [].
Proof.
  induction l as [|c l IH]; simpl; intros H; [reflexivity|].
  rewrite (H c (or_introl eq_refl)). apply IH. intros x Hx. apply H. right. exact Hx.
Qed.

Lemma bool_eq_of_iff (b1 b2 : bool) : (b1 = true <-> b2 = true) -> b1 = b2.
Proof.
  destruct b1, b2; intros [H1 H2]; try reflexivity.
  - symmetry. apply H1. reflexivity.
  - apply H2. reflexivity.
Qed.

Lemma insertBy_of_map (f : Contact -> Contact) (x : Contact) (l : list Contact) :
  (forall c, createdAt (f c) = createdAt c) ->
  JS.insertBy (JS.cmpLt createdAt) (f x) (map f l)
  = map f (JS.insertBy (JS.cmpLt createdAt) x l).
Proof.
  intros Hk. induction l as [|y l IH]; simpl; [reflexivity|].
  unfold JS.cmpLt at 1 3. rewrite !Hk.
  destruct (createdAt x <? createdAt y); simpl; [reflexivity|].
  rewrite IH. reflexivity.
Qed.

Lemma sort_of_map (f : Contact -> Contact) (l : list Contact) :
  (forall c, createdAt (f c) = createdAt c) ->
  orderByCreatedAt (map f l) = map f (orderByCreatedAt l).
Proof.
  intros Hk. unfold orderByCreatedAt, JS.sort.
  change (@nil Contact) with (map f []) at 1. generalize (@nil Contact).
  induction l as [|y l IH]; intros acc; simpl; [reflexivity|].
  rewrite (insertBy_of_map f y acc Hk). apply IH.
Qed.

(** Rows appended with a [createdAt] no earlier than the rest sort last. *)
Lemma sort_late_rows (l extra : list Contact) (now : Z) :
  (forall c, In c l -> createdAt c <= now) ->
  (extra = [] \/ exists x, extra = [x] /\ createdAt x = now) ->
  orderByCreatedAt (l ++ extra) = orderByCreatedAt l ++ extra.
Proof.
  intros Hl [->|(x & -> & Hx)].
  - rewrite !app_nil_r. reflexivity.
  - unfold orderByCreatedAt. rewrite sort_snoc. apply insertBy_last.
    rewrite Forall_forall. intros y Hy. apply sort_In in Hy.
    rewrite Hx. apply Hl, Hy.
Qed.

Lemma pick_result_In (l : list Contact) (a : Contact) :
  In (fold_left (pickEarlier createdAt) l a) (a :: l).
Proof.
  revert a. induction l as [|y l IH]; intros a; simpl; [auto|].
  destruct (IH (pickEarlier createdAt a y)) as [H|H].
  - rewrite <- H. unfold pickEarlier. destruct (createdAt y <? createdAt a); auto.
  - right. right. exact H.
Qed.

Lemma pick_of_map (f : Contact -> Contact) (l : list Contact) (a : Contact) :
  (forall c, createdAt (f c) = createdAt c) ->
  fold_left (pickEarlier createdAt) (map f l) (f a)
  = f (fold_left (pickEarlier createdAt) l a).
Proof.
  intros Hk. revert a. induction l as [|y l IH]; intros a; simpl; [reflexivity|].
  rewrite <- IH. f_equal. unfold pickEarlier. rewrite !Hk.
  destruct (createdAt y <? createdAt a); reflexivity.
Qed.

(** The election loop walks past rows that are not earlier than everything
    before them. *)
Lemma pick_skips_late (l1 extra l2 : list Contact) (a : Contact) (now : Z) :
  (forall c, In c (a :: l1) -> createdAt c <= now) ->
  (forall x, In x extra -> createdAt x = now) ->
  fold_left (pickEarlier createdAt) (l1 ++ extra ++ l2) a
  = fold_left (pickEarlier createdAt) (l1 ++ l2) a.
Proof.
  intros Hl Hx. rewrite !fold_left_app. f_equal.
  pose proof (pick_result_In l1 a) as Hin.
  set (p := fold_left (pickEarlier createdAt) l1 a) in *.
  assert (Hp : createdAt p <= now) by (apply Hl, Hin).
  clear Hin. induction extra as [|x extra IH]; simpl; [reflexivity|].
  assert (E : pickEarlier createdAt p x = p).
  { unfold pickEarlier.
    assert (E : (createdAt x <? createdAt p) = false)
      by (apply Z.ltb_ge; rewrite (Hx x (or_introl eq_refl)); exact Hp).
    rewrite E. reflexivity. }
  rewrite E. apply IH. intros y Hy. apply Hx. right. exact Hy.
Qed.

(** Once a round is empty the loop has stopped there. *)
Lemma iter_closed_stays (tx : Store) (g : list Contact) (k : nat) :
  nextRound tx g = [] -> Nat.iter k (expandRound tx) g = g.
Proof.
  intros Hc. induction k as [|k IH]; simpl; [reflexivity|].
  rewrite IH. unfold expandRound. rewrite Hc. apply app_nil_r.
Qed.

Lemma expandGroup_fix (tx : Store) (g : list Contact) (n : nat) :
  nextRound tx (Nat.iter n (expandRound tx) g) = [] ->
  expandGroup tx g (map id g) = Nat.iter n (expandRound tx) g.
Proof.
  intros Hn. destruct (expandGroup_rounds tx g) as (m & _ & -> & Hm).
  destruct (Nat.le_ge_cases m n) as [Hle|Hle].
  - replace n with ((n - m) + m)%nat by lia.
    rewrite Nat.iter_add. symmetry. apply iter_closed_stays, Hm.
  - replace m with ((m - n) + n)%nat by lia.
    rewrite Nat.iter_add. apply iter_closed_stays, Hn.
Qed.

Lemma expansionQuery_spec (g : list Contact) (ids : list Z) (c : Contact) :
  expansionQuery g ids c = true <->
  notDeleted c = true /\ ~ In (id c) ids /\ exists a, In a g /\ adjacent a c.
Proof.
  unfold expansionQuery. rewrite !andb_true_iff, expansionConditions_spec.
  unfold idNotIn. rewrite negb_true_iff, hasNum_false. tauto.
Qed.

(** ** The second run replays the first *)

Lemma seedQuery_spec (email_ phoneNumber_ : option string) (c : Contact) :
  seedQuery email_ phoneNumber_ c = true <->
  notDeleted c = true /\ matchesSeed email_ phoneNumber_ c.
Proof. unfold seedQuery. rewrite andb_true_iff, seedConditions_spec. reflexivity. Qed.

Lemma matchesSeed_same_values (email_ phoneNumber_ : option string) (c c' : Contact) :
  email c' = email c -> phoneNumber c' = phoneNumber c ->
  matchesSeed email_ phoneNumber_ c -> matchesSeed email_ phoneNumber_ c'.
Proof.
  intros E P [(e & H1 & H2 & H3)|(p & H1 & H2 & H3)]; [left|right].
  - exists e. rewrite E. auto.
  - exists p. rewrite P. auto.
Qed.

Section Replay.
Variable tx : Store.
Variables email_ phoneNumber_ : option string.
Variable d : Contact.
Variable ds : list Contact.
Variable now1 : Z.

Hypothesis Hd : directMatchesOf tx email_ phoneNumber_ = d :: ds.
Hypothesis below : idsBelowNext tx.
Hypothesis clock : forall c, In c (rows tx) -> createdAt c <= now1.

Let seeds := d :: ds.
Let elected := electedOf tx d ds.
Let others := otherPrimariesOf elected (resolveGroup tx seeds).
Let f := demoteIn elected others.
Let newRow := newSecondary now1 tx email_ phoneNumber_ elected.

(** The store left by the first run: the arbiter's rewriting of every row,
    followed by [extra], which is empty or the new secondary. *)
Variable tx1 : Store.
Variable extra : list Contact.
Hypothesis rows1 : rows tx1 = map f (rows tx) ++ extra.
Hypothesis shape1 : extra = [] \/ extra = [newRow].

Let f_keys : keepsKeys f := demoteIn_keepsKeys elected others.

Lemma extra_is_newRow (x : Contact) : In x extra -> x = newRow.
Proof.
  destruct shape1 as [->| ->]; simpl; [intros [] | intros [<-|[]]; reflexivity].
Qed.

Lemma seeds_in_rows (c : Contact) : In c seeds -> live tx c.
Proof.
  intros Hc. unfold seeds in Hc. rewrite <- Hd in Hc.
  apply directMatches_In in Hc. tauto.
Qed.

Lemma request_matches_newRow : matchesSeed email_ phoneNumber_ newRow.
Proof.
  assert (Hin : In d (directMatchesOf tx email_ phoneNumber_))
    by (rewrite Hd; left; reflexivity).
  apply directMatches_In in Hin. destruct Hin as [_ Hm].
  destruct Hm as [(e & H1 & H2 & _)|(p & H1 & H2 & _)]; [left|right].
  - exists e. auto.
  - exists p. auto.
Qed.

(** The direct matches of the second run. *)
Lemma replay_directMatches :
  directMatchesOf tx1 email_ phoneNumber_ = map f seeds ++ extra.
Proof.
  change (directMatchesOf tx1 email_ phoneNumber_)
    with (orderByCreatedAt (filter (seedQuery email_ phoneNumber_) (rows tx1))).
  rewrite rows1, filter_app, filter_of_map.
  assert (H1 : filter (fun c => seedQuery email_ phoneNumber_ (f c)) (rows tx)
               = filter (seedQuery email_ phoneNumber_) (rows tx)).
  { apply filter_ext. intros c. destruct (f_keys c) as (_ & E & P & _ & D).
    apply bool_eq_of_iff. rewrite !seedQuery_spec. unfold notDeleted. rewrite D.
    split; intros [H H']; (split; [exact H|]);
      eapply matchesSeed_same_values; try eassumption; congruence. }
  assert (H2 : filter (seedQuery email_ phoneNumber_) extra = extra).
  { destruct shape1 as [->| ->]; simpl; [reflexivity|].
    assert (E : seedQuery email_ phoneNumber_ newRow = true).
    { apply seedQuery_spec. split; [reflexivity | apply request_matches_newRow]. }
    rewrite E. reflexivity. }
  rewrite H1, H2.
  rewrite (sort_late_rows _ extra now1).
  - rewrite sort_of_map by (intros c; apply f_keys).
    change (orderByCreatedAt (filter (seedQuery email_ phoneNumber_) (rows tx)))
      with (directMatchesOf tx email_ phoneNumber_).
    rewrite Hd. reflexivity.
  - intros c Hc. apply in_map_iff in Hc. destruct Hc as (c0 & <- & Hc0).
    apply filter_In in Hc0. destruct (f_keys c0) as (_ & _ & _ & T & _).
    rewrite T. apply clock. tauto.
  - destruct shape1 as [->| ->]; [left; reflexivity|].
    right. exists newRow. split; reflexivity.
Qed.

(** The group of the second run after the rounds that added [later] in the
    first run. *)
Definition embed (later : list Contact) : list Contact :=
  (map f seeds ++ extra) ++ map f later.

Lemma embed_In (later : list Contact) (c' : Contact) :
  In c' (embed later) <->
  (exists c, In c (seeds ++ later) /\ c' = f c) \/ In c' extra.
Proof.
  unfold embed. rewrite !in_app_iff, !in_map_iff. split.
  - intros [[(c & <- & Hc)|H]|(c & <- & Hc)].
    + left. exists c. rewrite in_app_iff. auto.
    + right. exact H.
    + left. exists c. rewrite in_app_iff. auto.
  - intros [(c & Hc & ->)|H]; [|auto].
    apply in_app_iff in Hc. destruct Hc as [Hc|Hc].
    + left. left. exists c. auto.
    + right. exists c. auto.
Qed.

Lemma embed_ids (later : list Contact) (c : Contact) :
  In c (rows tx) ->
  (In (id c) (map id (embed later)) <-> In (id c) (map id (seeds ++ later))).
Proof.
  intros Hc. rewrite !in_map_iff. split.
  - intros (c' & Hid & Hin). apply embed_In in Hin.
    destruct Hin as [(c0 & Hc0 & ->)|Hx].
    + exists c0. destruct (f_keys c0) as (I & _). split; [congruence | exact Hc0].
    + exfalso. rewrite (extra_is_newRow c' Hx) in Hid. simpl in Hid.
      pose proof (below c Hc). lia.
  - intros (c0 & Hid & Hc0). exists (f c0).
    destruct (f_keys c0) as (I & _). split; [congruence|].
    apply embed_In. left. exists c0. auto.
Qed.

(** A round of the second run finds the rows the first run found. *)
Lemma replay_round (later : list Contact) :
  nextRound tx1 (embed later) = map f (nextRound tx (seeds ++ later)).
Proof.
  unfold nextRound, findMany. rewrite rows1, filter_app, filter_of_map.
  set (q' := expansionQuery (embed later) (map id (embed later))).
  set (q := expansionQuery (seeds ++ later) (map id (seeds ++ later))).
  assert (H1 : filter (fun c => q' (f c)) (rows tx) = filter q (rows tx)).
  { apply filter_ext_in. intros c Hc.
    destruct (f_keys c) as (I & E & P & _ & D).
    apply bool_eq_of_iff. unfold q, q'. rewrite !expansionQuery_spec.
    unfold notDeleted. rewrite D, I, (embed_ids later c Hc). split.
    - intros (Hl & Hnot & a' & Ha' & Hadj). split; [exact Hl|]. split; [exact Hnot|].
      apply embed_In in Ha'. destruct Ha' as [(a & Ha & ->)|Hx].
      + exists a. split; [exact Ha|]. apply (@adjacent_f f f_keys a c), Hadj.
      + exfalso. apply Hnot. apply in_map. apply in_or_app. left.
        unfold seeds. rewrite <- Hd.
        apply (@adjacent_extra_seed tx f extra email_ phoneNumber_ f_keys)
          with (x := a').
        * intros x Hx'. rewrite (extra_is_newRow x Hx'). split; reflexivity.
        * exact Hx.
        * split; [exact Hc | exact Hl].
        * exact Hadj.
    - intros (Hl & Hnot & a & Ha & Hadj). split; [exact Hl|]. split; [exact Hnot|].
      exists (f a). split.
      + apply embed_In. left. exists a. auto.
      + apply (@adjacent_f f f_keys a c), Hadj. }
  assert (H2 : filter q' extra = []).
  { apply filter_none. intros x Hx.
    destruct (q' x) eqn:E; [|reflexivity]. exfalso.
    unfold q' in E. apply expansionQuery_spec in E. destruct E as (_ & Hnot & _).
    apply Hnot, in_map, embed_In. right. exact Hx. }
  rewrite H1, H2, app_nil_r. apply sort_of_map. intros c. apply f_keys.
Qed.

Lemma replay_rounds (n : nat) :
  exists later,
    Nat.iter n (expandRound tx) seeds = seeds ++ later /\
    Nat.iter n (expandRound tx1) (embed []) = embed later.
Proof.
  induction n as [|n (later & H1 & H2)]; simpl.
  - exists []. rewrite app_nil_r. auto.
  - exists (later ++ nextRound tx (seeds ++ later)). rewrite H1, H2. split.
    + unfold expandRound. rewrite app_assoc. reflexivity.
    + unfold expandRound. rewrite replay_round. unfold embed.
      rewrite map_app, !app_assoc. reflexivity.
Qed.

(** The expanded group of the second run. *)
Lemma replay_group :
  exists later,
    expandGroup tx seeds (map id seeds) = seeds ++ later /\
    expandGroup tx1 (embed []) (map id (embed [])) = embed later.
Proof.
  destruct (expandGroup_rounds tx seeds) as (n & _ & Heq & Hend).
  destruct (replay_rounds n) as (later & H1 & H2).
  exists later. split; [rewrite Heq; exact H1|].
  rewrite (expandGroup_fix tx1 (embed []) n); [exact H2|].
  rewrite H2, replay_round, <- H1, Hend. reflexivity.
Qed.

Lemma embed_nil : embed [] = f d :: (map f ds ++ extra).
Proof. unfold embed, seeds. simpl. rewrite app_nil_r. reflexivity. Qed.

(** The second run elects the same contact. *)
Lemma replay_elected : electedOf tx1 (f d) (map f ds ++ extra) = elected.
Proof.
  destruct replay_group as (later & Hg1 & Hg2).
  assert (He : elected = fold_left (pickEarlier createdAt) (ds ++ later) d).
  { unfold elected, electedOf, resolveGroup. fold seeds. rewrite Hg1.
    apply (elected_is_first_min d (ds ++ later)). }
  unfold electedOf, resolveGroup. rewrite <- embed_nil, Hg2.
  unfold embed, seeds. simpl.
  rewrite (elected_is_first_min (f d) ((map f ds ++ extra) ++ map f later)).
  rewrite <- app_assoc.
  rewrite (pick_skips_late (map f ds) extra (map f later) (f d) now1).
  - rewrite <- map_app, (pick_of_map f) by (intros c; apply f_keys).
    rewrite <- He. apply demoteIn_elected. reflexivity.
  - intros c Hc. change (f d :: map f ds) with (map f seeds) in Hc.
    apply in_map_iff in Hc. destruct Hc as (c0 & <- & Hc0).
    destruct (f_keys c0) as (_ & _ & _ & T & _). rewrite T.
    apply clock. apply (seeds_in_rows c0 Hc0).
  - intros x Hx. rewrite (extra_is_newRow x Hx). reflexivity.
Qed.

(** After the first run no member of the group but the elected contact is
    primary, so the second run has nothing to demote. *)
Lemma replay_no_other_primaries :
  otherPrimariesOf elected (resolveGroup tx1 (f d :: map f ds ++ extra)) = [].
Proof.
  destruct replay_group as (later & Hg1 & Hg2).
  unfold otherPrimariesOf. apply filter_none. intros c' Hc'.
  apply resolveGroup_In in Hc'. rewrite <- embed_nil, Hg2 in Hc'.
  apply embed_In in Hc'.
  destruct (id c' =? id elected) eqn:E; [reflexivity|]. simpl.
  apply Z.eqb_neq in E.
  destruct Hc' as [(c & Hc & ->)|Hx].
  - destruct (linkPrecedence (f c)) eqn:Hp; [|reflexivity]. exfalso.
    destruct (f_keys c) as (I & _). apply E. rewrite I.
    apply (group_primary_is_elected tx d ds c); [|exact Hp].
    apply resolveGroup_In. fold seeds. rewrite Hg1. exact Hc.
  - rewrite (extra_is_newRow c' Hx). reflexivity.
Qed.

Lemma replay_afterDemotion :
  afterDemotion tx1 (f d) (map f ds ++ extra) = tx1.
Proof.
  unfold afterDemotion. rewrite replay_elected, replay_no_other_primaries.
  reflexivity.
Qed.

End Replay.

(** A group that holds a row with the request's values has nothing to learn
    from the request. *)
Lemma no_new_information (email_ phoneNumber_ : option string)
    (normalizedGroup : list Contact) (c : Contact) :
  In c normalizedGroup ->
  email c = email_ -> phoneNumber c = phoneNumber_ ->
  normalizeEmail email_ = email_ -> normalizePhone phoneNumber_ = phoneNumber_ ->
  shouldCreateSecondary email_ phoneNumber_ normalizedGroup = false.
Proof.
  intros Hc He Hp Hne Hnp.
  assert (H1 : isNew email_ (existingEmailsOf normalizedGroup) = false).
  { unfold isNew. destruct email_ as [v|]; [|reflexivity].
    destruct (JS.nonEmpty v) eqn:Ev; [|reflexivity]. simpl.
    apply negb_false_iff, hasStr_In. unfold existingEmailsOf.
    apply in_flat_map. exists c. split; [exact Hc|].
    rewrite He, Hne. apply ifTruthy_In. auto. }
  assert (H2 : isNew phoneNumber_ (existingPhonesOf normalizedGroup) = false).
  { unfold isNew. destruct phoneNumber_ as [v|]; [|reflexivity].
    destruct (JS.nonEmpty v) eqn:Ev; [|reflexivity]. simpl.
    apply negb_false_iff, hasStr_In. unfold existingPhonesOf.
    apply in_flat_map. exists c. split; [exact Hc|].
    rewrite Hp, Hnp. apply ifTruthy_In. auto. }
  unfold shouldCreateSecondary. rewrite H1, H2. reflexivity.
Qed.

(** Repeating a call that found a group. *)
Lemma repeat_matched (now1 now2 : Z) (tx : Store) (input : IdentifyRequest)
    (d : Contact) (ds : list Contact) :
  idsBelowNext tx ->
  (forall c, In c (rows tx) -> createdAt c <= now1) ->
  directMatchesOf tx (normalizeEmail (req_email input))
                     (normalizePhone (req_phoneNumber input)) = d :: ds ->
  identifyInTransaction now2 (fst (identifyInTransaction now1 tx input)) input
  = identifyInTransaction now1 tx input.
Proof.
  intros Hbelow Hclock Hd.
  set (email_ := normalizeEmail (req_email input)) in *.
  set (phoneNumber_ := normalizePhone (req_phoneNumber input)) in *.
  rewrite (identifyInTransaction_matched now1 tx input Hd).
  fold email_ phoneNumber_. cbn [fst].
  set (elected := electedOf tx d ds).
  set (others := otherPrimariesOf elected (resolveGroup tx (d :: ds))).
  set (f := demoteIn elected others).
  set (tx1 := afterWrite now1 tx email_ phoneNumber_ d ds).
  set (newRow := newSecondary now1 tx email_ phoneNumber_ elected).
  assert (Hne : normalizeEmail email_ = email_) by apply normalizeEmail_idempotent.
  assert (Hnp : normalizePhone phoneNumber_ = phoneNumber_)
    by apply normalizePhone_idempotent.
  assert (Hcase : exists extra,
            rows tx1 = map f (rows tx) ++ extra /\
            (extra = [] \/ extra = [newRow]) /\
            shouldCreateSecondary email_ phoneNumber_
              (findMany (rootedAt (id elected)) tx1) = false).
  { unfold tx1, afterWrite. fold elected.
    destruct (shouldCreateSecondary email_ phoneNumber_
                (findMany (rootedAt (id elected)) (afterDemotion tx d ds))) eqn:Hb.
    - exists [newRow]. split; [|split; [right; reflexivity|]].
      + simpl. unfold afterDemotion. fold elected others.
        rewrite demoteOthers_rows, demoteOthers_nextId. reflexivity.
      + apply (no_new_information email_ phoneNumber_ _ newRow);
          try reflexivity; try assumption.
        apply findMany_In. split.
        * simpl. apply in_or_app. right. left.
          unfold afterDemotion. rewrite demoteOthers_nextId. reflexivity.
        * unfold rootedAt, newRow, newSecondary, whereOR, linkedIdEquals. simpl.
          rewrite Z.eqb_refl, !orb_true_r. reflexivity.
    - exists []. split; [|split; [left; reflexivity | exact Hb]].
      rewrite app_nil_r. unfold afterDemotion. fold elected others.
      apply demoteOthers_rows. }
  destruct Hcase as (extra & Hrows & Hshape & Hno).
  pose proof (replay_directMatches tx email_ phoneNumber_ d ds now1 Hd Hclock
                tx1 extra Hrows Hshape) as Hd2.
  pose proof (replay_elected tx email_ phoneNumber_ d ds now1 Hd Hbelow Hclock
                tx1 extra Hrows Hshape) as He2.
  pose proof (replay_afterDemotion tx email_ phoneNumber_ d ds now1 Hd Hbelow Hclock
                tx1 extra Hrows Hshape) as Hdem2.
  fold elected others f in Hd2, He2, Hdem2. simpl in Hd2.
  rewrite (identifyInTransaction_matched now2 tx1 input Hd2).
  fold email_ phoneNumber_.
  assert (Hw : afterWrite now2 tx1 email_ phoneNumber_ (f d) (map f ds ++ extra) = tx1).
  { unfold afterWrite. rewrite He2, Hdem2, Hno. reflexivity. }
  rewrite Hw, He2. reflexivity.
Qed.

(** Every [linkedId] names an identifier the sequence has already issued. *)
Definition linksBelowNext (tx : Store) : Prop :=
  forall c j, In c (rows tx) -> linkedId c = Some j -> j < nextId tx.

Lemma validateInput_matches (input : IdentifyRequest) (c : Contact) :
  validateInput input = true ->
  email c = normalizeEmail (req_email input) ->
  phoneNumber c = normalizePhone (req_phoneNumber input) ->
  matchesSeed (normalizeEmail (req_email input))
              (normalizePhone (req_phoneNumber input)) c.
Proof.
  unfold validateInput. intros Hv He Hp.
  destruct (normalizeEmail (req_email input)) as [e|] eqn:Ee.
  - left. exists e. split; [reflexivity|]. split; [|exact He].
    apply (normalizeEmail_nonEmpty _ Ee).
  - destruct (normalizePhone (req_phoneNumber input)) as [p|] eqn:Ep.
    + right. exists p. split; [reflexivity|]. split; [|exact Hp].
      apply (normalizePhone_nonEmpty _ Ep).
    + discriminate.
Qed.

Lemma uniqueValues_alone (field : Contact -> option string) (c : Contact) :
  uniqueValues field c [c] = JS.ifTruthy (field c).
Proof.
  unfold uniqueValues.
  assert (E : othersWithContact field (JS.ifTruthy (field c)) [c] = []).
  { unfold othersWithContact. simpl. rewrite app_nil_r.
    unfold JS.ifTruthy. destruct (field c) as [v|]; [|reflexivity].
    destruct (JS.nonEmpty v); [|reflexivity]. simpl.
    rewrite String.eqb_refl. reflexivity. }
  rewrite E. reflexivity.
Qed.

(** Repeating a call that created a primary. *)
Lemma repeat_unmatched (now1 now2 : Z) (tx : Store) (input : IdentifyRequest) :
  idsBelowNext tx -> linksBelowNext tx ->
  validateInput input = true ->
  directMatchesOf tx (normalizeEmail (req_email input))
                     (normalizePhone (req_phoneNumber input)) = [] ->
  identifyInTransaction now2 (fst (identifyInTransaction now1 tx input)) input
  = identifyInTransaction now1 tx input.
Proof.
  intros Hbelow Hlinks Hv Hd.
  set (email_ := normalizeEmail (req_email input)) in *.
  set (phoneNumber_ := normalizePhone (req_phoneNumber input)) in *.
  rewrite (identifyInTransaction_unmatched now1 tx input Hd).
  fold email_ phoneNumber_. cbn [fst].
  set (N := mkContact (nextId tx) email_ phoneNumber_ primary None now1 None).
  set (tx1 := mkStore (rows tx ++ [N]) (nextId tx + 1)).
  assert (HmN : matchesSeed email_ phoneNumber_ N)
    by (apply validateInput_matches; [exact Hv | reflexivity | reflexivity]).
  assert (Hnone : forall c, In c (rows tx) -> notDeleted c = true ->
                            matchesSeed email_ phoneNumber_ c -> False).
  { intros c Hc Hl Hm.
    assert (Hin : In c (directMatchesOf tx email_ phoneNumber_))
      by (apply directMatches_In; split; [split|]; assumption).
    rewrite Hd in Hin. destruct Hin. }
  (* the second run finds the new row, and only it *)
  assert (Hd2 : directMatchesOf tx1 email_ phoneNumber_ = [N]).
  { change (directMatchesOf tx1 email_ phoneNumber_)
      with (orderByCreatedAt (filter (seedQuery email_ phoneNumber_) (rows tx ++ [N]))).
    rewrite filter_app.
    rewrite (filter_none (seedQuery email_ phoneNumber_) (rows tx)).
    - simpl.
      assert (E : seedQuery email_ phoneNumber_ N = true)
        by (apply seedQuery_spec; split; [reflexivity | exact HmN]).
      rewrite E. reflexivity.
    - intros c Hc. destruct (seedQuery email_ phoneNumber_ c) eqn:E; [|reflexivity].
      apply seedQuery_spec in E. exfalso. apply (Hnone c); tauto. }
  assert (Hround : nextRound tx1 [N] = []).
  { apply findMany_nil. intros c Hc.
    destruct (expansionQuery [N] (map id [N]) c) eqn:E; [|reflexivity].
    exfalso. apply expansionQuery_spec in E.
    destruct E as (Hl & Hnot & a & [<-|[]] & Hadj).
    simpl in Hc. apply in_app_or in Hc. destruct Hc as [Hc|[<-|[]]].
    - apply (Hnone c Hc Hl).
      destruct Hadj as [(e & H1 & H2 & H3)|(p & H1 & H2 & H3)]; [left|right].
      + exists e. auto.
      + exists p. auto.
    - apply Hnot. left. reflexivity. }
  assert (Hgroup : expandGroup tx1 [N] (map id [N]) = [N]).
  { rewrite expandGroup_step. fold (nextRound tx1 [N]). rewrite Hround. reflexivity. }
  assert (Hel : electedOf tx1 N [] = N).
  { unfold electedOf, resolveGroup. rewrite Hgroup. simpl.
    unfold electPrimary. simpl. rewrite Z.ltb_irrefl. reflexivity. }
  assert (Hdem : afterDemotion tx1 N [] = tx1).
  { unfold afterDemotion. rewrite Hel. unfold resolveGroup. rewrite Hgroup.
    unfold otherPrimariesOf. simpl. rewrite Z.eqb_refl. reflexivity. }
  assert (Hroot : findMany (rootedAt (id N)) tx1 = [N]).
  { unfold findMany. simpl rows. rewrite filter_app.
    rewrite (filter_none (rootedAt (id N)) (rows tx)).
    - simpl. unfold rootedAt, whereOR, idEquals. simpl.
      rewrite Z.eqb_refl. reflexivity.
    - intros c Hc. unfold rootedAt, whereOR, idEquals, linkedIdEquals. simpl.
      pose proof (Hbelow c Hc) as Hid.
      assert (E1 : (id c =? nextId tx) = false) by (apply Z.eqb_neq; lia).
      rewrite E1. simpl.
      destruct (linkedId c) as [j|] eqn:El.
      + pose proof (Hlinks c j Hc El).
        assert (E2 : (j =? nextId tx) = false) by (apply Z.eqb_neq; lia).
        rewrite E2. apply andb_false_r.
      + apply andb_false_r. }
  assert (Hw : afterWrite now2 tx1 email_ phoneNumber_ N [] = tx1).
  { unfold afterWrite. rewrite Hel, Hdem, Hroot.
    rewrite (no_new_information email_ phoneNumber_ [N] N);
      [reflexivity | left; reflexivity | reflexivity | reflexivity
       | apply normalizeEmail_idempotent | apply normalizePhone_idempotent]. }
  rewrite (identifyInTransaction_matched now2 tx1 input Hd2).
  fold email_ phoneNumber_. rewrite Hw, Hel.
  f_equal. unfold project. rewrite Hroot. simpl find. rewrite Z.eqb_refl.
  rewrite !uniqueValues_alone. reflexivity.
Qed.

(** C3. Take a store whose identifier sequence is ahead of every [id] and
    [linkedId] in the table, a valid input, and a first call made at a clock
    reading not earlier than any stored [createdAt].  A second call with the
    same input, whatever the clock reads then, leaves the store exactly as the
    first call left it (no row is created or rewritten) and returns the same
    result. *)
Theorem C3_reconcile_is_idempotent
    (now1 now2 : Z) (tx : Store) (input : IdentifyRequest) :
  idsBelowNext tx ->
  linksBelowNext tx ->
  validateInput input = true ->
  (forall c, In c (rows tx) -> createdAt c <= now1) ->
  let first := reconcile now1 tx input in
  let second := reconcile now2 (store first) input in
  store second = store first /\
  result second = result first /\
  exists response, result second = inr response.
Proof.
  intros Hbelow Hlinks Hv Hclock first second.
  assert (Hrepeat :
    identifyInTransaction now2 (fst (identifyInTransaction now1 tx input)) input
    = identifyInTransaction now1 tx input).
  { destruct (directMatchesOf tx (normalizeEmail (req_email input))
                (normalizePhone (req_phoneNumber input))) as [|d ds] eqn:Hd.
    - apply repeat_unmatched; assumption.
    - apply (repeat_matched now1 now2 tx input d ds); assumption. }
  assert (Hs1 : store first = fst (identifyInTransaction now1 tx input))
    by (unfold first; rewrite reconcile_store, Hv; reflexivity).
  assert (Hr2 : result second = inr (snd (identifyInTransaction now1 tx input))).
  { unfold second. rewrite (reconcile_result _ _ _ Hv), Hs1, Hrepeat. reflexivity. }
  split; [|split].
  - unfold second. rewrite reconcile_store, Hv, Hs1, Hrepeat. reflexivity.
  - rewrite Hr2. unfold first. rewrite (reconcile_result _ _ _ Hv). reflexivity.
  - eexists. exact Hr2.
Qed.

Lemma C3_reconcile_is_idempotent_witness :
  store (reconcile 99 (store (reconcile 20 oneStore (req "a@x.com" "+1555")))
                   (req "a@x.com" "+1555"))
  = store (reconcile 20 oneStore (req "a@x.com" "+1555")) /\
  result (reconcile 99 (store (reconcile 20 oneStore (req "a@x.com" "+1555")))
                    (req "a@x.com" "+1555"))
  = result (reconcile 20 oneStore (req "a@x.com" "+1555")).
Proof.
  destruct (C3_reconcile_is_idempotent 20 99 oneStore (req "a@x.com" "+1555"))
    as (Hs & Hr & _).
  - intros c Hc. vm_compute in Hc. destruct Hc as [<-|[]]. reflexivity.
  - intros c j Hc Hl. vm_compute in Hc. destruct Hc as [<-|[]]. discriminate Hl.
  - reflexivity.
  - intros c Hc. vm_compute in Hc. destruct Hc as [<-|[]]. vm_compute. discriminate.
  - split; assumption.
Defined.

(** The clock matters.  If the first call reads a clock earlier than a stored
    [createdAt], the row it creates can be the earliest of the group, and the
    second call then elects it and demotes the former primary. *)
Definition backwardStore : Store :=
  run [(0, req "e1" ""); (5, req "e1" "p")] emptyStore.

Example repeat_after_clock_ran_backwards :
  primaryContatctId (snd (identifyInTransaction 0 backwardStore (req "e9" "p"))) = 1 /\
  primaryContatctId
    (snd (identifyInTransaction 7
            (fst (identifyInTransaction 0 backwardStore (req "e9" "p")))
            (req "e9" "p"))) = 3.
Proof. split; vm_compute; reflexivity. Qed.

(* ===================================================================== *)
(** * The walk-through of the README, replayed on the model *)
(* ===================================================================== *)

(** First call with a new e-mail: a primary is created. *)
Example first_call_creates_primary :
  reconcile 10 emptyStore (req "alice@example.com" "")
  = mkOutcome
      (inr (mkResponse 1 ["alice@example.com"] [] []))
      (mkStore [mkContact 1 (Some "alice@example.com") None primary None 10 None] 2)
      [TransactionOpened 1; Committed].
Proof. vm_compute. reflexivity. Qed.

Definition aliceStore : Store :=
  run [(10, req "alice@example.com" "");
       (20, req "alice@example.com" "+15550001111")] emptyStore.

(** Second call with the same e-mail and a new phone: a secondary is
    created. *)
Example second_call_creates_secondary :
  rows aliceStore
  = [mkContact 1 (Some "alice@example.com") None primary None 10 None;
     mkContact 2 (Some "alice@example.com") (Some "+15550001111")
               secondary (Some 1) 20 None] /\
  result (reconcile 20 (run [(10, req "alice@example.com" "")] emptyStore)
                    (req "alice@example.com" "+15550001111"))
  = inr (mkResponse 1 ["alice@example.com"] ["+15550001111"] [2]).
Proof. split; vm_compute; reflexivity. Qed.

(** Third call with the phone alone: nothing is created, the same group is
    returned. *)
Example phone_only_lookup :
  reconcile 30 aliceStore (req "" "+1 (555) 000-1111")
  = mkOutcome (inr (mkResponse 1 ["alice@example.com"] ["+15550001111"] [2]))
              aliceStore [TransactionOpened 1; Committed].
Proof. vm_compute. reflexivity. Qed.

(** Contact A has e-mail [e1]; B has phone [p1] and e-mail [e2]; C has phone
    [p1] and e-mail [e1].  A request on [e2] reaches all three, and the
    oldest is the primary. *)
Definition transitiveStore : Store :=
  mkStore [mkContact 1 (Some "e1") None primary None 10 None;
           mkContact 2 (Some "e2") (Some "p1") primary None 20 None;
           mkContact 3 (Some "e1") (Some "p1") secondary (Some 2) 30 None] 4.

Example transitive_merge :
  result (reconcile 40 transitiveStore (req "e2" ""))
  = inr (mkResponse 1 ["e1"; "e2"] ["p1"] [2]) /\
  map linkedId (rows (store (reconcile 40 transitiveStore (req "e2" ""))))
  = [None; Some 1; Some 2].
Proof. split; vm_compute; reflexivity. Qed.

(** The secondary writer looks at the group re-read at the elected contact,
    not at the whole resolved cluster: in the third state of [chainStore] the
    phone ["p3"] is carried by row 3, which is in the resolved cluster but is
    linked to row 2, so the request brings it as new and row 4 is created. *)
Example covered_by_cluster_only :
  let tx := run [(10, req "e1" ""); (20, req "e2" ""); (30, req "e2" "p3")]
                emptyStore in
  In "p3" (groupPhones (resolveGroup tx (directMatchesOf tx (Some "e1") (Some "p3")))) /\
  rows (store (reconcile 40 tx (req "e1" "p3")))
  = [mkContact 1 (Some "e1") None primary None 10 None;
     chainP2; chainS3;
     mkContact 4 (Some "e1") (Some "p3") secondary (Some 1) 40 None].
Proof. split; vm_compute; [left|]; reflexivity. Qed.

(* ===================================================================== *)
(** * The normalizer, from the caller's side *)
(* ===================================================================== *)

Lemma toLowerCase_app (a b : string) :
  JS.toLowerCase (a ++ b)%string = (JS.toLowerCase a ++ JS.toLowerCase b)%string.
Proof. induction a as [|c a IH]; simpl; [reflexivity | rewrite IH; reflexivity]. Qed.

Lemma allSpace_toLowerCase (a : string) :
  allChars JS.isSpace (JS.toLowerCase a) = allChars JS.isSpace a.
Proof.
  induction a as [|c a IH]; simpl; [reflexivity|].
  rewrite isSpace_lowerChar, IH. reflexivity.
Qed.

Lemma trimStart_padding (a s : string) :
  allChars JS.isSpace a = true -> JS.trimStart (a ++ s)%string = JS.trimStart s.
Proof.
  induction a as [|c a IH]; simpl; [reflexivity|].
  intros H. apply andb_prop in H. destruct H as [Hc Ha].
  rewrite Hc. apply IH, Ha.
Qed.

Lemma trimEnd_blank (b : string) :
  allChars JS.isSpace b = true -> JS.trimEnd b = "".
Proof.
  induction b as [|c b IH]; simpl; [reflexivity|].
  intros H. apply andb_prop in H. destruct H as [Hc Hb].
  rewrite (IH Hb), Hc. reflexivity.
Qed.

Lemma trimEnd_padding (s b : string) :
  allChars JS.isSpace b = true -> JS.trimEnd (s ++ b)%string = JS.trimEnd s.
Proof.
  intros Hb. induction s as [|c s IH]; simpl.
  - apply trimEnd_blank, Hb.
  - rewrite IH. reflexivity.
Qed.

Lemma trimStart_blank (b : string) :
  allChars JS.isSpace b = true -> JS.trimStart b = "".
Proof.
  induction b as [|c b IH]; simpl; [reflexivity|].
  intros H. apply andb_prop in H. destruct H as [Hc Hb].
  rewrite Hc. apply IH, Hb.
Qed.

Lemma trim_padding (a s b : string) :
  allChars JS.isSpace a = true -> allChars JS.isSpace b = true ->
  JS.trim (a ++ s ++ b)%string = JS.trim s.
Proof.
  intros Ha Hb. unfold JS.trim. rewrite (trimStart_padding _ _ Ha).
  induction s as [|c s IH]; simpl.
  - rewrite (trimStart_blank _ Hb). reflexivity.
  - destruct (JS.isSpace c); [exact IH|].
    change (String c (s ++ b)%string) with (String c s ++ b)%string.
    apply trimEnd_padding, Hb.
Qed.

(** A blank string trims to nothing, and only a blank string does. *)
Lemma trim_empty_iff (s : string) :
  JS.nonEmpty (JS.trim s) = false <-> allChars JS.isSpace s = true.
Proof.
  unfold JS.trim. induction s as [|c s IH]; simpl.
  - tauto.
  - destruct (JS.isSpace c) eqn:Ec; simpl; [exact IH|].
    split; [|discriminate].
    destruct (JS.trimEnd s); [rewrite Ec|]; discriminate.
Qed.

Lemma removeAll_empty_iff (cls : ascii -> bool) (s : string) :
  JS.nonEmpty (JS.removeAll cls s) = false <-> allChars cls s = true.
Proof.
  induction s as [|c s IH]; simpl.
  - tauto.
  - destruct (cls c); simpl; [exact IH|]. split; discriminate.
Qed.

Lemma removeAll_app (cls : ascii -> bool) (a b : string) :
  JS.removeAll cls (a ++ b)%string
  = (JS.removeAll cls a ++ JS.removeAll cls b)%string.
Proof.
  induction a as [|c a IH]; simpl; [reflexivity|].
  destruct (cls c); rewrite IH; reflexivity.
Qed.

Lemma nonEmpty_not_empty (s : string) : JS.nonEmpty s = true <-> s <> "".
Proof. destruct s; simpl; split; congruence. Qed.

(** The [.trim()] of [normalizePhone] never has anything left to remove:
    the replacement before it has already deleted all white space. *)
Lemma normalizePhone_without_trim (v : string) :
  normalizePhone (Some v) = JS.orUndefined (JS.removeAll phoneNoise v).
Proof.
  simpl. rewrite (trim_of_clean _ (removeAll_clean phoneNoise v)). reflexivity.
Qed.

(** X1. On text of the range U+0000 to U+00FF: a normalized e-mail is
    never empty, holds no upper-case letter (A to Z, U+00C0 to U+00DE) and
    no white space (U+00A0 included) at either end: lowering or trimming it
    again changes nothing, and normalizing it again gives it back. *)
Theorem X1_normalized_email_is_a_fixed_point (v : option string) (r : string) :
  normalizeEmail v = Some r ->
  r <> "" /\ JS.toLowerCase r = r /\ JS.trim r = r /\
  normalizeEmail (Some r) = Some r.
Proof.
  intros H. pose proof (normalizeEmail_nonEmpty _ H) as Hne.
  pose proof (normalizeEmail_idempotent v) as Hid. rewrite H in Hid.
  destruct v as [v|]; [|discriminate]. simpl in H.
  unfold JS.orUndefined in H.
  destruct (JS.nonEmpty (JS.trim (JS.toLowerCase v))); [|discriminate].
  injection H as <-.
  split; [apply nonEmpty_not_empty, Hne|]. split; [|split; [|exact Hid]].
  - rewrite toLowerCase_trim, toLowerCase_idempotent. reflexivity.
  - apply trim_idempotent.
Qed.

Lemma X1_normalized_email_is_a_fixed_point_witness :
  "a.b@x.com" <> "" /\ JS.toLowerCase "a.b@x.com" = "a.b@x.com" /\
  JS.trim "a.b@x.com" = "a.b@x.com" /\
  normalizeEmail (Some "a.b@x.com") = Some "a.b@x.com".
Proof.
  apply (X1_normalized_email_is_a_fixed_point (Some "  A.b@X.Com ")).
  reflexivity.
Defined.

(** X2. On text of the range U+0000 to U+00FF: a normalized phone number
    is never empty and holds none of the characters the normalizer strips
    (white space, U+00A0 included, dash, dot, parentheses); normalizing it
    again gives it back. *)
Theorem X2_normalized_phone_is_a_fixed_point (v : option string) (r : string) :
  normalizePhone v = Some r ->
  r <> "" /\ allChars (fun c => negb (phoneNoise c)) r = true /\
  normalizePhone (Some r) = Some r.
Proof.
  intros H. pose proof (normalizePhone_nonEmpty _ H) as Hne.
  pose proof (normalizePhone_idempotent v) as Hid. rewrite H in Hid.
  destruct v as [v|]; [|discriminate].
  rewrite normalizePhone_without_trim in H. unfold JS.orUndefined in H.
  destruct (JS.nonEmpty (JS.removeAll phoneNoise v)); [|discriminate].
  injection H as <-.
  split; [apply nonEmpty_not_empty, Hne|]. split; [|exact Hid].
  apply removeAll_clean.
Qed.

Lemma X2_normalized_phone_is_a_fixed_point_witness :
  "+15550001111" <> "" /\
  allChars (fun c => negb (phoneNoise c)) "+15550001111" = true /\
  normalizePhone (Some "+15550001111") = Some "+15550001111".
Proof.
  apply (X2_normalized_phone_is_a_fixed_point (Some "+1 (555) 000-1111")).
  reflexivity.
Defined.

(** X3. On text of the range U+0000 to U+00FF, formatting does not count
    in a phone number: putting a white space (U+00A0 included), a dash, a dot
    or a parenthesis anywhere in the text leaves its normal form as it was.
    Any other character does count: two texts without formatting characters
    have the same normal form only when they are equal. *)
Theorem X3_phone_formatting_is_ignored (a b : string) (c : ascii) :
  phoneNoise c = true ->
  normalizePhone (Some (a ++ String c b)%string)
  = normalizePhone (Some (a ++ b)%string) /\
  (forall s t,
     allChars (fun x => negb (phoneNoise x)) s = true ->
     allChars (fun x => negb (phoneNoise x)) t = true ->
     normalizePhone (Some s) = normalizePhone (Some t) -> s = t).
Proof.
  intros Hc. split.
  - rewrite !normalizePhone_without_trim, !removeAll_app. simpl.
    rewrite Hc. reflexivity.
  - intros s t Hs Ht. rewrite !normalizePhone_without_trim.
    rewrite (removeAll_of_clean _ _ Hs), (removeAll_of_clean _ _ Ht).
    unfold JS.orUndefined. destruct s, t; simpl; congruence.
Qed.

Lemma X3_phone_formatting_is_ignored_witness :
  normalizePhone (Some ("555" ++ String "-" "0001")%string)
  = normalizePhone (Some ("555" ++ "0001")%string).
Proof.
  apply (X3_phone_formatting_is_ignored "555" "0001" "-"). reflexivity.
Defined.

(** X4. On text of the range U+0000 to U+00FF, letter case and
    surrounding white space do not count in an e-mail: a text padded with
    white space (U+00A0 included) on both sides has the normal form of its
    lower-case version. *)
Theorem X4_email_case_and_padding_are_ignored (a s b : string) :
  allChars JS.isSpace a = true -> allChars JS.isSpace b = true ->
  normalizeEmail (Some (a ++ s ++ b)%string)
  = normalizeEmail (Some (JS.toLowerCase s)).
Proof.
  intros Ha Hb. simpl. rewrite !toLowerCase_app, toLowerCase_idempotent.
  rewrite trim_padding; [reflexivity | |]; rewrite allSpace_toLowerCase; assumption.
Qed.

Lemma X4_email_case_and_padding_are_ignored_witness :
  normalizeEmail (Some ("  " ++ "Alice@Example.COM" ++ " ")%string)
  = normalizeEmail (Some (JS.toLowerCase "Alice@Example.COM")).
Proof.
  apply (X4_email_case_and_padding_are_ignored "  " "Alice@Example.COM" " ");
    reflexivity.
Defined.

(** When each normalizer returns something, read on the raw text. *)
Lemma normalizeEmail_truthy_iff (v : option string) :
  JS.truthy (normalizeEmail v) = true <->
  exists e, v = Some e /\ allChars JS.isSpace e = false.
Proof.
  destruct v as [e|]; simpl.
  - unfold JS.orUndefined.
    destruct (JS.nonEmpty (JS.trim (JS.toLowerCase e))) eqn:E; simpl.
    + rewrite E. split; [intros _|reflexivity]. exists e. split; [reflexivity|].
      rewrite <- allSpace_toLowerCase.
      destruct (allChars JS.isSpace (JS.toLowerCase e)) eqn:A; [|reflexivity].
      apply trim_empty_iff in A. congruence.
    + split; [discriminate|]. intros (e' & He & A). injection He as <-.
      apply trim_empty_iff in E. rewrite allSpace_toLowerCase in E. congruence.
  - split; [discriminate|]. intros (e' & He & _). discriminate.
Qed.

Lemma normalizePhone_truthy_iff (v : option string) :
  JS.truthy (normalizePhone v) = true <->
  exists p, v = Some p /\ allChars phoneNoise p = false.
Proof.
  destruct v as [p|].
  - rewrite normalizePhone_without_trim. unfold JS.orUndefined.
    destruct (JS.nonEmpty (JS.removeAll phoneNoise p)) eqn:E; simpl.
    + rewrite E. split; [intros _|reflexivity]. exists p. split; [reflexivity|].
      destruct (allChars phoneNoise p) eqn:A; [|reflexivity].
      apply removeAll_empty_iff in A. congruence.
    + split; [discriminate|]. intros (p' & Hp & A). injection Hp as <-.
      apply removeAll_empty_iff in E. congruence.
  - simpl. split; [discriminate|]. intros (p' & Hp & _). discriminate.
Qed.

(** X5. What [validateInput] lets through, read on a raw request of the
    range U+0000 to U+00FF: the e-mail holds a character that is not white
    space, or the phone number holds a character that is neither white space
    nor a dash, a dot or a parenthesis (white space is TAB, LF, VT, FF, CR,
    SPACE and U+00A0).  An e-mail of white space only and a phone number of
    formatting characters only are treated as absent. *)
Theorem X5_validateInput_accepts_iff (input : IdentifyRequest) :
  validateInput input = true <->
  (exists e, req_email input = Some e /\ allChars JS.isSpace e = false) \/
  (exists p, req_phoneNumber input = Some p /\ allChars phoneNoise p = false).
Proof.
  unfold validateInput.
  rewrite negb_true_iff, andb_false_iff, !negb_false_iff.
  rewrite normalizeEmail_truthy_iff, normalizePhone_truthy_iff. reflexivity.
Qed.

(** The no-break space U+00A0 and the letters U+00C9 and U+00E9. *)
Definition nbsp : string := String (ascii_of_nat 160) "".
Definition E_acute : string := String (ascii_of_nat 201) "".
Definition e_acute : string := String (ascii_of_nat 233) "".

Example email_of_no_break_spaces_is_absent :
  normalizeEmail (Some (nbsp ++ " " ++ nbsp)%string) = None /\
  validateInput (mkRequest (Some (nbsp ++ nbsp)%string) (Some ("(" ++ nbsp ++ ")")%string))
  = false.
Proof. split; reflexivity. Qed.

Example email_with_latin1_capital :
  normalizeEmail (Some (nbsp ++ E_acute ++ "COLE@x.com" ++ nbsp)%string)
  = Some (e_acute ++ "cole@x.com")%string.
Proof. reflexivity. Qed.

Example phone_with_no_break_space :
  normalizePhone (Some ("1" ++ nbsp ++ "2")%string) = Some "12".
Proof. reflexivity. Qed.

(* ===================================================================== *)
(** * The retry loop, whatever the store does *)
(* ===================================================================== *)

Definition isOpened (e : Event) : bool :=
  match e with TransactionOpened _ => true | _ => false end.

Definition isCommitted (e : Event) : bool :=
  match e with Committed => true | _ => false end.

Definition isRolledBack (e : Event) : bool :=
  match e with RolledBack => true | _ => false end.

(** How many events of a kind a trace holds, and the time it spent asleep. *)
Definition countEvents (kind : Event -> bool) (t : list Event) : nat :=
  List.length (filter kind t).

Fixpoint sleptMs (t : list Event) : Z :=
  match t with
  | [] => 0
  | Slept ms :: r => ms + sleptMs r
  | _ :: r => sleptMs r
  end.

(** One step of the loop, for the case analysis below. *)
Lemma attempts_step (env : Env) (input : IdentifyRequest) (remaining attempt : nat)
    (prisma : Store) :
  attempts env input (S remaining) attempt prisma =
  match fault env attempt with
  | None =>
      mkOutcome (inr (snd (identifyInTransaction (clock env attempt) prisma input)))
                (fst (identifyInTransaction (clock env attempt) prisma input))
                [TransactionOpened attempt; Committed]
  | Some err =>
      if isRetryableConflict err && (attempt <? MAX_SERIALIZABLE_RETRIES)%nat
      then
        let o := attempts env input remaining (S attempt) prisma in
        mkOutcome (result o) (store o)
          (TransactionOpened attempt :: RolledBack
           :: Slept (20 * Z.of_nat attempt) :: trace o)
      else
        mkOutcome (inl (StoreFailure err)) prisma
                  [TransactionOpened attempt; RolledBack]
  end.
Proof.
  simpl. destruct (fault env attempt); [reflexivity|].
  destruct (identifyInTransaction (clock env attempt) prisma input). reflexivity.
Qed.

Ltac retry_cases env :=
  unfold identifyContact, MAX_SERIALIZABLE_RETRIES;
  destruct (validateInput _) eqn:?;
  [ rewrite !attempts_step; unfold MAX_SERIALIZABLE_RETRIES;
    let e1 := fresh "e" in
    let e2 := fresh "e" in
    let e3 := fresh "e" in
    destruct (fault env 1%nat) as [e1|]; [destruct (isRetryableConflict e1)|];
    destruct (fault env 2%nat) as [e2|]; [destruct (isRetryableConflict e2)| |
                                          destruct (isRetryableConflict e2)| | | ];
    destruct (fault env 3%nat) as [e3|];
    try destruct (isRetryableConflict e3);
    cbn [andb Nat.ltb Nat.leb result store trace]
  | cbn [result store trace] ].

(** How a call ends. *)
Lemma identifyContact_result (env : Env) (prisma : Store) (input : IdentifyRequest) :
  let o := identifyContact env prisma input in
  (validateInput input = false /\ o = mkOutcome (inl InvalidInput) prisma []) \/
  (validateInput input = true /\
   ((exists e, result o = inl (StoreFailure e) /\ store o = prisma) \/
    (exists r, result o = inr r))).
Proof.
  cbv zeta. retry_cases env;
    first [ left; split; reflexivity
          | right; split; [reflexivity|];
            first [ left; eexists; split; reflexivity
                  | right; eexists; reflexivity ] ].
Qed.

(** X6. Whatever errors the store raises: the [throw] placed after the
    loop is never reached; a call that throws leaves the store as it found it
    and commits nothing; a call that returns committed exactly one
    transaction, the last thing it did. *)
Theorem X6_identifyContact_throws_or_commits_once
    (env : Env) (prisma : Store) (input : IdentifyRequest) :
  let o := identifyContact env prisma input in
  result o <> inl Unreachable /\
  (forall f, result o = inl f ->
     store o = prisma /\ countEvents isCommitted (trace o) = 0%nat) /\
  (forall r, result o = inr r ->
     countEvents isCommitted (trace o) = 1%nat /\
     exists before, trace o = before ++ [Committed]).
Proof.
  cbv zeta. retry_cases env;
    (split; [discriminate|]);
    (split; [intros f Hf; try discriminate; split; reflexivity|]);
    intros r Hr; try discriminate; (split; [reflexivity|]);
    first
      [ exists [TransactionOpened 1]; reflexivity
      | exists [TransactionOpened 1; RolledBack; Slept (20 * Z.of_nat 1);
                TransactionOpened 2]; reflexivity
      | exists [TransactionOpened 1; RolledBack; Slept (20 * Z.of_nat 1);
                TransactionOpened 2; RolledBack; Slept (20 * Z.of_nat 2);
                TransactionOpened 3]; reflexivity ].
Qed.

(** X7. Whatever errors the store raises, one call opens at most three
    transactions, sleeps 60 ms at most in all, pauses once after each
    transaction but the last, and rolls back every transaction it does not
    commit; it opens none exactly when the input is invalid. *)
Theorem X7_identifyContact_is_bounded
    (env : Env) (prisma : Store) (input : IdentifyRequest) :
  let t := trace (identifyContact env prisma input) in
  (countEvents isOpened t <= 3)%nat /\
  0 <= sleptMs t <= 60 /\
  (countEvents isOpened t
   = countEvents isCommitted t + countEvents isRolledBack t)%nat /\
  (countEvents isOpened t = 0%nat <-> validateInput input = false) /\
  (validateInput input = true ->
   sleptMs t = 20 * Z.of_nat (Nat.pred (countEvents isOpened t))
               * Z.of_nat (countEvents isOpened t) / 2).
Proof.
  cbv zeta. retry_cases env;
    unfold countEvents; simpl; repeat split; intros;
    first [lia | congruence | reflexivity].
Qed.

(* ===================================================================== *)
(** * The transaction body, on any store *)
(* ===================================================================== *)

(** What one run of the body does to the table, whichever branch it takes:
    rows are rewritten in place by a function that only touches the link
    fields, and at most one row is appended. *)
Lemma call_rows (now : Z) (tx : Store) (input : IdentifyRequest) :
  let email_ := normalizeEmail (req_email input) in
  let phoneNumber_ := normalizePhone (req_phoneNumber input) in
  let tx2 := fst (identifyInTransaction now tx input) in
  exists f extra,
    rows tx2 = map f (rows tx) ++ extra /\
    keepsKeys f /\
    (forall c, linkPrecedence c = secondary -> linkPrecedence (f c) = secondary) /\
    (forall c, linkPrecedence (f c) = primary -> f c = c) /\
    ((extra = [] /\ nextId tx2 = nextId tx /\
      directMatchesOf tx email_ phoneNumber_ <> []) \/
     (exists lp l,
        extra = [mkContact (nextId tx) email_ phoneNumber_ lp l now None] /\
        nextId tx2 = nextId tx + 1 /\
        (lp = primary <-> directMatchesOf tx email_ phoneNumber_ = []))).
Proof.
  intros email_ phoneNumber_ tx2.
  destruct (directMatchesOf tx email_ phoneNumber_) as [|d ds] eqn:Hd.
  - exists (fun c => c), [mkContact (nextId tx) email_ phoneNumber_ primary None now None].
    unfold tx2. rewrite (identifyInTransaction_unmatched now tx input Hd). simpl.
    rewrite map_id. split; [reflexivity|]. split; [intros c; auto|].
    split; [auto|]. split; [auto|]. right. exists primary, None. tauto.
  - destruct (afterWrite_shape now tx email_ phoneNumber_ d ds)
      as (extra & Hrows & Hshape).
    exists (demoteIn (electedOf tx d ds)
              (otherPrimariesOf (electedOf tx d ds) (resolveGroup tx (d :: ds)))),
           extra.
    unfold tx2. rewrite (identifyInTransaction_matched now tx input Hd). simpl.
    split; [exact Hrows|]. split; [apply demoteIn_keepsKeys|].
    split; [|split].
    + intros c Hc. unfold demoteIn. destruct (idIn _ c); [reflexivity | exact Hc].
    + intros c Hc. apply demoteIn_primary in Hc. tauto.
    + destruct Hshape as [[-> Hn]|[-> Hn]].
      * left. split; [reflexivity|]. split; [exact Hn | discriminate].
      * right. exists secondary, (Some (id (electedOf tx d ds))).
        split; [reflexivity|]. split; [exact Hn|].
        split; discriminate.
Qed.

(** X8. A primary is created exactly when nothing matches.  If no live
    row carries the request's normalized e-mail or phone number, the call
    appends one primary with those values, the next identifier and the clock
    reading, changes nothing else, and answers with that row alone.  If some
    live row matches, every primary of the resulting table was already a
    primary row of the table before: the call adds no primary. *)
Theorem X8_primary_created_iff_nothing_matches
    (now : Z) (tx : Store) (input : IdentifyRequest) :
  let email_ := normalizeEmail (req_email input) in
  let phoneNumber_ := normalizePhone (req_phoneNumber input) in
  let tx2 := fst (identifyInTransaction now tx input) in
  let response := snd (identifyInTransaction now tx input) in
  ((forall c, live tx c -> ~ matchesSeed email_ phoneNumber_ c) ->
   tx2 = mkStore (rows tx ++ [mkContact (nextId tx) email_ phoneNumber_
                                        primary None now None])
                 (nextId tx + 1) /\
   response = mkResponse (nextId tx) (JS.ifTruthy email_)
                         (JS.ifTruthy phoneNumber_) []) /\
  ((exists c, live tx c /\ matchesSeed email_ phoneNumber_ c) ->
   forall c, In c (rows tx2) -> linkPrecedence c = primary -> In c (rows tx)).
Proof.
  intros email_ phoneNumber_ tx2 response. split.
  - intros Hnone.
    assert (Hd : directMatchesOf tx email_ phoneNumber_ = []).
    { destruct (directMatchesOf tx email_ phoneNumber_) as [|d ds] eqn:Hd;
        [reflexivity|].
      assert (Hin : In d (directMatchesOf tx email_ phoneNumber_))
        by (rewrite Hd; left; reflexivity).
      apply directMatches_In in Hin. destruct Hin as [Hl Hm].
      destruct (Hnone d Hl Hm). }
    unfold tx2, response.
    rewrite (identifyInTransaction_unmatched now tx input Hd). split; reflexivity.
  - intros (m & Hl & Hm) c Hc Hp.
    assert (Hin : In m (directMatchesOf tx email_ phoneNumber_))
      by (apply directMatches_In; auto).
    destruct (call_rows now tx input) as (f & extra & Hrows & _ & _ & Hprim & Hshape).
    fold email_ phoneNumber_ tx2 in Hrows, Hshape.
    rewrite Hrows in Hc. apply in_app_or in Hc. destruct Hc as [Hc|Hc].
    + apply in_map_iff in Hc. destruct Hc as (c0 & <- & Hc0).
      rewrite (Hprim c0 Hp). exact Hc0.
    + exfalso. destruct Hshape as [(-> & _)|(lp & l & -> & _ & Hlp)];
        [destruct Hc|].
      destruct Hc as [<-|[]]. simpl in Hp.
      apply Hlp in Hp. rewrite Hp in Hin. destruct Hin.
Qed.

(** X9. On any table, a call never removes a row, never moves one, and
    never rewrites an identifier, an e-mail, a phone number, a creation time
    or a deletion mark; a secondary stays a secondary.  It appends at most
    one row, which takes the next identifier, the request's normalized values
    and the clock reading, and the identifier sequence advances by the number
    of rows appended. *)
Theorem X9_identifying_data_is_never_rewritten
    (now : Z) (tx : Store) (input : IdentifyRequest) :
  let tx2 := fst (identifyInTransaction now tx input) in
  (List.length (rows tx) <= List.length (rows tx2) <= List.length (rows tx) + 1)%nat /\
  nextId tx2
  = nextId tx + Z.of_nat (List.length (rows tx2) - List.length (rows tx)) /\
  (forall i c, nth_error (rows tx) i = Some c ->
     exists c', nth_error (rows tx2) i = Some c' /\
       id c' = id c /\ email c' = email c /\ phoneNumber c' = phoneNumber c /\
       createdAt c' = createdAt c /\ deletedAt c' = deletedAt c /\
       (linkPrecedence c = secondary -> linkPrecedence c' = secondary)) /\
  (forall c, nth_error (rows tx2) (List.length (rows tx)) = Some c ->
     id c = nextId tx /\
     email c = normalizeEmail (req_email input) /\
     phoneNumber c = normalizePhone (req_phoneNumber input) /\
     createdAt c = now /\ deletedAt c = None).
Proof.
  intros tx2.
  destruct (call_rows now tx input) as (f & extra & Hrows & Hkeys & Hsec & _ & Hshape).
  fold tx2 in Hrows, Hshape.
  assert (Hlen : List.length (rows tx2)
                 = (List.length (rows tx) + List.length extra)%nat)
    by (rewrite Hrows, length_app, length_map; reflexivity).
  split; [|split; [|split]].
  - destruct Hshape as [(-> & _)|(lp & l & -> & _)]; simpl in Hlen; lia.
  - destruct Hshape as [(-> & Hn & _)|(lp & l & -> & Hn & _)]; simpl in Hlen;
      rewrite Hn, Hlen.
    + replace (List.length (rows tx) + 0 - List.length (rows tx))%nat with 0%nat by lia.
      simpl. lia.
    + replace (List.length (rows tx) + 1 - List.length (rows tx))%nat with 1%nat by lia.
      simpl. lia.
  - intros i c Hi. exists (f c). split.
    + rewrite Hrows. apply nth_error_map_app, Hi.
    + destruct (Hkeys c) as (H1 & H2 & H3 & H4 & H5).
      repeat (split; [assumption|]). apply Hsec.
  - intros c Hc. rewrite Hrows in Hc.
    rewrite nth_error_app2 in Hc by (rewrite length_map; lia).
    rewrite length_map, Nat.sub_diag in Hc.
    destruct Hshape as [(-> & _)|(lp & l & -> & _)]; simpl in Hc; [discriminate|].
    injection Hc as <-. simpl. auto.
Qed.

(* ===================================================================== *)
(** * Stored values and the response *)
(* ===================================================================== *)

Lemma identifyInTransaction_normalized (now : Z) (tx : Store) (input : IdentifyRequest) :
  normalizedStore tx ->
  normalizedStore (fst (identifyInTransaction now tx input)).
Proof.
  intros Hn c Hc.
  destruct (call_rows now tx input) as (f & extra & Hrows & Hkeys & _ & _ & Hshape).
  cbv zeta in Hrows, Hshape. rewrite Hrows in Hc.
  apply in_app_or in Hc. destruct Hc as [Hc|Hc].
  - apply in_map_iff in Hc. destruct Hc as (c0 & <- & Hc0).
    destruct (Hkeys c0) as (_ & -> & -> & _). apply Hn, Hc0.
  - destruct Hshape as [(-> & _)|(lp & l & -> & _)]; [destruct Hc|].
    destruct Hc as [<-|[]]. simpl.
    split; [apply normalizeEmail_idempotent | apply normalizePhone_idempotent].
Qed.

Lemma run_normalized (calls : list (Z * IdentifyRequest)) (s : Store) :
  normalizedStore s -> normalizedStore (run calls s).
Proof.
  revert s. induction calls as [|[now input] calls IH]; intros s Hs; simpl.
  - exact Hs.
  - apply IH. rewrite reconcile_store.
    destruct (validateInput input); [|exact Hs].
    apply identifyInTransaction_normalized, Hs.
Qed.

(** X10. The table only ever receives normalized values: a call on a
    table whose e-mails and phone numbers are in normal form leaves a table
    in normal form, and so does any sequence of calls; in particular every
    table built by calls from the empty one is in normal form. *)
Theorem X10_stored_values_stay_normalized
    (calls : list (Z * IdentifyRequest)) (now : Z) (tx : Store)
    (input : IdentifyRequest) :
  (normalizedStore tx -> normalizedStore (fst (identifyInTransaction now tx input))) /\
  (normalizedStore tx -> normalizedStore (run calls tx)) /\
  normalizedStore (run calls emptyStore).
Proof.
  split; [apply identifyInTransaction_normalized|].
  split; [apply run_normalized|].
  apply run_normalized. intros c [].
Qed.

(** The rows re-read at the elected contact after the call are rows of the
    final table; the rows read before the secondary writer are among them. *)
Lemma normalizedGroup_in_finalGroup (now : Z) (tx : Store)
    (email_ phoneNumber_ : option string) (d : Contact) (ds : list Contact)
    (c : Contact) :
  let elected := electedOf tx d ds in
  In c (findMany (rootedAt (id elected)) (afterDemotion tx d ds)) ->
  In c (findMany (rootedAt (id elected)) (afterWrite now tx email_ phoneNumber_ d ds)).
Proof.
  intros elected. unfold afterWrite. fold elected.
  destruct (shouldCreateSecondary _ _ _); [|auto].
  rewrite !findMany_In. simpl. intros [Hc Hr]. split; [|exact Hr].
  apply in_or_app. left. exact Hc.
Qed.

(** X11. On a table in normal form, the answer always lists what was
    asked about: the request's normalized e-mail, when it has one, is among
    [emails], and its normalized phone number, when it has one, is among
    [phoneNumbers]. *)
Theorem X11_response_lists_the_request_values
    (now : Z) (tx : Store) (input : IdentifyRequest) :
  normalizedStore tx ->
  let response := snd (identifyInTransaction now tx input) in
  (forall e, normalizeEmail (req_email input) = Some e -> In e (emails response)) /\
  (forall p, normalizePhone (req_phoneNumber input) = Some p ->
             In p (phoneNumbers response)).
Proof.
  intros Hn response.
  set (email_ := normalizeEmail (req_email input)).
  set (phoneNumber_ := normalizePhone (req_phoneNumber input)).
  destruct (directMatchesOf tx email_ phoneNumber_) as [|d ds] eqn:Hd.
  - unfold response. rewrite (identifyInTransaction_unmatched now tx input Hd).
    fold email_ phoneNumber_. simpl. split.
    + intros e He. apply ifTruthy_In. split; [exact He|].
      apply (normalizeEmail_nonEmpty _ He).
    + intros p Hp. apply ifTruthy_In. split; [exact Hp|].
      apply (normalizePhone_nonEmpty _ Hp).
  - unfold response. rewrite (identifyInTransaction_matched now tx input Hd).
    fold email_ phoneNumber_. cbn [snd].
    set (elected := electedOf tx d ds).
    set (tx1 := afterDemotion tx d ds).
    set (tx2 := afterWrite now tx email_ phoneNumber_ d ds).
    set (ng := findMany (rootedAt (id elected)) tx1).
    (* the rows of [tx1] carry the values of the rows of [tx] *)
    assert (Hvals : forall c, In c ng ->
              normalizeEmail (email c) = email c /\
              normalizePhone (phoneNumber c) = phoneNumber c).
    { intros c Hc. apply findMany_In in Hc. destruct Hc as [Hc _].
      unfold tx1, afterDemotion in Hc. rewrite demoteOthers_rows in Hc.
      apply in_map_iff in Hc. destruct Hc as (c0 & <- & Hc0).
      destruct (demoteIn_keepsKeys (electedOf tx d ds)
                  (otherPrimariesOf (electedOf tx d ds) (resolveGroup tx (d :: ds))) c0)
        as (_ & -> & -> & _).
      apply Hn, Hc0. }
    assert (Hnew : shouldCreateSecondary email_ phoneNumber_ ng = true ->
              In (newSecondary now tx email_ phoneNumber_ elected)
                 (findMany (rootedAt (id elected)) tx2)).
    { intros Hs. apply findMany_In. split.
      - unfold tx2, afterWrite. fold elected tx1 ng. rewrite Hs. simpl.
        apply in_or_app. right. left. unfold newSecondary, tx1, afterDemotion.
        rewrite demoteOthers_nextId. reflexivity.
      - unfold rootedAt, whereOR, linkedIdEquals, newSecondary. simpl.
        rewrite Z.eqb_refl, orb_true_r. reflexivity. }
    pose proof (shouldCreateSecondary_spec input ng) as Hspec.
    fold email_ phoneNumber_ in Hspec.
    unfold project. cbn [emails phoneNumbers].
    split.
    + intros e He.
      apply (proj1 (proj2 (uniqueValues_spec email _ _))). right.
      assert (Hne : JS.nonEmpty e = true) by apply (normalizeEmail_nonEmpty _ He).
      destruct (shouldCreateSecondary email_ phoneNumber_ ng) eqn:Hs.
      * exists (newSecondary now tx email_ phoneNumber_ elected).
        split; [apply Hnew; reflexivity|]. split; [exact He | exact Hne].
      * destruct (JS.hasStr e (existingEmailsOf ng)) eqn:Hhas.
        -- apply hasStr_In in Hhas. unfold existingEmailsOf in Hhas.
           apply in_flat_map in Hhas. destruct Hhas as (c & Hc & Hce).
           apply ifTruthy_In in Hce. destruct Hce as [Hce _].
           rewrite (proj1 (Hvals c Hc)) in Hce.
           exists c. split; [|split; [exact Hce | exact Hne]].
           apply normalizedGroup_in_finalGroup. exact Hc.
        -- apply hasStr_false in Hhas.
           assert (Hs' : false = true).
           { apply Hspec. left. exists e. split; [exact He | exact Hhas]. }
           discriminate.
    + intros p Hp.
      apply (proj1 (proj2 (uniqueValues_spec phoneNumber _ _))). right.
      assert (Hne : JS.nonEmpty p = true) by apply (normalizePhone_nonEmpty _ Hp).
      destruct (shouldCreateSecondary email_ phoneNumber_ ng) eqn:Hs.
      * exists (newSecondary now tx email_ phoneNumber_ elected).
        split; [apply Hnew; reflexivity|]. split; [exact Hp | exact Hne].
      * destruct (JS.hasStr p (existingPhonesOf ng)) eqn:Hhas.
        -- apply hasStr_In in Hhas. unfold existingPhonesOf in Hhas.
           apply in_flat_map in Hhas. destruct Hhas as (c & Hc & Hce).
           apply ifTruthy_In in Hce. destruct Hce as [Hce _].
           rewrite (proj2 (Hvals c Hc)) in Hce.
           exists c. split; [|split; [exact Hce | exact Hne]].
           apply normalizedGroup_in_finalGroup. exact Hc.
        -- apply hasStr_false in Hhas.
           assert (Hs' : false = true).
           { apply Hspec. right. exists p. split; [exact Hp | exact Hhas]. }
           discriminate.
Qed.

Lemma X11_response_lists_the_request_values_witness :
  In "alice@example.com"
     (emails (snd (identifyInTransaction 30 aliceStore
                     (mkRequest (Some " Alice@Example.com") (Some "+1 555 000 2222"))))) /\
  In "+15550002222"
     (phoneNumbers (snd (identifyInTransaction 30 aliceStore
                     (mkRequest (Some " Alice@Example.com") (Some "+1 555 000 2222"))))).
Proof.
  assert (Hn : normalizedStore aliceStore).
  { intros c Hc. vm_compute in Hc.
    destruct Hc as [<-|[<-|[]]]; split; reflexivity. }
  destruct (X11_response_lists_the_request_values 30 aliceStore
              (mkRequest (Some " Alice@Example.com") (Some "+1 555 000 2222")) Hn)
    as [He Hp].
  split; [apply He | apply Hp]; reflexivity.
Defined.

(* ===================================================================== *)
(** * The partial unique index on [email] *)
(* ===================================================================== *)

(** The non-NULL e-mails of a table, row by row. *)
Definition storedEmails (table : list Contact) : list string :=
  flat_map (fun c => match email c with Some e => [e] | None => [] end) table.

(** [CREATE UNIQUE INDEX unique_email_not_null ON "Contact"(email) WHERE
    email IS NOT NULL]: no two rows, deleted or not, hold the same e-mail. *)
Definition unique_email_not_null (tx : Store) : Prop :=
  NoDup (storedEmails (rows tx)).

Lemma storedEmails_app (l1 l2 : list Contact) :
  storedEmails (l1 ++ l2) = storedEmails l1 ++ storedEmails l2.
Proof. unfold storedEmails. apply flat_map_app. Qed.

Lemma storedEmails_keys (f : Contact -> Contact) (l : list Contact) :
  keepsKeys f -> storedEmails (map f l) = storedEmails l.
Proof.
  intros Hk. induction l as [|c l IH]; simpl; [reflexivity|].
  destruct (Hk c) as (_ & -> & _). rewrite IH. reflexivity.
Qed.

Lemma storedEmails_In (l : list Contact) (e : string) :
  In e (storedEmails l) <-> exists c, In c l /\ email c = Some e.
Proof.
  unfold storedEmails. rewrite in_flat_map. split.
  - intros (c & Hc & He). exists c. split; [exact Hc|].
    destruct (email c); [|destruct He]. destruct He as [->|[]]. reflexivity.
  - intros (c & Hc & He). exists c. split; [exact Hc|].
    rewrite He. left. reflexivity.
Qed.

(** X12. What the transaction body writes, held against the partial
    unique index on [email] shipped in the migrations.  On a table that
    satisfies the index, the table the body would leave satisfies it again
    exactly when the call appended no row, or the request has no e-mail, or
    no stored row holds the request's e-mail.  So a request that brings new
    information together with an e-mail that is already stored writes a
    second row with that e-mail, which the index refuses. *)
Theorem X12_writes_against_the_unique_email_index
    (now : Z) (tx : Store) (input : IdentifyRequest) :
  unique_email_not_null tx ->
  let email_ := normalizeEmail (req_email input) in
  let tx2 := fst (identifyInTransaction now tx input) in
  unique_email_not_null tx2 <->
  List.length (rows tx2) = List.length (rows tx) \/
  email_ = None \/
  (forall c, In c (rows tx) -> email c <> email_).
Proof.
  intros Hu email_ tx2.
  destruct (call_rows now tx input) as (f & extra & Hrows & Hkeys & _ & _ & Hshape).
  fold email_ tx2 in Hrows, Hshape.
  unfold unique_email_not_null.
  rewrite Hrows, storedEmails_app, (storedEmails_keys _ _ Hkeys), length_app, length_map.
  destruct Hshape as [(-> & _)|(lp & l & -> & _)]; simpl.
  - rewrite app_nil_r. split; [intros _; left; lia | intros _; exact Hu].
  - destruct email_ as [e|] eqn:He; simpl.
    + split.
      * intros Hnd. right. right. intros c Hc Hce.
        apply NoDup_remove_2 in Hnd. rewrite app_nil_r in Hnd.
        apply Hnd, storedEmails_In. exists c. auto.
      * intros [H|[H|H]]; [lia | discriminate |].
        apply NoDup_app; [exact Hu | repeat constructor; intros [] |].
        intros x Hx [<-|[]]. apply storedEmails_In in Hx.
        destruct Hx as (c & Hc & Hce). exact (H c Hc Hce).
    + rewrite app_nil_r. split; [intros _; right; left; reflexivity | intros _; exact Hu].
Qed.

Lemma X12_writes_against_the_unique_email_index_witness :
  unique_email_not_null oneStore /\
  ~ unique_email_not_null
      (fst (identifyInTransaction 20 oneStore (req "a@x.com" "+1555"))).
Proof.
  assert (Hu : unique_email_not_null oneStore).
  { unfold unique_email_not_null. vm_compute. repeat constructor. intros []. }
  split; [exact Hu|]. intros H.
  apply (X12_writes_against_the_unique_email_index 20 oneStore
           (req "a@x.com" "+1555") Hu) in H.
  destruct H as [H|[H|H]].
  - vm_compute in H. discriminate.
  - vm_compute in H. discriminate.
  - apply (H oneA); [vm_compute; left; reflexivity | reflexivity].
Defined.

(* ===================================================================== *)
(** * The response on a well-formed table *)
(* ===================================================================== *)

Lemma sorted_nodup_strict (l : list Z) :
  StronglySorted Z.le l -> NoDup l -> StronglySorted Z.lt l.
Proof.
  induction 1 as [|x l Hs IH Hall]; intros Hnd; constructor.
  - apply IH. apply NoDup_cons_iff in Hnd. tauto.
  - apply NoDup_cons_iff in Hnd. destruct Hnd as [Hx _].
    rewrite Forall_forall in *. intros y Hy. specialize (Hall y Hy).
    assert (x <> y) by (intros ->; contradiction). lia.
Qed.

Lemma secondaryIdsOf_nodup (freshPrimary : Contact) (w : WhereInput) (tx : Store) :
  uniqueIds tx -> NoDup (secondaryIdsOf freshPrimary (findMany w tx)).
Proof.
  intros Hu. unfold secondaryIdsOf.
  eapply Permutation_NoDup; [apply Permutation_sym, sort_perm|].
  apply filter_ids_nodup, findMany_ids_nodup, Hu.
Qed.

(** X13. On a table that satisfies the cluster invariant (every table
    built by calls from the empty one does), the response is well formed:
    [secondaryContactIds] is strictly ascending, so no identifier is listed
    twice, the primary's identifier is not among them, that identifier is the
    one of a live row of the resulting table, and no empty string is listed
    among [emails] or [phoneNumbers]. *)
Theorem X13_response_is_well_formed
    (now : Z) (tx : Store) (input : IdentifyRequest) :
  clusterInvariant tx ->
  let tx2 := fst (identifyInTransaction now tx input) in
  let response := snd (identifyInTransaction now tx input) in
  StronglySorted Z.lt (secondaryContactIds response) /\
  ~ In (primaryContatctId response) (secondaryContactIds response) /\
  (exists c, live tx2 c /\ id c = primaryContatctId response) /\
  (forall v, In v (emails response) \/ In v (phoneNumbers response) -> v <> "").
Proof.
  intros Hinv tx2 response.
  pose proof (identifyInTransaction_invariant now tx input Hinv) as Hinv2.
  fold tx2 in Hinv2.
  set (email_ := normalizeEmail (req_email input)).
  set (phoneNumber_ := normalizePhone (req_phoneNumber input)).
  destruct (directMatchesOf tx email_ phoneNumber_) as [|d ds] eqn:Hd.
  - unfold response, tx2.
    rewrite (identifyInTransaction_unmatched now tx input Hd).
    fold email_ phoneNumber_. simpl.
    split; [constructor|]. split; [intros []|]. split.
    + exists (mkContact (nextId tx) email_ phoneNumber_ primary None now None).
      split; [|reflexivity]. split; [|reflexivity].
      apply in_or_app. right. left. reflexivity.
    + intros v [Hv|Hv]; apply ifTruthy_In in Hv; destruct Hv as [_ Hv];
        apply nonEmpty_not_empty, Hv.
  - assert (Htx2 : tx2 = afterWrite now tx email_ phoneNumber_ d ds)
      by (unfold tx2; rewrite (identifyInTransaction_matched now tx input Hd);
          reflexivity).
    assert (Hresp : response = project (electedOf tx d ds) tx2)
      by (unfold response, tx2;
          rewrite (identifyInTransaction_matched now tx input Hd); reflexivity).
    rewrite Hresp. unfold project. cbn [primaryContatctId emails phoneNumbers
                                        secondaryContactIds].
    set (elected := electedOf tx d ds).
    set (final := findMany (rootedAt (id elected)) tx2).
    pose proof (@freshPrimary_found now tx email_ phoneNumber_ d ds Hd) as Hfound.
    cbv zeta in Hfound. fold elected in Hfound. rewrite <- Htx2 in Hfound.
    fold final in Hfound.
    destruct (find (fun c => id c =? id elected) final) as [fresh|] eqn:Hf;
      [|contradiction].
    apply find_some in Hf. destruct Hf as [Hfin Hfid].
    assert (Hfresh : live tx2 fresh).
    { apply findMany_In in Hfin. destruct Hfin as [Hfin Hr]. split; [exact Hfin|].
      unfold rootedAt in Hr. apply andb_prop in Hr. tauto. }
    split; [|split; [|split]].
    + apply sorted_nodup_strict; [apply sort_cmpNum_sorted|].
      apply secondaryIdsOf_nodup, (inv_unique Hinv2).
    + intros Hin. apply secondaryIdsOf_In in Hin.
      destruct Hin as (c & Hc & Hid & Hs & Hl).
      apply findMany_In in Hc. destruct Hc as [Hc _].
      destruct (inv_secondary Hinv2 c Hc Hs) as (t & _ & Ht & Hne).
      rewrite Hl in Ht. injection Ht as Ht. congruence.
    + exists fresh. split; [exact Hfresh | reflexivity].
    + intros v [Hv|Hv].
      * apply (proj1 (proj2 (uniqueValues_spec email fresh final))) in Hv.
        destruct Hv as [Hv|(c & _ & _ & Hv)]; [apply ifTruthy_In in Hv|];
          apply nonEmpty_not_empty; tauto.
      * apply (proj1 (proj2 (uniqueValues_spec phoneNumber fresh final))) in Hv.
        destruct Hv as [Hv|(c & _ & _ & Hv)]; [apply ifTruthy_In in Hv|];
          apply nonEmpty_not_empty; tauto.
Qed.

Lemma X13_response_is_well_formed_witness :
  StronglySorted Z.lt
    (secondaryContactIds (snd (identifyInTransaction 40 chainStore (req "e1" "p3")))) /\
  ~ In (primaryContatctId (snd (identifyInTransaction 40 chainStore (req "e1" "p3"))))
       (secondaryContactIds (snd (identifyInTransaction 40 chainStore (req "e1" "p3")))).
Proof.
  assert (Hinv : clusterInvariant chainStore)
    by (apply run_invariant, emptyStore_invariant).
  destruct (X13_response_is_well_formed 40 chainStore (req "e1" "p3") Hinv)
    as (H1 & H2 & _).
  split; [exact H1 | exact H2].
Defined.

(* ===================================================================== *)
(** * Soft-deleted rows *)
(* ===================================================================== *)

(** The table without its soft-deleted rows. *)
Definition purge (tx : Store) : Store :=
  mkStore (filter notDeleted (rows tx)) (nextId tx).

Lemma filter_purged (w : WhereInput) (l : list Contact) :
  (forall c, w c = true -> notDeleted c = true) ->
  filter w (filter notDeleted l) = filter w l.
Proof.
  intros Hw. induction l as [|c l IH]; simpl; [reflexivity|].
  destruct (notDeleted c) eqn:Ec; simpl.
  - rewrite IH. reflexivity.
  - destruct (w c) eqn:Ew; [|exact IH].
    rewrite (Hw c Ew) in Ec. discriminate.
Qed.

Lemma findMany_purge (w : WhereInput) (tx : Store) :
  (forall c, w c = true -> notDeleted c = true) ->
  findMany w (purge tx) = findMany w tx.
Proof.
  intros Hw. unfold findMany, purge. simpl. rewrite (filter_purged w _ Hw).
  reflexivity.
Qed.

Lemma seedQuery_live (email_ phoneNumber_ : option string) (c : Contact) :
  seedQuery email_ phoneNumber_ c = true -> notDeleted c = true.
Proof. unfold seedQuery. intros H. apply andb_prop in H. tauto. Qed.

Lemma expansionQuery_live (g : list Contact) (ids : list Z) (c : Contact) :
  expansionQuery g ids c = true -> notDeleted c = true.
Proof. intros H. apply expansionQuery_spec in H. tauto. Qed.

Lemma rootedAt_live (i : Z) (c : Contact) : rootedAt i c = true -> notDeleted c = true.
Proof. unfold rootedAt. intros H. apply andb_prop in H. tauto. Qed.

Lemma expandGroup_purge (tx : Store) (g : list Contact) :
  expandGroup (purge tx) g (map id g) = expandGroup tx g (map id g).
Proof.
  assert (Hround : forall x, expandRound (purge tx) x = expandRound tx x).
  { intros x. unfold expandRound, nextRound.
    rewrite (findMany_purge _ tx (expansionQuery_live x (map id x))). reflexivity. }
  assert (Hiter : forall n, Nat.iter n (expandRound (purge tx)) g
                            = Nat.iter n (expandRound tx) g).
  { induction n as [|n IH]; simpl; [reflexivity|]. rewrite IH. apply Hround. }
  destruct (expandGroup_rounds tx g) as (n & _ & Heq & Hend).
  rewrite Heq, <- Hiter. apply expandGroup_fix.
  unfold nextRound. rewrite (findMany_purge _ tx (expansionQuery_live _ _)).
  rewrite Hiter. exact Hend.
Qed.

Lemma purge_demoteOthers (elected : Contact) (others : list Contact) (tx : Store) :
  purge (demoteOthers elected others tx) = demoteOthers elected others (purge tx).
Proof.
  unfold demoteOthers. destruct others as [|o others]; [reflexivity|].
  unfold purge, updateMany. simpl. f_equal.
  rewrite filter_of_map. f_equal. apply filter_ext.
  intros c. simpl. destruct ((id c =? id o) || idIn (map id others) c); reflexivity.
Qed.

Lemma purge_create (now : Z) (e p : option string) (lp : LinkPrecedence)
    (l : option Z) (tx : Store) :
  purge (snd (create now e p lp l tx)) = snd (create now e p lp l (purge tx)).
Proof.
  unfold purge, create. simpl. rewrite filter_app. reflexivity.
Qed.

(** X14. Soft-deleted rows are invisible: a call answers as it would on
    the table without them and writes what it would write there.  Run on the
    purged table, the body returns the same response, and the table it leaves
    is the purged version of the table the call leaves on the full one. *)
Theorem X14_deleted_rows_are_invisible (now : Z) (tx : Store) (input : IdentifyRequest) :
  identifyInTransaction now (purge tx) input
  = (purge (fst (identifyInTransaction now tx input)),
     snd (identifyInTransaction now tx input)).
Proof.
  unfold identifyInTransaction.
  set (email_ := JS.optOrUndefined (normalizeEmail (req_email input))).
  set (phoneNumber_ := JS.optOrUndefined (normalizePhone (req_phoneNumber input))).
  unfold directMatchesOf.
  rewrite (findMany_purge _ tx (seedQuery_live email_ phoneNumber_)).
  destruct (findMany (seedQuery email_ phoneNumber_) tx) as [|d ds] eqn:Hd.
  - simpl. unfold purge. simpl. rewrite filter_app. reflexivity.
  - assert (Hg : resolveGroup (purge tx) (d :: ds) = resolveGroup tx (d :: ds))
      by (unfold resolveGroup; rewrite expandGroup_purge; reflexivity).
    rewrite Hg.
    set (group := resolveGroup tx (d :: ds)).
    set (elected := electPrimary (hd d group) group).
    set (others := otherPrimariesOf elected group).
    rewrite <- purge_demoteOthers.
    set (tx1 := demoteOthers elected others tx).
    rewrite (findMany_purge _ tx1 (rootedAt_live (id elected))).
    cbn [fst snd].
    destruct (shouldCreateSecondary email_ phoneNumber_
                (findMany (rootedAt (id elected)) tx1)).
    + rewrite <- purge_create. f_equal.
      unfold project. rewrite (findMany_purge _ _ (rootedAt_live (id elected))).
      reflexivity.
    + f_equal.
      unfold project. rewrite (findMany_purge _ _ (rootedAt_live (id elected))).
      reflexivity.
Qed.

(* ===================================================================== *)
(** * Looking a contact up *)
(* ===================================================================== *)

(** Two requests whose direct matches all lie in one cluster elect the same
    contact, when no two rows share a [createdAt]. *)
Lemma elected_of_component (tx : Store) (e1 p1 e2 p2 : option string)
    (d1 : Contact) (ds1 : list Contact) (d2 : Contact) (ds2 : list Contact)
    (a : Contact) :
  uniqueIds tx -> distinctTimes tx -> live tx a ->
  directMatchesOf tx e1 p1 = d1 :: ds1 ->
  directMatchesOf tx e2 p2 = d2 :: ds2 ->
  (forall s, In s (d1 :: ds1) -> connected tx a s) ->
  (forall s, In s (d2 :: ds2) -> connected tx a s) ->
  electedOf tx d1 ds1 = electedOf tx d2 ds2.
Proof.
  intros Hu Hdist Ha H1 H2 Hc1 Hc2.
  assert (Hl1 : Forall (live tx) (d1 :: ds1))
    by (rewrite <- H1; apply directMatches_live).
  assert (Hl2 : Forall (live tx) (d2 :: ds2))
    by (rewrite <- H2; apply directMatches_live).
  (* a member of one group is a member of the other *)
  assert (Hcross : forall (d d' : Contact) (ds ds' : list Contact),
            Forall (live tx) (d :: ds) -> Forall (live tx) (d' :: ds') ->
            (forall s, In s (d :: ds) -> connected tx a s) ->
            (forall s, In s (d' :: ds') -> connected tx a s) ->
            forall c, In c (expandGroup tx (d :: ds) (map id (d :: ds))) ->
                      In c (expandGroup tx (d' :: ds') (map id (d' :: ds')))).
  { intros d d' ds ds' Hl Hl' Hc Hc' c Hin.
    apply group_complete; [exact Hl' | exact Hu |].
    apply group_sound in Hin.
    apply reach_some_seed in Hin. destruct Hin as (s & Hs & Hsc).
    assert (Hac : connected tx a c)
      by (eapply connected_trans; [apply Hc, Hs | exact Hsc]).
    assert (Hd'a : connected tx d' a).
    { apply connected_sym; [exact Ha|]. apply Hc'. left. reflexivity. }
    apply reach_trans with (a := d').
    - apply reach_seed. left. reflexivity.
    - eapply connected_trans; eassumption. }
  destruct (electedOf_spec tx d1 ds1) as (Hin1 & _ & Hmin1).
  destruct (electedOf_spec tx d2 ds2) as (Hin2 & _ & Hmin2).
  cbv zeta in *.
  pose proof (Hcross d1 d2 ds1 ds2 Hl1 Hl2 Hc1 Hc2 _ Hin1) as Hin12.
  pose proof (Hcross d2 d1 ds2 ds1 Hl2 Hl1 Hc2 Hc1 _ Hin2) as Hin21.
  apply Hdist.
  - destruct (@electedOf_live tx e1 p1 d1 ds1 H1) as [H _]. exact H.
  - destruct (@electedOf_live tx e2 p2 d2 ds2 H2) as [H _]. exact H.
  - specialize (Hmin1 _ Hin21). specialize (Hmin2 _ Hin12). lia.
Qed.

Lemma matched_primaryId (now : Z) (tx : Store) (input : IdentifyRequest)
    (d : Contact) (ds : list Contact) :
  directMatchesOf tx (normalizeEmail (req_email input))
                     (normalizePhone (req_phoneNumber input)) = d :: ds ->
  primaryContatctId (snd (identifyInTransaction now tx input))
  = id (electedOf tx d ds).
Proof.
  intros Hd. rewrite (identifyInTransaction_matched now tx input Hd).
  apply project_primaryId.
Qed.

(** X15. Looking a contact up by either of its attributes gives the same
    primary.  On a table with unique identifiers where no two rows share a
    [createdAt], if a live row holds both the request's normalized e-mail and
    its normalized phone number, then the request, the request with the
    e-mail alone and the request with the phone number alone all answer with
    the same [primaryContatctId]. *)
Theorem X15_lookups_by_either_attribute_agree
    (now now' now'' : Z) (tx : Store) (input : IdentifyRequest)
    (n : Contact) (e p : string) :
  uniqueIds tx -> distinctTimes tx ->
  live tx n ->
  normalizeEmail (req_email input) = Some e -> email n = Some e ->
  normalizePhone (req_phoneNumber input) = Some p -> phoneNumber n = Some p ->
  let byBoth := snd (identifyInTransaction now tx input) in
  let byEmail :=
    snd (identifyInTransaction now' tx (mkRequest (req_email input) None)) in
  let byPhone :=
    snd (identifyInTransaction now'' tx (mkRequest None (req_phoneNumber input))) in
  primaryContatctId byEmail = primaryContatctId byBoth /\
  primaryContatctId byPhone = primaryContatctId byBoth.
Proof.
  intros Hu Hdist Hn He Hne Hp Hnp byBoth byEmail byPhone.
  assert (Ee : JS.nonEmpty e = true) by apply (normalizeEmail_nonEmpty _ He).
  assert (Ep : JS.nonEmpty p = true) by apply (normalizePhone_nonEmpty _ Hp).
  (* every direct match of each request is connected to [n] *)
  assert (Hconn : forall e' p' s,
            (e' = Some e \/ e' = None) -> (p' = Some p \/ p' = None) ->
            In s (directMatchesOf tx e' p') -> connected tx n s).
  { intros e' p' s He' Hp' Hs. apply directMatches_In in Hs.
    destruct Hs as [Hl [(x & Hx & Hxe & Hsx)|(x & Hx & Hxe & Hsx)]].
    - destruct He' as [-> | ->]; [|discriminate]. injection Hx as <-.
      apply (@same_email_connected tx (Some e)); [exact Hl | |];
        exists e; auto.
    - destruct Hp' as [-> | ->]; [|discriminate]. injection Hx as <-.
      apply (@same_phone_connected tx (Some p)); [exact Hl | |];
        exists p; auto. }
  (* and [n] is one of them *)
  assert (Hseed : forall e' p',
            (e' = Some e \/ p' = Some p) -> In n (directMatchesOf tx e' p')).
  { intros e' p' H. apply directMatches_In. split; [exact Hn|].
    destruct H as [-> | ->]; [left; exists e | right; exists p]; auto. }
  assert (Hsome : forall e' p', (e' = Some e \/ p' = Some p) ->
            exists d ds, directMatchesOf tx e' p' = d :: ds).
  { intros e' p' H. specialize (Hseed e' p' H).
    destruct (directMatchesOf tx e' p') as [|d ds]; [destruct Hseed | eauto]. }
  destruct (Hsome (Some e) (Some p) (or_introl eq_refl)) as (d & ds & Hd).
  destruct (Hsome (Some e) None (or_introl eq_refl)) as (d1 & ds1 & Hd1).
  destruct (Hsome None (Some p) (or_intror eq_refl)) as (d2 & ds2 & Hd2).
  unfold byBoth, byEmail, byPhone.
  rewrite (matched_primaryId now tx input d ds)
    by (rewrite He, Hp; exact Hd).
  rewrite (matched_primaryId now' tx (mkRequest (req_email input) None) d1 ds1)
    by (simpl; rewrite He; exact Hd1).
  rewrite (matched_primaryId now'' tx (mkRequest None (req_phoneNumber input)) d2 ds2)
    by (simpl; rewrite Hp; exact Hd2).
  split; f_equal.
  - apply (elected_of_component tx (Some e) None (Some e) (Some p) d1 ds1 d ds n);
      auto.
    + intros s Hs. apply (Hconn (Some e) None); auto. rewrite Hd1. exact Hs.
    + intros s Hs. apply (Hconn (Some e) (Some p)); auto. rewrite Hd. exact Hs.
  - apply (elected_of_component tx None (Some p) (Some e) (Some p) d2 ds2 d ds n);
      auto.
    + intros s Hs. apply (Hconn None (Some p)); auto. rewrite Hd2. exact Hs.
    + intros s Hs. apply (Hconn (Some e) (Some p)); auto. rewrite Hd. exact Hs.
Qed.

Lemma X15_lookups_by_either_attribute_agree_witness :
  primaryContatctId
    (snd (identifyInTransaction 31 aliceStore (mkRequest (Some "Alice@example.com") None)))
  = primaryContatctId
      (snd (identifyInTransaction 30 aliceStore
              (mkRequest (Some "Alice@example.com") (Some "+1 555 000 1111")))) /\
  primaryContatctId
    (snd (identifyInTransaction 32 aliceStore (mkRequest None (Some "+1 555 000 1111"))))
  = primaryContatctId
      (snd (identifyInTransaction 30 aliceStore
              (mkRequest (Some "Alice@example.com") (Some "+1 555 000 1111")))).
Proof.
  assert (Hrows : rows aliceStore
                  = [mkContact 1 (Some "alice@example.com") None primary None 10 None;
                     mkContact 2 (Some "alice@example.com") (Some "+15550001111")
                               secondary (Some 1) 20 None])
    by (vm_compute; reflexivity).
  refine (X15_lookups_by_either_attribute_agree 30 31 32 aliceStore
            (mkRequest (Some "Alice@example.com") (Some "+1 555 000 1111"))
            (mkContact 2 (Some "alice@example.com") (Some "+15550001111")
                       secondary (Some 1) 20 None)
            "alice@example.com" "+15550001111" _ _ _ _ _ _ _).
  - unfold uniqueIds. rewrite Hrows. simpl. repeat constructor; simpl; intuition lia.
  - intros a b Ha Hb. rewrite Hrows in Ha, Hb.
    destruct Ha as [<-|[<-|[]]], Hb as [<-|[<-|[]]]; simpl; intros H;
      first [reflexivity | discriminate H].
  - split; [rewrite Hrows; right; left; reflexivity | reflexivity].
  - reflexivity.
  - reflexivity.
  - reflexivity.
  - reflexivity.
Defined.

(* ===================================================================== *)
(** * The row a call creates, in its answer *)
(* ===================================================================== *)

Lemma created_in_finalGroup (now : Z) (tx : Store) (email_ phoneNumber_ : option string)
    (d : Contact) (ds : list Contact) :
  let elected := electedOf tx d ds in
  shouldCreateSecondary email_ phoneNumber_
    (findMany (rootedAt (id elected)) (afterDemotion tx d ds)) = true ->
  In (newSecondary now tx email_ phoneNumber_ elected)
     (findMany (rootedAt (id elected)) (afterWrite now tx email_ phoneNumber_ d ds)).
Proof.
  intros elected Hs. apply findMany_In. split.
  - unfold afterWrite. fold elected. rewrite Hs. simpl.
    apply in_or_app. right. left. unfold newSecondary, afterDemotion.
    rewrite demoteOthers_nextId. reflexivity.
  - unfold rootedAt, whereOR, linkedIdEquals, newSecondary. simpl.
    rewrite Z.eqb_refl, orb_true_r. reflexivity.
Qed.

(** X16. When a call that found a match appends a row, the answer lists
    that row: its identifier, the next of the sequence, is among
    [secondaryContactIds]; and when every stored identifier is below the
    sequence, it is the largest of them. *)
Theorem X16_created_secondary_is_listed
    (now : Z) (tx : Store) (input : IdentifyRequest) (d : Contact) (ds : list Contact) :
  directMatchesOf tx (normalizeEmail (req_email input))
                     (normalizePhone (req_phoneNumber input)) = d :: ds ->
  let tx2 := fst (identifyInTransaction now tx input) in
  let response := snd (identifyInTransaction now tx input) in
  List.length (rows tx2) = S (List.length (rows tx)) ->
  In (nextId tx) (secondaryContactIds response) /\
  (idsBelowNext tx ->
   forall i, In i (secondaryContactIds response) -> i <= nextId tx).
Proof.
  intros Hd tx2 response Hlen.
  set (email_ := normalizeEmail (req_email input)) in *.
  set (phoneNumber_ := normalizePhone (req_phoneNumber input)) in *.
  assert (Htx2 : tx2 = afterWrite now tx email_ phoneNumber_ d ds)
    by (unfold tx2; rewrite (identifyInTransaction_matched now tx input Hd);
        reflexivity).
  assert (Hresp : response = project (electedOf tx d ds) tx2)
    by (unfold response, tx2;
        rewrite (identifyInTransaction_matched now tx input Hd); reflexivity).
  set (elected := electedOf tx d ds) in *.
  set (others := otherPrimariesOf elected (resolveGroup tx (d :: ds))).
  assert (Hrows1 : rows (afterDemotion tx d ds) = map (demoteIn elected others) (rows tx))
    by (unfold afterDemotion; apply demoteOthers_rows).
  assert (Hs : shouldCreateSecondary email_ phoneNumber_
                 (findMany (rootedAt (id elected)) (afterDemotion tx d ds)) = true).
  { destruct (shouldCreateSecondary email_ phoneNumber_
                (findMany (rootedAt (id elected)) (afterDemotion tx d ds))) eqn:E;
      [reflexivity|].
    exfalso. rewrite Htx2 in Hlen. unfold afterWrite in Hlen.
    fold elected in Hlen. rewrite E, Hrows1, length_map in Hlen. lia. }
  pose proof (created_in_finalGroup now tx email_ phoneNumber_ d ds Hs) as Hnew.
  fold elected in Hnew. rewrite <- Htx2 in Hnew.
  rewrite Hresp. unfold project. cbn [secondaryContactIds].
  set (final := findMany (rootedAt (id elected)) tx2) in *.
  assert (Hfresh : id (match find (fun c => id c =? id elected) final with
                       | Some c => c
                       | None => elected
                       end) = id elected).
  { destruct (find (fun c => id c =? id elected) final) as [c|] eqn:E; [|reflexivity].
    apply find_some in E. destruct E as [_ E]. apply Z.eqb_eq, E. }
  split.
  - apply secondaryIdsOf_In.
    exists (newSecondary now tx email_ phoneNumber_ elected).
    split; [exact Hnew|]. rewrite Hfresh. repeat split.
  - intros Hbelow i Hi. apply secondaryIdsOf_In in Hi.
    destruct Hi as (c & Hc & <- & _). apply findMany_In in Hc. destruct Hc as [Hc _].
    rewrite Htx2 in Hc. unfold afterWrite in Hc. fold elected in Hc.
    rewrite Hs in Hc. simpl in Hc. rewrite Hrows1 in Hc.
    apply in_app_or in Hc. destruct Hc as [Hc|[<-|[]]].
    + apply in_map_iff in Hc. destruct Hc as (c0 & <- & Hc0).
      destruct (demoteIn_keepsKeys elected others c0) as (-> & _).
      specialize (Hbelow c0 Hc0). lia.
    + simpl. unfold afterDemotion. rewrite demoteOthers_nextId. lia.
Qed.

Lemma X16_created_secondary_is_listed_witness :
  In 2 (secondaryContactIds
          (snd (identifyInTransaction 20 oneStore (req "a@x.com" "+1555")))).
Proof.
  refine (proj1 (X16_created_secondary_is_listed 20 oneStore (req "a@x.com" "+1555")
                   oneA [] _ _)); vm_compute; reflexivity.
Defined.

(* ===================================================================== *)
(** * Where the links lead, under an advancing clock *)
(* ===================================================================== *)

(** A link points at a row created earlier. *)
Definition linksToOlder (tx : Store) : Prop :=
  forall c t, In c (rows tx) -> In t (rows tx) ->
    linkedId c = Some (id t) -> createdAt t < createdAt c.

(** Following [linkedId] from [c] leads to [r]. *)
Inductive leadsTo (tx : Store) : Contact -> Contact -> Prop :=
| leads_here : forall c, leadsTo tx c c
| leads_on : forall c t r,
    In t (rows tx) -> linkedId c = Some (id t) -> leadsTo tx t r ->
    leadsTo tx c r.

Lemma invariant_linksBelow (tx : Store) : clusterInvariant tx -> linksBelowNext tx.
Proof.
  intros Hinv c j Hc Hl.
  destruct (linkPrecedence c) eqn:E.
  - rewrite (inv_primary Hinv c Hc E) in Hl. discriminate.
  - destruct (inv_secondary Hinv c Hc E) as (t & Ht & Hlt & _).
    rewrite Hl in Hlt. injection Hlt as ->. apply (inv_below Hinv), Ht.
Qed.

Lemma matched_linksToOlder (now : Z) (tx : Store) (email_ phoneNumber_ : option string)
    (d : Contact) (ds : list Contact) :
  chronInvariant tx -> linksToOlder tx ->
  (forall c, In c (rows tx) -> createdAt c < now) ->
  directMatchesOf tx email_ phoneNumber_ = d :: ds ->
  linksToOlder (afterWrite now tx email_ phoneNumber_ d ds).
Proof.
  intros [Hinv _ Hdist] Hold Hclock Hd.
  pose proof (inv_unique Hinv) as Hu.
  pose proof (invariant_linksBelow _ Hinv) as Hlb.
  set (elected := electedOf tx d ds).
  set (group := resolveGroup tx (d :: ds)).
  set (others := otherPrimariesOf elected group).
  destruct (afterWrite_shape now tx email_ phoneNumber_ d ds) as (extra & Hrows & Hshape).
  fold elected group others in Hrows, Hshape.
  assert (Hel : In elected (rows tx))
    by (destruct (@electedOf_live tx email_ phoneNumber_ d ds Hd) as [H _]; exact H).
  assert (Hsub : forall x, In x group -> In x (rows tx))
    by (intros x Hx; eapply resolveGroup_rows; eassumption).
  assert (Hextra : forall x, In x extra ->
            x = newSecondary now tx email_ phoneNumber_ elected).
  { intros x Hx. destruct Hshape as [[-> _]|[-> _]]; [destruct Hx|].
    destruct Hx as [<-|[]]. reflexivity. }
  (* a row of the new table whose identifier is the elected one's is as old *)
  assert (Htarget : forall t', In t' (map (demoteIn elected others) (rows tx) ++ extra) ->
            id t' = id elected -> createdAt t' = createdAt elected).
  { intros t' Ht' Hid. apply in_app_or in Ht'. destruct Ht' as [Ht'|Ht'].
    - apply in_map_iff in Ht'. destruct Ht' as (t0 & <- & Ht0).
      destruct (demoteIn_keepsKeys elected others t0) as (Hi & _ & _ & Hc & _).
      rewrite Hc. f_equal. apply (@unique_row tx); auto. congruence.
    - rewrite (Hextra _ Ht') in Hid. simpl in Hid.
      pose proof (inv_below Hinv _ Hel). lia. }
  intros c' t' Hc' Ht' Hlink. rewrite Hrows in Hc', Ht'.
  apply in_app_or in Hc'. destruct Hc' as [Hc'|Hc'].
  - apply in_map_iff in Hc'. destruct Hc' as (c & <- & Hc).
    destruct (demoteIn_keepsKeys elected others c) as (_ & _ & _ & Hcc & _).
    rewrite Hcc. unfold demoteIn in Hlink.
    destruct (idIn (map id others) c) eqn:Ehit.
    + (* demoted: the link goes to the elected contact *)
      simpl in Hlink. injection Hlink as Hid.
      rewrite (Htarget t' Ht' (eq_sym Hid)).
      apply (@demoteIn_hit tx elected group c Hu Hsub Hc) in Ehit.
      destruct Ehit as (Hg & Hne & _).
      destruct (electedOf_spec tx d ds) as (_ & _ & Hmin). cbv zeta in Hmin.
      assert (Hle : createdAt elected <= createdAt c)
        by (apply Hmin, resolveGroup_In, Hg).
      assert (createdAt elected <> createdAt c).
      { intros E. apply Hne. f_equal. symmetry. apply Hdist; auto. }
      lia.
    + (* untouched: the link is the one it had *)
      apply in_app_or in Ht'. destruct Ht' as [Ht'|Ht'].
      * apply in_map_iff in Ht'. destruct Ht' as (t0 & <- & Ht0).
        destruct (demoteIn_keepsKeys elected others t0) as (Hi & _ & _ & Hc0 & _).
        rewrite Hc0. apply Hold; auto. rewrite <- Hi. exact Hlink.
      * exfalso. rewrite (Hextra _ Ht') in Hlink. simpl in Hlink.
        pose proof (Hlb _ _ Hc Hlink). lia.
  - (* the appended row links to the elected contact *)
    rewrite (Hextra _ Hc') in Hlink |- *. simpl in Hlink |- *.
    injection Hlink as Hid. rewrite (Htarget t' Ht' (eq_sym Hid)).
    apply Hclock, Hel.
Qed.

Lemma identifyInTransaction_linksToOlder (now : Z) (tx : Store) (input : IdentifyRequest) :
  chronInvariant tx -> linksToOlder tx ->
  (forall c, In c (rows tx) -> createdAt c < now) ->
  linksToOlder (fst (identifyInTransaction now tx input)).
Proof.
  intros Hchron Hold Hclock.
  destruct (directMatchesOf tx (normalizeEmail (req_email input))
              (normalizePhone (req_phoneNumber input))) as [|d ds] eqn:Hd.
  - rewrite (identifyInTransaction_unmatched now tx input Hd). simpl.
    pose proof (invariant_linksBelow _ (chron_cluster _ Hchron)) as Hlb.
    intros c t Hc Ht Hlink. simpl in Hc, Ht.
    apply in_app_or in Hc. apply in_app_or in Ht.
    destruct Hc as [Hc|[<-|[]]]; [|discriminate Hlink].
    destruct Ht as [Ht|[<-|[]]]; [apply Hold; assumption|].
    exfalso. simpl in Hlink. pose proof (Hlb _ _ Hc Hlink). lia.
  - rewrite (identifyInTransaction_matched now tx input Hd). simpl.
    apply matched_linksToOlder; assumption.
Qed.

(** Rows created later have larger identifiers. *)
Definition olderHasLowerId (tx : Store) : Prop :=
  forall a b, In a (rows tx) -> In b (rows tx) ->
    createdAt a < createdAt b -> id a < id b.

Lemma identifyInTransaction_olderHasLowerId
    (now : Z) (tx : Store) (input : IdentifyRequest) :
  idsBelowNext tx -> olderHasLowerId tx ->
  (forall c, In c (rows tx) -> createdAt c < now) ->
  olderHasLowerId (fst (identifyInTransaction now tx input)).
Proof.
  intros Hbelow Hord Hclock.
  destruct (call_rows now tx input) as (f & extra & Hrows & Hkeys & _ & _ & Hshape).
  cbv zeta in Hrows, Hshape.
  assert (Hextra : forall x, In x extra -> id x = nextId tx /\ createdAt x = now).
  { intros x Hx. destruct Hshape as [(-> & _)|(lp & l & -> & _)]; [destruct Hx|].
    destruct Hx as [<-|[]]. split; reflexivity. }
  assert (Hold : forall x, In x (map f (rows tx)) ->
            exists x0, In x0 (rows tx) /\ id x = id x0 /\ createdAt x = createdAt x0).
  { intros x Hx. apply in_map_iff in Hx. destruct Hx as (x0 & <- & Hx0).
    destruct (Hkeys x0) as (Hi & _ & _ & Hc & _). exists x0. auto. }
  intros a b Ha Hb Hlt. rewrite Hrows in Ha, Hb.
  apply in_app_or in Ha. apply in_app_or in Hb.
  destruct Ha as [Ha|Ha], Hb as [Hb|Hb].
  - destruct (Hold a Ha) as (a0 & Ha0 & -> & Ea).
    destruct (Hold b Hb) as (b0 & Hb0 & -> & Eb).
    apply Hord; auto. lia.
  - destruct (Hold a Ha) as (a0 & Ha0 & -> & _).
    destruct (Hextra b Hb) as [-> _]. apply Hbelow, Ha0.
  - destruct (Hold b Hb) as (b0 & Hb0 & _ & Eb).
    destruct (Hextra a Ha) as [_ Ea]. specialize (Hclock b0 Hb0). lia.
  - destruct (Hextra a Ha) as [_ Ea]. destruct (Hextra b Hb) as [_ Eb]. lia.
Qed.

(** What every table built under an advancing clock satisfies. *)
Record advancingInvariant (tx : Store) : Prop := mkAdvancingInvariant {
  adv_chron : chronInvariant tx;
  adv_links : linksToOlder tx;
  adv_ids : olderHasLowerId tx
}.

Lemma identifyInTransaction_advancing (now : Z) (tx : Store) (input : IdentifyRequest) :
  advancingInvariant tx ->
  (forall c, In c (rows tx) -> createdAt c < now) ->
  advancingInvariant (fst (identifyInTransaction now tx input)).
Proof.
  intros [Hchron Hlinks Hids] Hclock. constructor.
  - apply identifyInTransaction_chron; assumption.
  - apply identifyInTransaction_linksToOlder; assumption.
  - apply identifyInTransaction_olderHasLowerId; try assumption.
    apply (inv_below (chron_cluster _ Hchron)).
Qed.

Lemma emptyStore_advancing : advancingInvariant emptyStore.
Proof.
  constructor; [apply emptyStore_chron | intros c t [] | intros a b []].
Qed.

Lemma run_advancing (calls : list (Z * IdentifyRequest)) (s : Store) :
  advancingInvariant s -> chronological calls s ->
  advancingInvariant (run calls s).
Proof.
  revert s. induction calls as [|[now input] calls IH]; intros s Hs Hc; simpl.
  - exact Hs.
  - destruct Hc as [Hclock Hrest]. apply IH; [|exact Hrest].
    rewrite reconcile_store. destruct (validateInput input); [|exact Hs].
    apply identifyInTransaction_advancing; assumption.
Qed.

(** The number of rows created before [c]. *)
Definition olderRows (tx : Store) (c : Contact) : nat :=
  List.length (filter (fun r => createdAt r <? createdAt c) (rows tx)).

Lemma links_lead_to_a_primary (tx : Store) :
  clusterInvariant tx -> linksToOlder tx ->
  forall c, In c (rows tx) ->
    exists root, In root (rows tx) /\ linkPrecedence root = primary /\
                 leadsTo tx c root.
Proof.
  intros Hinv Hold.
  assert (G : forall n c, (olderRows tx c < n)%nat -> In c (rows tx) ->
            exists root, In root (rows tx) /\ linkPrecedence root = primary /\
                         leadsTo tx c root).
  { induction n as [|n IH]; intros c Hn Hc; [lia|].
    destruct (linkPrecedence c) eqn:E.
    - exists c. split; [exact Hc|]. split; [exact E | constructor].
    - destruct (inv_secondary Hinv c Hc E) as (t & Ht & Hl & _).
      pose proof (Hold c t Hc Ht Hl) as Hlt.
      assert (Hdec : (olderRows tx t < olderRows tx c)%nat).
      { unfold olderRows. apply filter_shrinks with (c := t).
        - intros x Hx. apply Z.ltb_lt in Hx. apply Z.ltb_lt. lia.
        - exact Ht.
        - apply Z.ltb_lt. exact Hlt.
        - apply Z.ltb_irrefl. }
      assert (Hn' : (olderRows tx t < n)%nat) by lia.
      destruct (IH t Hn' Ht) as (root & Hr & Hp & Hlead).
      exists root. split; [exact Hr|]. split; [exact Hp|].
      apply leads_on with (t := t); assumption. }
  intros c Hc. apply (G (S (olderRows tx c))); [lia | exact Hc].
Qed.

(** X17. In a table built from the empty one by calls made under an
    advancing clock, every link points at a row created strictly earlier, so
    the links form no cycle, and following [linkedId] from any row ends at a
    row whose [linkPrecedence] is primary (after one step or after
    several). *)
Theorem X17_links_lead_to_a_primary (calls : list (Z * IdentifyRequest)) :
  chronological calls emptyStore ->
  let tx := run calls emptyStore in
  linksToOlder tx /\
  (forall c, In c (rows tx) ->
     exists root, In root (rows tx) /\ linkPrecedence root = primary /\
                  leadsTo tx c root).
Proof.
  intros Hc tx.
  destruct (run_advancing calls emptyStore emptyStore_advancing Hc)
    as [Hchron Hold _].
  split; [exact Hold|].
  apply links_lead_to_a_primary; [apply (chron_cluster _ Hchron) | exact Hold].
Qed.

Lemma X17_links_lead_to_a_primary_witness :
  exists root,
    In root (rows chainStore) /\ linkPrecedence root = primary /\
    leadsTo chainStore chainS3 root.
Proof.
  assert (Hc : chronological
                 [(10, req "e1" ""); (20, req "e2" ""); (30, req "e2" "p3");
                  (40, req "e1" "p3")] emptyStore).
  { cbn [chronological]. repeat split; intros c Hc; vm_compute in Hc;
      repeat (destruct Hc as [<-|Hc]; [reflexivity|]); destruct Hc. }
  apply (proj2 (X17_links_lead_to_a_primary _ Hc)).
  vm_compute. right. right. left. reflexivity.
Defined.

(** X18. In a table built from the empty one by calls made under an
    advancing clock, a further call at a later clock reading answers with a
    primary whose identifier is lower than every identifier it lists among
    [secondaryContactIds]. *)
Theorem X18_primary_has_the_lowest_id
    (calls : list (Z * IdentifyRequest)) (now : Z) (input : IdentifyRequest) :
  chronological calls emptyStore ->
  let tx := run calls emptyStore in
  (forall c, In c (rows tx) -> createdAt c < now) ->
  let response := snd (identifyInTransaction now tx input) in
  forall i, In i (secondaryContactIds response) -> primaryContatctId response < i.
Proof.
  intros Hc tx Hclock response i Hi.
  pose proof (run_advancing calls emptyStore emptyStore_advancing Hc) as Hadv.
  fold tx in Hadv.
  destruct (identifyInTransaction_advancing now tx input Hadv Hclock)
    as [_ Hlinks Hids].
  destruct (directMatchesOf tx (normalizeEmail (req_email input))
              (normalizePhone (req_phoneNumber input))) as [|d ds] eqn:Hd.
  - unfold response in Hi.
    rewrite (identifyInTransaction_unmatched now tx input Hd) in Hi. destruct Hi.
  - pose proof (@freshPrimary_found now tx _ _ d ds Hd) as Hfound.
    cbv zeta in Hfound.
    revert Hi Hlinks Hids. unfold response.
    rewrite (identifyInTransaction_matched now tx input Hd). cbn [fst snd].
    set (tx2 := afterWrite now tx _ _ d ds) in *.
    unfold project. cbn [primaryContatctId secondaryContactIds].
    destruct (find (fun c => id c =? id (electedOf tx d ds))
                   (findMany (rootedAt (id (electedOf tx d ds))) tx2))
      as [fresh|] eqn:Hf; [|contradiction].
    intros Hi Hlinks Hids.
    apply find_some in Hf. destruct Hf as [Hfin _].
    apply findMany_In in Hfin. destruct Hfin as [Hfin _].
    apply secondaryIdsOf_In in Hi. destruct Hi as (c & Hcin & <- & _ & Hl).
    apply findMany_In in Hcin. destruct Hcin as [Hcin _].
    apply Hids; [exact Hfin | exact Hcin |].
    apply Hlinks; assumption.
Qed.

Lemma X18_primary_has_the_lowest_id_witness :
  primaryContatctId (snd (identifyInTransaction 50 chainStore (req "e2" ""))) < 2.
Proof.
  assert (Hc : chronological
                 [(10, req "e1" ""); (20, req "e2" ""); (30, req "e2" "p3");
                  (40, req "e1" "p3")] emptyStore).
  { cbn [chronological]. repeat split; intros c Hc; vm_compute in Hc;
      repeat (destruct Hc as [<-|Hc]; [reflexivity|]); destruct Hc. }
  apply (X18_primary_has_the_lowest_id _ 50 (req "e2" "") Hc).
  - intros c Hin. vm_compute in Hin.
    repeat (destruct Hin as [<-|Hin]; [reflexivity|]). destruct Hin.
  - vm_compute. left. reflexivity.
Defined.

(* ===================================================================== *)
(** * What a call does to the clusters *)
(* ===================================================================== *)

Lemma connected_after (tx tx2 : Store) (f : Contact -> Contact) (extra : list Contact)
    (a b : Contact) :
  keepsKeys f -> rows tx2 = map f (rows tx) ++ extra ->
  connected tx a b -> connected tx2 (f a) (f b).
Proof.
  intros Hkeys Hrows. induction 1 as [c Hc|x y _ IH [Hy Hlive] Hadj].
  - destruct Hc as [<-|[]]. apply connected_refl.
  - apply reach_step with (a := f x); [exact IH | |].
    + split.
      * rewrite Hrows. apply in_or_app. left. apply in_map, Hy.
      * unfold notDeleted in *. destruct (Hkeys y) as (_ & _ & _ & _ & ->).
        exact Hlive.
    + destruct (Hkeys x) as (_ & Ex & Px & _). destruct (Hkeys y) as (_ & Ey & Py & _).
      apply adjacent_same_values with (a := x) (b := y); auto.
Qed.

(** X19. A call never splits a cluster, and it joins two clusters only
    when the request reaches both.  On a table with unique identifiers below
    the sequence, take two rows and the rows found at their positions after
    the call.  If the two were connected by shared values before, they are
    after; and if they are connected after, then either they were before, or
    both were reachable from the request's direct matches. *)
Theorem X19_calls_join_only_the_clusters_they_reach
    (now : Z) (tx : Store) (input : IdentifyRequest)
    (i j : nat) (a b a' b' : Contact) :
  uniqueIds tx -> idsBelowNext tx ->
  let tx2 := fst (identifyInTransaction now tx input) in
  let seeds := directMatchesOf tx (normalizeEmail (req_email input))
                                  (normalizePhone (req_phoneNumber input)) in
  nth_error (rows tx) i = Some a -> nth_error (rows tx2) i = Some a' ->
  nth_error (rows tx) j = Some b -> nth_error (rows tx2) j = Some b' ->
  live tx a ->
  (connected tx a b -> connected tx2 a' b') /\
  (connected tx2 a' b' ->
   connected tx a b \/
   (reachableFrom adjacent tx seeds a /\ reachableFrom adjacent tx seeds b)).
Proof.
  intros Hu Hbelow tx2 seeds Hi Hi' Hj Hj' Ha.
  destruct (call_rows now tx input) as (f & extra & Hrows & Hkeys & _ & _ & Hshape).
  cbv zeta in Hrows, Hshape. fold tx2 seeds in Hrows, Hshape.
  assert (Hextra : forall x, In x extra ->
            (email x = normalizeEmail (req_email input) /\
             phoneNumber x = normalizePhone (req_phoneNumber input)) /\
            id x = nextId tx).
  { intros x Hx. destruct Hshape as [(-> & _)|(lp & l & -> & _)]; [destruct Hx|].
    destruct Hx as [<-|[]]. repeat split. }
  assert (Ea : a' = f a).
  { rewrite Hrows, (nth_error_map_app f _ extra i Hi) in Hi'. congruence. }
  assert (Eb : b' = f b).
  { rewrite Hrows, (nth_error_map_app f _ extra j Hj) in Hj'. congruence. }
  subst a' b'.
  assert (Hbin : In b (rows tx)) by (eapply nth_error_In; eassumption).
  assert (Hsame : forall b0, In b0 (rows tx) -> f b = f b0 -> b0 = b).
  { intros b0 Hb0 E. apply (@unique_row tx); auto.
    destruct (Hkeys b) as (<- & _). destruct (Hkeys b0) as (<- & _).
    rewrite E. reflexivity. }
  split.
  - apply (connected_after tx tx2 f extra a b Hkeys Hrows).
  - intros Hc.
    destruct (@path_from_old tx tx2 f extra (normalizeEmail (req_email input))
                (normalizePhone (req_phoneNumber input)) Hkeys Hrows
                (fun x Hx => proj1 (Hextra x Hx)) a Ha (f b) Hc)
      as [(b0 & E & Hab)|(Hga & [Hx|(b0 & E & Hgb)])].
    + left. rewrite <- (Hsame b0); [exact Hab | | exact E].
      apply (connected_live Ha Hab).
    + exfalso. destruct (Hextra _ Hx) as [_ Hid].
      destruct (Hkeys b) as (Hidb & _). specialize (Hbelow b Hbin). lia.
    + right. split; [exact Hga|]. rewrite <- (Hsame b0); [exact Hgb | | exact E].
      assert (Hl : Forall (live tx) seeds) by apply directMatches_live.
      clear -Hgb Hl. induction Hgb as [c Hc|x y _ _ [Hy _] _].
      * rewrite Forall_forall in Hl. apply Hl, Hc.
      * exact Hy.
Qed.

Lemma X19_calls_join_only_the_clusters_they_reach_witness :
  let tx2 := fst (identifyInTransaction 30 twoStore (req "e1" "p2")) in
  (connected twoStore twoP1 twoP2 -> connected tx2 twoP1 (demote 1 twoP2)) /\
  (connected tx2 twoP1 (demote 1 twoP2) ->
   connected twoStore twoP1 twoP2 \/
   (reachableFrom adjacent twoStore
      (directMatchesOf twoStore (Some "e1") (Some "p2")) twoP1 /\
    reachableFrom adjacent twoStore
      (directMatchesOf twoStore (Some "e1") (Some "p2")) twoP2)).
Proof.
  assert (Hrows : rows twoStore = [twoP1; twoP2]) by (vm_compute; reflexivity).
  refine (X19_calls_join_only_the_clusters_they_reach 30 twoStore (req "e1" "p2")
            0 1 twoP1 twoP2 twoP1 (demote 1 twoP2) _ _ _ _ _ _ _).
  - unfold uniqueIds. rewrite Hrows. simpl. repeat constructor; simpl; intuition lia.
  - intros c Hc. rewrite Hrows in Hc.
    destruct Hc as [<-|[<-|[]]]; vm_compute; reflexivity.
  - vm_compute. reflexivity.
  - vm_compute. reflexivity.
  - vm_compute. reflexivity.
  - vm_compute. reflexivity.
  - split; [rewrite Hrows; left; reflexivity | reflexivity].
Defined.

(* ===================================================================== *)
(** * A request and its normal form *)
(* ===================================================================== *)

(** The request with both fields replaced by their normal forms. *)
Definition normalized (input : IdentifyRequest) : IdentifyRequest :=
  mkRequest (normalizeEmail (req_email input))
            (normalizePhone (req_phoneNumber input)).

Lemma identifyInTransaction_normalized_request
    (now : Z) (tx : Store) (input : IdentifyRequest) :
  identifyInTransaction now tx (normalized input) = identifyInTransaction now tx input.
Proof.
  unfold identifyInTransaction, normalized. cbn [req_email req_phoneNumber].
  rewrite normalizeEmail_idempotent, normalizePhone_idempotent. reflexivity.
Qed.

Lemma attempts_normalized_request (env : Env) (input : IdentifyRequest)
    (remaining attempt : nat) (prisma : Store) :
  attempts env (normalized input) remaining attempt prisma
  = attempts env input remaining attempt prisma.
Proof.
  revert attempt. induction remaining as [|remaining IH]; intros attempt;
    [reflexivity|].
  rewrite !attempts_step, identifyInTransaction_normalized_request, IH.
  reflexivity.
Qed.

(** X20. The service reads a request through its normal form only:
    whatever the store does, a call with a request and a call with the same
    request normalized beforehand (e-mail lower-cased and trimmed, phone
    number stripped of its formatting) end alike: same result or error, same
    store, same attempts. *)
Theorem X20_request_counts_through_its_normal_form
    (env : Env) (prisma : Store) (input : IdentifyRequest) :
  identifyContact env prisma (normalized input) = identifyContact env prisma input.
Proof.
  unfold identifyContact.
  assert (Hv : validateInput (normalized input) = validateInput input).
  { unfold validateInput, normalized. cbn [req_email req_phoneNumber].
    rewrite normalizeEmail_idempotent, normalizePhone_idempotent. reflexivity. }
  rewrite Hv, attempts_normalized_request. reflexivity.
Qed.

(* ===================================================================== *)
(** * The HTTP entry points *)
(* ===================================================================== *)

(** [api/identify.ts] (the serverless [handler]) and the [POST /identify]
    route of [createApp] in [app.ts].  Both receive the request body already
    parsed; what they do with it is modelled here, console lines included;
    the platform around them (routing, body parsing) is not. *)

(** A parsed JSON value.  An object is the list of its own properties, each
    key once. *)
#[local] Set Warnings "-register-all".
Inductive Json : Type :=
| JNull
| JBool (b : bool)
| JNumber (n : Z)
| JString (s : string)
| JArray (items : list Json)
| JObject (fields : list (string * Json)).
#[local] Set Warnings "register-all".

Fixpoint property (key : string) (fields : list (string * Json)) : option Json :=
  match fields with
  | [] => None
  | (k, v) :: rest => if String.eqb k key then Some v else property key rest
  end.

(** [req.body?.key]: [undefined] when the body is [undefined] or [null],
    and on any value that has no such property. *)
Definition bodyField (body : option Json) (key : string) : option Json :=
  match body with
  | Some (JObject fields) => property key fields
  | _ => None
  end.

(** [typeof v === 'string' ? v : undefined] *)
Definition stringOrUndefined (v : option Json) : option string :=
  match v with
  | Some (JString s) => Some s
  | _ => None
  end.

Definition payloadOf (body : option Json) : IdentifyRequest :=
  mkRequest (stringOrUndefined (bodyField body "email"))
            (stringOrUndefined (bodyField body "phoneNumber")).

Record HttpRequest : Type := mkHttpRequest {
  method : string;
  body : option Json
}.

(** What [res.json] is given. *)
Inductive ResponseBody : Type :=
| ContactBody (contact : IdentifyResponse)   (* [{ contact: ... }] *)
| ErrorBody (error : string).                (* [{ error: ... }] *)

Record HttpResponse : Type := mkHttpResponse {
  status : Z;
  allow : option string;        (* the [Allow] header, when set *)
  json : ResponseBody
}.

(** A line written to the console. *)
Inductive LogLine : Type :=
| ConsoleWarn (label message : string)
| ConsoleError (label : string) (err : Failure).

(** What serving one request did. *)
Record Served : Type := mkServed {
  response : HttpResponse;
  served_store : Store;
  served_trace : list Event;
  console : list LogLine
}.

(** The [console.error] of [identifyContact]: written in the [catch] of the
    loop when the error is thrown on, so exactly when a store error leaves
    the function. *)
Definition identifyContactLog (o : Outcome) : list LogLine :=
  match result o with
  | inl (StoreFailure err) => [ConsoleError "Error in identifyContact:" (StoreFailure err)]
  | _ => []
  end.

(** The [statusCode] property of what [identifyContact] throws, when it is a
    number: [validateInput] gives its error one; the errors of the Prisma
    client and the plain [Error] after the loop carry none. *)
Definition statusCodeOf (f : Failure) : option Z :=
  match f with
  | InvalidInput => Some 400
  | StoreFailure _ => None
  | Unreachable => None
  end.

Section Http.

(** The [message] of an error of the Prisma client. *)
Variable prismaMessage : PrismaError -> string.

Definition messageOf (f : Failure) : string :=
  match f with
  | InvalidInput => "Either email or phoneNumber must be provided"
  | StoreFailure err => prismaMessage err
  | Unreachable => "Unreachable: serializable retry loop exited unexpectedly"
  end.

(** [typeof err?.statusCode === 'number' ? err.statusCode : 500] *)
Definition statusFor (f : Failure) : Z :=
  match statusCodeOf f with
  | Some n => n
  | None => 500
  end.

(** [statusCode === 400 ? err?.message || 'Invalid request'
                        : 'Internal server error'] *)
Definition errorText (f : Failure) : string :=
  if statusFor f =? 400
  then (if JS.nonEmpty (messageOf f) then messageOf f else "Invalid request")
  else "Internal server error".

(** The [try] / [catch] around [identifyContact] that both entry points
    share, without their console lines. *)
Definition respond (o : Outcome) : HttpResponse :=
  match result o with
  | inr r => mkHttpResponse 200 None (ContactBody r)
  | inl f => mkHttpResponse (statusFor f) None (ErrorBody (errorText f))
  end.

(** [api/identify.ts]: [handler]. *)
Definition handler (env : Env) (prisma : Store) (req : HttpRequest) : Served :=
  if negb (String.eqb (method req) "POST")
  then mkServed (mkHttpResponse 405 (Some "POST") (ErrorBody "Method not allowed"))
                prisma [] []
  else
    let payload := payloadOf (body req) in
    let o := identifyContact env prisma payload in
    mkServed (respond o) (store o) (trace o) (identifyContactLog o).

(** [app.ts]: the handler of [app.post('/identify', ...)]. *)
Definition postIdentify (env : Env) (prisma : Store) (req : HttpRequest) : Served :=
  let payload := payloadOf (body req) in
  let o := identifyContact env prisma payload in
  mkServed (respond o) (store o) (trace o)
    (identifyContactLog o ++
     match result o with
     | inr _ => []
     | inl f =>
         if statusFor f =? 400
         then [ConsoleWarn "Bad request for /identify:" (messageOf f)]
         else [ConsoleError "Internal error on /identify:" f]
     end).

(** A field counts when it is a string with something left after
    normalization. *)
Definition significant (blank : ascii -> bool) (v : option Json) : Prop :=
  exists s, v = Some (JString s) /\ allChars blank s = false.

Lemma payload_valid_iff (b : option Json) :
  validateInput (payloadOf b) = true <->
  significant JS.isSpace (bodyField b "email") \/
  significant phoneNoise (bodyField b "phoneNumber").
Proof.
  unfold validateInput.
  rewrite negb_true_iff, andb_false_iff, !negb_false_iff.
  rewrite normalizeEmail_truthy_iff, normalizePhone_truthy_iff.
  unfold payloadOf, significant. simpl.
  split.
  - intros [(e & He & Hb)|(p & Hp & Hb)]; [left|right].
    + exists e. split; [|exact Hb].
      destruct (bodyField b "email") as [[]|]; simpl in He; congruence.
    + exists p. split; [|exact Hb].
      destruct (bodyField b "phoneNumber") as [[]|]; simpl in Hp; congruence.
  - intros [(e & He & Hb)|(p & Hp & Hb)]; [left|right].
    + exists e. rewrite He. auto.
    + exists p. rewrite Hp. auto.
Qed.

(** The three ways a served [POST] ends. *)
Lemma served_cases (env : Env) (prisma : Store) (b : option Json) :
  let o := identifyContact env prisma (payloadOf b) in
  (validateInput (payloadOf b) = false /\
   o = mkOutcome (inl InvalidInput) prisma [] /\
   respond o = mkHttpResponse 400 None
                 (ErrorBody "Either email or phoneNumber must be provided")) \/
  (validateInput (payloadOf b) = true /\
   (exists e, result o = inl (StoreFailure e)) /\ store o = prisma /\
   respond o = mkHttpResponse 500 None (ErrorBody "Internal server error")) \/
  (validateInput (payloadOf b) = true /\
   exists r, result o = inr r /\
             respond o = mkHttpResponse 200 None (ContactBody r)).
Proof.
  pose proof (identifyContact_result env prisma (payloadOf b)) as H.
  cbv zeta in *.
  destruct H as [[Hv Ho]|[Hv [(e & He & Hs)|(r & Hr)]]].
  - left. split; [exact Hv|]. split; [exact Ho|]. rewrite Ho. reflexivity.
  - right. left. split; [exact Hv|]. split; [exists e; exact He|].
    split; [exact Hs|]. unfold respond. rewrite He. reflexivity.
  - right. right. split; [exact Hv|]. exists r. split; [exact Hr|].
    unfold respond. rewrite Hr. reflexivity.
Qed.

(** X21. The serverless handler answers with one of four statuses.  Any
    method other than [POST] gets 405 with [Allow: POST]; a 400 carries the
    validation message; a 500 carries the fixed text ["Internal server
    error"], whatever the message of the store error was; a 200 carries the
    contact.  Unless the status is 200 the store is as it was. *)
Theorem X21_handler_statuses (env : Env) (prisma : Store) (req : HttpRequest) :
  let s := handler env prisma req in
  (response s = mkHttpResponse 405 (Some "POST") (ErrorBody "Method not allowed") \/
   response s = mkHttpResponse 400 None
                  (ErrorBody "Either email or phoneNumber must be provided") \/
   response s = mkHttpResponse 500 None (ErrorBody "Internal server error") \/
   exists r, response s = mkHttpResponse 200 None (ContactBody r)) /\
  (status (response s) <> 200 -> served_store s = prisma) /\
  (status (response s) = 405 \/ status (response s) = 400 ->
   served_trace s = [] /\ console s = []).
Proof.
  intros s. unfold s, handler.
  destruct (String.eqb (method req) "POST"); simpl.
  - destruct (served_cases env prisma (body req))
      as [(_ & Ho & Hr)|[(_ & (e & He) & Hs & Hr)|(_ & r & Hres & Hr)]];
      cbv zeta in *; rewrite Hr; simpl.
    + rewrite Ho. simpl. split; [auto|]. split; [reflexivity|]. auto.
    + split; [auto|]. split; [intros _; exact Hs|]. intros [H|H]; discriminate.
    + split; [right; right; right; exists r; reflexivity|].
      split; [intros H; congruence|]. intros [H|H]; discriminate.
  - split; [auto|]. split; [reflexivity|]. auto.
Qed.

(** X22. Which requests the serverless handler refuses, for bodies whose
    strings lie in the range U+0000 to U+00FF.  It answers 405 exactly when
    the method is not [POST], and 400 exactly when the method is [POST] and
    the body holds neither an [email] that is a string with a character
    other than white space nor a [phoneNumber] that is a string with a
    character other than white space, dash, dot and parenthesis (white space
    is TAB, LF, VT, FF, CR, SPACE and U+00A0): a missing body, a body that is
    not an object, and fields that are numbers, booleans, [null], arrays or
    objects all count as absent. *)
Theorem X22_handler_refusals (env : Env) (prisma : Store) (req : HttpRequest) :
  let s := handler env prisma req in
  (status (response s) = 405 <-> method req <> "POST") /\
  (status (response s) = 400 <->
   method req = "POST" /\
   ~ significant JS.isSpace (bodyField (body req) "email") /\
   ~ significant phoneNoise (bodyField (body req) "phoneNumber")).
Proof.
  intros s. unfold s, handler.
  destruct (String.eqb (method req) "POST") eqn:Em; simpl.
  - apply String.eqb_eq in Em.
    pose proof (payload_valid_iff (body req)) as Hvalid.
    destruct (served_cases env prisma (body req))
      as [(Hv & _ & Hr)|[(Hv & _ & _ & Hr)|(Hv & r & _ & Hr)]];
      cbv zeta in *; rewrite Hr; simpl.
    + split; [split; [discriminate | intros H; contradiction]|].
      split; [intros _|reflexivity]. split; [exact Em|].
      rewrite Hv in Hvalid.
      split; intros H; assert (false = true) by (apply Hvalid; auto); discriminate.
    + split; [split; [discriminate | intros H; contradiction]|].
      split; [discriminate|]. intros (_ & H1 & H2).
      apply Hvalid in Hv. tauto.
    + split; [split; [discriminate | intros H; contradiction]|].
      split; [discriminate|]. intros (_ & H1 & H2).
      apply Hvalid in Hv. tauto.
  - apply String.eqb_neq in Em. split; [tauto|].
    split; [discriminate | tauto].
Qed.

(** X23. The two entry points agree: on a [POST] the serverless handler
    and the Express route give the same response, leave the same store and
    run the same transactions; the Express route only writes one more line to
    the console when the call fails. *)
Theorem X23_entry_points_agree (env : Env) (prisma : Store) (req : HttpRequest) :
  method req = "POST" ->
  let a := handler env prisma req in
  let b := postIdentify env prisma req in
  response a = response b /\
  served_store a = served_store b /\
  served_trace a = served_trace b /\
  exists more, console b = console a ++ more /\
    (List.length more <= 1)%nat /\
    (more = [] <-> status (response a) = 200).
Proof.
  intros Hm a b. unfold a, b, handler, postIdentify.
  apply String.eqb_eq in Hm. rewrite Hm. simpl.
  repeat (split; [reflexivity|]).
  unfold respond.
  destruct (result (identifyContact env prisma (payloadOf (body req)))) as [f|r].
  - eexists. split; [reflexivity|]. simpl.
    destruct (statusFor f =? 400) eqn:E; simpl.
    + split; [lia|]. split; [discriminate|]. apply Z.eqb_eq in E. lia.
    + split; [lia|]. split; [discriminate|].
      intros H. unfold statusFor in *. destruct f; simpl in *; discriminate.
  - exists []. split; [reflexivity|]. simpl. split; [lia|]. tauto.
Qed.

End Http.

Lemma X23_entry_points_agree_witness :
  response (handler (fun _ => "") (mkEnv (fun _ => None) (fun _ => 10)) emptyStore
              (mkHttpRequest "POST"
                 (Some (JObject [("email", JString "alice@example.com")]))))
  = response (postIdentify (fun _ => "") (mkEnv (fun _ => None) (fun _ => 10)) emptyStore
                (mkHttpRequest "POST"
                   (Some (JObject [("email", JString "alice@example.com")])))).
Proof.
  apply (X23_entry_points_agree (fun _ => "") (mkEnv (fun _ => None) (fun _ => 10))
           emptyStore
           (mkHttpRequest "POST"
              (Some (JObject [("email", JString "alice@example.com")])))).
  reflexivity.
Defined.

(** The requests of the smoke test, served by the model. *)
Example post_new_contact :
  response (handler (fun _ => "") (mkEnv (fun _ => None) (fun _ => 10)) emptyStore
              (mkHttpRequest "POST"
                 (Some (JObject [("email", JString "alice@example.com")]))))
  = mkHttpResponse 200 None
      (ContactBody (mkResponse 1 ["alice@example.com"] [] [])).
Proof. vm_compute. reflexivity. Qed.

Example post_empty_body_is_refused :
  response (handler (fun _ => "") (mkEnv (fun _ => None) (fun _ => 10)) emptyStore
              (mkHttpRequest "POST" (Some (JObject []))))
  = mkHttpResponse 400 None
      (ErrorBody "Either email or phoneNumber must be provided").
Proof. vm_compute. reflexivity. Qed.

Example post_empty_strings_are_refused :
  response (handler (fun _ => "") (mkEnv (fun _ => None) (fun _ => 10)) emptyStore
              (mkHttpRequest "POST"
                 (Some (JObject [("email", JString ""); ("phoneNumber", JString "")]))))
  = mkHttpResponse 400 None
      (ErrorBody "Either email or phoneNumber must be provided").
Proof. vm_compute. reflexivity. Qed.

Example post_no_break_space_is_refused :
  response (handler (fun _ => "") (mkEnv (fun _ => None) (fun _ => 10)) emptyStore
              (mkHttpRequest "POST" (Some (JObject [("email", JString nbsp)]))))
  = mkHttpResponse 400 None
      (ErrorBody "Either email or phoneNumber must be provided").
Proof. vm_compute. reflexivity. Qed.

Example post_number_is_not_a_phone :
  response (handler (fun _ => "") (mkEnv (fun _ => None) (fun _ => 10)) emptyStore
              (mkHttpRequest "POST" (Some (JObject [("phoneNumber", JNumber 15550001111)]))))
  = mkHttpResponse 400 None
      (ErrorBody "Either email or phoneNumber must be provided").
Proof. vm_compute. reflexivity. Qed.

Example store_error_is_not_disclosed :
  response (handler (fun _ => "connection refused at 10.0.0.7:5432")
              (mkEnv (fun _ => Some (mkPrismaError false "")) (fun _ => 10)) emptyStore
              (mkHttpRequest "POST"
                 (Some (JObject [("email", JString "alice@example.com")]))))
  = mkHttpResponse 500 None (ErrorBody "Internal server error").
Proof. vm_compute. reflexivity. Qed.
